(** * embxx/driver/Character.h : the asynchronous character-device driver

    A shallow embedding of the read and write engines of
    [embxx::driver::Character] and of the dispatch primitive
    [details::invokeHandler], followed by the properties of the driver's
    specification that are settled against it.

    Conventions.
    - Pointers into the caller's buffers are addresses in [Z], counted in
      units of [CharType]; pointer addition is exact.
    - [std::size_t] values are numbers in [Z]; the one conversion the code
      performs, [static_cast<std::size_t>(current_ - start_)], is written
      out as a reduction modulo [2 ^ size_t_bits].
    - Each function of the driver is a state transformer that ends in an
      [Outcome]: a normal return, a fired assertion, or an access the C++
      code performs through an object that no longer exists.
    - The device (template parameter [TDevice]) is a parameter of the
      development: its state is an arbitrary type and each of its member
      functions is an arbitrary function on that state. *)

From Stdlib Require Import ZArith Lia Bool List.
Import ListNotations.
Local Open Scope Z_scope.

Set Implicit Arguments.

(** ** External collaborators *)

(** Modelled from the spec: [embxx::error::ErrorStatus]
    (embxx/error/ErrorStatus.h is not among the sources).  The spec names
    the kinds [Success], [Aborted], [BufferOverflow] and the errors a
    device reports; an [ErrorStatus] converts to [true] exactly when it
    is not [Success]. *)
Inductive ErrorCode : Type :=
| Success
| Aborted
| BufferOverflow
| DeviceError (kind : nat).

Definition ErrorStatus : Type := ErrorCode.

Definition isError (es : ErrorStatus) : bool :=
  match es with
  | Success => false
  | _ => true
  end.

(** [embxx::device::context::EventLoop] and
    [embxx::device::context::Interrupt], the tags passed to every device
    call. *)
Inductive context : Type :=
| EventLoopContext
| InterruptContext.

(** The template parameters of the driver.

    - [Device], [CharType] and the member functions: the interface the
      driver requires of [TDevice] (its documentation lists them).  A
      member function that returns a value returns it next to the new
      device state.  [dev_f] stands for [device_.f].
    - [Handler]: the completion callables users hand to the driver.
    - [readUntilValid]: [ReadUntilPred] is not [std::nullptr_t], so the
      read-until facility is compiled in ([ReadUntilStatus] is
      [ReadUntilValid]).
    - [TMaxPendingReads]: the capacity of the queued read engine.
    - [size_t_bits]: the width of [std::size_t]. *)
Class Platform : Type := {
  Device : Type;
  CharType : Type;
  Handler : Type;
  readUntilValid : bool;
  TMaxPendingReads : nat;
  size_t_bits : Z;
  dev_suspend : Device -> bool * Device;
  dev_resume : Device -> Device;
  dev_startRead : Z -> context -> Device -> Device;
  dev_cancelRead : context -> Device -> bool * Device;
  dev_canRead : Device -> bool * Device;
  dev_read : Device -> CharType * Device;
  dev_startWrite : Z -> Device -> Device;
  dev_cancelWrite : Device -> bool * Device;
  dev_canWrite : Device -> bool * Device;
  dev_write : CharType -> Device -> Device
}.

(** The build the driver is compiled in.  [GASSERT]
    (embxx/util/Assert.h, not among the sources) is either compiled in,
    and then a failed assertion is fatal, or expands to nothing, and then
    execution goes on past it: the code provides for both (it follows
    [GASSERT(0)] with [break]). *)
Class Build : Type := {
  assertsEnabled : bool
}.

(** ** Outcomes and the state monad of the driver *)

Inductive Outcome (S A : Type) : Type :=
| Ret (a : A) (s : S)
    (* the function returned [a] *)
| AssertFailed (s : S)
    (* a [GASSERT] failed in a build that checks them *)
| Undefined (s : S)
    (* the code accessed an element a container does not hold, or a
       location outside the buffer it was given *)
| OutOfFuel (s : S).
    (* the bound on loop iterations was reached (shown not to happen) *)

Arguments Ret {S A} a s.
Arguments AssertFailed {S A} s.
Arguments Undefined {S A} s.
Arguments OutOfFuel {S A} s.

Definition M (S A : Type) : Type := S -> Outcome S A.

Definition ret {S A} (a : A) : M S A := fun s => Ret a s.

Definition bind {S A B} (m : M S A) (k : A -> M S B) : M S B :=
  fun s =>
    match m s with
    | Ret a s' => k a s'
    | AssertFailed s' => AssertFailed s'
    | Undefined s' => Undefined s'
    | OutOfFuel s' => OutOfFuel s'
    end.

Declare Scope drv_scope.
Delimit Scope drv_scope with drv.
Notation "x <- m ;; k" := (bind m (fun x => k))
  (at level 61, m at next level, right associativity) : drv_scope.
Notation "m ;; k" := (bind m (fun _ => k))
  (at level 61, right associativity) : drv_scope.
Local Open Scope drv_scope.

Definition gets {S A} (f : S -> A) : M S A := fun s => Ret (f s) s.
Definition modify {S} (f : S -> S) : M S unit := fun s => Ret tt (f s).
Definition undefined {S A} : M S A := fun s => Undefined s.
Definition outOfFuel {S A} : M S A := fun s => OutOfFuel s.

(** Runs [m], which works on a part [T] of the state [S], given how to
    read the part and how to write it back. *)
Definition zoom {S T A} (get : S -> T) (set : T -> S -> S) (m : M T A)
  : M S A :=
  fun s =>
    match m (get s) with
    | Ret a t => Ret a (set t s)
    | AssertFailed t => AssertFailed (set t s)
    | Undefined t => Undefined (set t s)
    | OutOfFuel t => OutOfFuel (set t s)
    end.

(** The state an outcome ends in. *)
Definition finalState {S A} (o : Outcome S A) : S :=
  match o with
  | Ret _ s | AssertFailed s | Undefined s | OutOfFuel s => s
  end.

Section Driver.
Context {P : Platform} {B : Build}.

(** [GASSERT(cond)]. *)
Definition GASSERT {S} (cond : bool) : M S unit :=
  fun s =>
    if assertsEnabled && negb cond then AssertFailed s else Ret tt s.

(** [static_cast<std::size_t>(z)]. *)
Definition to_size_t (z : Z) : Z := z mod 2 ^ size_t_bits.

(** *** The event loop *)

(** What [std::bind(std::move(info.handler_), es, sizeToReport)] builds:
    the callable taken out of the slot (none, when the slot was empty)
    with its two arguments. *)
Record BoundHandler : Type := {
  bound_handler : option Handler;
  bound_es : ErrorStatus;
  bound_size : Z
}.

(** Modelled from the spec: the event loop ([TEventLoop], not among the
    sources).  [post] and [postInterruptCtx] enqueue a nullary callable
    onto the loop's run queue from the respective context and return
    [true] on success; the queue is bounded and sized by the user, so a
    post fails when no room is left.  [el_posted] lists what was
    enqueued, oldest first, with the context it was posted from. *)
Record EventLoop : Type := {
  el_posted : list (context * BoundHandler);
  el_room : nat
}.

Definition enqueue (ctx : context) (b : BoundHandler) (el : EventLoop)
  : bool * EventLoop :=
  match el_room el with
  | O => (false, el)
  | S room =>
      (true, {| el_posted := el_posted el ++ [(ctx, b)]; el_room := room |})
  end.

Definition post : BoundHandler -> EventLoop -> bool * EventLoop :=
  enqueue EventLoopContext.

Definition postInterruptCtx : BoundHandler -> EventLoop -> bool * EventLoop :=
  enqueue InterruptContext.

(** *** Request blocks *)

(** The caller's memory. *)
Definition Memory : Type := Z -> CharType.

Definition store (a : Z) (ch : CharType) (m : Memory) : Memory :=
  fun x => if Z.eqb x a then ch else m x.

(** [CharacterReadSupportBase::ReadInfo].  A stored callable
    ([handler_], [readUntilPred_]) may be empty. *)
Record ReadInfo : Type := {
  r_start_ : Z;
  r_current_ : Z;
  r_bufSize_ : Z;
  r_handler_ : option Handler;
  r_readUntilPred_ : option (CharType -> bool)
}.

(** [CharacterWriteSupportBase::WriteInfo]. *)
Record WriteInfo : Type := {
  w_start_ : Z;
  w_current_ : Z;
  w_bufSize_ : Z;
  w_handler_ : option Handler
}.

(** What [invokeHandler] needs of its template parameter [TInfo]: the
    members [start_], [current_] and [handler_], and moving the handler
    out of its slot, which leaves the slot empty (the code asserts so). *)
Class Info (I : Type) : Type := {
  start_ : I -> Z;
  current_ : I -> Z;
  handler_ : I -> option Handler;
  moveHandler : I -> I;
  handler_moveHandler : forall i, handler_ (moveHandler i) = None;
  start_moveHandler : forall i, start_ (moveHandler i) = start_ i;
  current_moveHandler : forall i, current_ (moveHandler i) = current_ i
}.

#[export] Instance ReadInfo_Info : Info ReadInfo := {
  start_ := r_start_;
  current_ := r_current_;
  handler_ := r_handler_;
  moveHandler i :=
    {| r_start_ := r_start_ i; r_current_ := r_current_ i;
       r_bufSize_ := r_bufSize_ i; r_handler_ := None;
       r_readUntilPred_ := r_readUntilPred_ i |};
  handler_moveHandler _ := eq_refl;
  start_moveHandler _ := eq_refl;
  current_moveHandler _ := eq_refl
}.

#[export] Instance WriteInfo_Info : Info WriteInfo := {
  start_ := w_start_;
  current_ := w_current_;
  handler_ := w_handler_;
  moveHandler i :=
    {| w_start_ := w_start_ i; w_current_ := w_current_ i;
       w_bufSize_ := w_bufSize_ i; w_handler_ := None |};
  handler_moveHandler _ := eq_refl;
  start_moveHandler _ := eq_refl;
  current_moveHandler _ := eq_refl
}.

Definition isSet {A} (o : option A) : bool :=
  match o with
  | Some _ => true
  | None => false
  end.

(** *** [details::invokeHandler] *)

Definition invokeHandler {I} {HI : Info I} (es : ErrorStatus)
    (interruptCtx : bool)
  : M (EventLoop * I) unit :=
  info <- gets snd ;;
  let sizeToReport := to_size_t (current_ info - start_ info) in
  GASSERT (isSet (handler_ info)) ;;
  let boundHandler :=
    {| bound_handler := handler_ info;
       bound_es := es;
       bound_size := sizeToReport |} in
  modify (fun s => (fst s, moveHandler (snd s))) ;;
  postResult <-
    (fun s =>
       let (r, el') :=
         if interruptCtx
         then postInterruptCtx boundHandler (fst s)
         else post boundHandler (fst s) in
       Ret r (el', snd s)) ;;
  GASSERT postResult ;;
  info' <- gets snd ;;
  GASSERT (negb (isSet (handler_ info'))).


(** *** State of an engine *)

(** An engine holds references to the device and to the event loop
    ([device_], [el_]) and its pending requests: a queue of [ReadInfo]
    ([queue_]) or a single inline block ([info_]).  The caller's buffers
    are part of the state the engine acts on. *)
Record Support (Q : Type) : Type := {
  device_ : Device;
  el_ : EventLoop;
  memory : Memory;
  pending : Q
}.

Definition setDevice {Q} (d : Device) (s : Support Q) : Support Q :=
  {| device_ := d; el_ := el_ s; memory := memory s; pending := pending s |}.

Definition setEl {Q} (el : EventLoop) (s : Support Q) : Support Q :=
  {| device_ := device_ s; el_ := el; memory := memory s;
     pending := pending s |}.

Definition setMemory {Q} (m : Memory) (s : Support Q) : Support Q :=
  {| device_ := device_ s; el_ := el_ s; memory := m; pending := pending s |}.

Definition setPending {Q} (q : Q) (s : Support Q) : Support Q :=
  {| device_ := device_ s; el_ := el_ s; memory := memory s; pending := q |}.

(** A device call that returns a value, and one that returns none. *)
Definition callDevice {Q A} (f : Device -> A * Device) : M (Support Q) A :=
  fun s => let (a, d) := f (device_ s) in Ret a (setDevice d s).

Definition doDevice {Q} (f : Device -> Device) : M (Support Q) unit :=
  modify (fun s => setDevice (f (device_ s)) s).

(** [invokeHandler(Base::el_, info, ...)], with the event loop and the
    engine's pending requests as the state it acts on. *)
Definition elAndPending {Q} (s : Support Q) : EventLoop * Q :=
  (el_ s, pending s).

Definition setElAndPending {Q} (t : EventLoop * Q) (s : Support Q)
  : Support Q :=
  setPending (snd t) (setEl (fst t) s).

(** *** [CharacterReadSupportBase] *)

(** The constructor [ReadInfo(buf, bufSize, handler, pred)].  When the
    read-until facility is compiled out, [readUntilPred_] has type
    [std::nullptr_t] and holds no predicate. *)
Definition mkReadInfo (buf bufSize : Z) (handler : Handler)
    (pred : option (CharType -> bool)) : ReadInfo :=
  {| r_start_ := buf;
     r_current_ := buf;
     r_bufSize_ := bufSize;
     r_handler_ := Some handler;
     r_readUntilPred_ := if readUntilValid then pred else None |}.

(** [seekedCharFound(ch, info)], dispatched on [ReadUntilStatus]. *)
Definition seekedCharFound (ch : CharType) (info : ReadInfo) : bool :=
  if readUntilValid then
    match r_readUntilPred_ info with
    | Some pred => pred ch
    | None => false
    end
  else false.

(** [*info.current_ = ch; ++info.current_;] *)
Definition advanceRead (info : ReadInfo) : ReadInfo :=
  {| r_start_ := r_start_ info;
     r_current_ := r_current_ info + 1;
     r_bufSize_ := r_bufSize_ info;
     r_handler_ := r_handler_ info;
     r_readUntilPred_ := r_readUntilPred_ info |}.

(** The status a zero-size read completes with. *)
Definition zeroSizeCode (info : ReadInfo) : ErrorStatus :=
  if isSet (r_readUntilPred_ info) then BufferOverflow else Success.

(** [*(info.current_ - 1)] names a character of the buffer of [info]
    when the cursor is past the start of the buffer and not past its
    end.  Elsewhere it names none: the location before the buffer when
    nothing was read, [nullptr - 1] on a [ReadInfo] as constructed. *)
Definition lastCharInBuffer (info : ReadInfo) : bool :=
  (r_start_ info <? r_current_ info) &&
  (r_current_ info <=? r_start_ info + r_bufSize_ info).

(** [es || !seekedCharFound( *(info.current_ - 1), info)], the condition
    of the read-complete hooks.  [||] evaluates its right operand, and
    with it the load of the character before the cursor, only when [es]
    holds no error. *)
Definition statusStands {Q} (es : ErrorStatus) (info : ReadInfo)
  : M (Support Q) bool :=
  if isError es then ret true
  else if lastCharInBuffer info then
    mem <- gets (@memory Q) ;;
    ret (negb (seekedCharFound (mem (r_current_ info - 1)) info))
  else undefined.

End Driver.

(** ** [CharacterReadSupport<..., TMaxPendingReads>]: the queued read engine *)

Module ReadN.
Section Engine.
Context {P : Platform} {B : Build}.

(** [queue_] is a [StaticQueue<ReadInfo, TMaxPendingReads>]: the front
    of the queue is the head of the list. *)
Definition State : Type := Support (list ReadInfo).

Definition empty (q : list ReadInfo) : bool :=
  match q with
  | [] => true
  | _ :: _ => false
  end.

Definition full (q : list ReadInfo) : bool :=
  Nat.leb TMaxPendingReads (length q).

(** Modelled from the spec: [StaticQueue::emplaceBack]
    (embxx/container/StaticQueue.h is not among the sources) appends to a
    bounded FIFO; appending to a full queue is outside its contract. *)
Definition emplaceBack (info : ReadInfo) : M State unit :=
  fun s =>
    if full (pending s) then Undefined s
    else Ret tt (setPending (pending s ++ [info]) s).

(** [queue_.popFront()]. *)
Definition popFront : M State unit :=
  fun s =>
    match pending s with
    | [] => Undefined s
    | _ :: rest => Ret tt (setPending rest s)
    end.

(** Runs [m] on the event loop and on [queue_.front()]. *)
Definition withFront {A} (m : M (EventLoop * ReadInfo) A) : M State A :=
  fun s =>
    match pending s with
    | [] => Undefined s
    | info :: rest =>
        zoom (fun s => (el_ s, info))
             (fun t s => setPending (snd t :: rest) (setEl (fst t) s))
             m s
    end.

(** [startNextRead(interruptCtx)].  Each turn of the [while] loop that
    does not leave it pops one entry, so the length of the queue bounds
    the number of turns. *)
Fixpoint startNextReadLoop (fuel : nat) (interruptCtx : bool)
  : M State unit :=
  q <- gets (@pending _ _) ;;
  match q with
  | [] => ret tt
  | info :: _ =>
      if r_bufSize_ info =? 0 then
        match fuel with
        | O => outOfFuel
        | S fuel' =>
            withFront (invokeHandler (zeroSizeCode info) interruptCtx) ;;
            popFront ;;
            startNextReadLoop fuel' interruptCtx
        end
      else if interruptCtx then
        doDevice (dev_startRead (r_bufSize_ info) InterruptContext)
      else
        doDevice (dev_startRead (r_bufSize_ info) EventLoopContext)
  end.

Definition startNextRead (interruptCtx : bool) : M State unit :=
  q <- gets (@pending _ _) ;;
  startNextReadLoop (length q) interruptCtx.

(** [asyncReadUntil(buf, size, pred, func)]. *)
Definition asyncReadUntil (buf size : Z) (pred : option (CharType -> bool))
    (func : Handler) : M State unit :=
  suspended <- callDevice dev_suspend ;;
  q <- gets (@pending _ _) ;;
  GASSERT (negb (full q)) ;;
  emplaceBack (mkReadInfo buf size func pred) ;;
  if suspended : bool then
    doDevice dev_resume
  else
    q' <- gets (@pending _ _) ;;
    GASSERT (Nat.eqb (length q') 1) ;;
    startNextRead false.

(** [asyncRead(buf, size, func)]: [asyncReadUntil] with a
    default-constructed, that is empty, predicate. *)
Definition asyncRead (buf size : Z) (func : Handler) : M State unit :=
  asyncReadUntil buf size None func.

(** The body of the lambda [cancelRead] applies to each queued entry. *)
Definition abortInfo : M (EventLoop * ReadInfo) unit :=
  info <- gets snd ;;
  GASSERT (r_current_ info <? r_start_ info + r_bufSize_ info) ;;
  invokeHandler Aborted false.

(** [std::for_each(queue_.begin(), queue_.end(), f)]: [f] acts on the
    event loop and, by reference, on each entry in turn. *)
Fixpoint forEach (f : M (EventLoop * ReadInfo) unit) (q : list ReadInfo)
    (el : EventLoop) : Outcome (EventLoop * list ReadInfo) unit :=
  match q with
  | [] => Ret tt (el, [])
  | info :: rest =>
      match f (el, info) with
      | Ret _ (el', info') =>
          match forEach f rest el' with
          | Ret _ (el'', rest') => Ret tt (el'', info' :: rest')
          | AssertFailed (el'', rest') => AssertFailed (el'', info' :: rest')
          | Undefined (el'', rest') => Undefined (el'', info' :: rest')
          | OutOfFuel (el'', rest') => OutOfFuel (el'', info' :: rest')
          end
      | AssertFailed (el', info') => AssertFailed (el', info' :: rest)
      | Undefined (el', info') => Undefined (el', info' :: rest)
      | OutOfFuel (el', info') => OutOfFuel (el', info' :: rest)
      end
  end.

(** [cancelRead()]. *)
Definition cancelRead : M State bool :=
  cancelled <- callDevice (dev_cancelRead EventLoopContext) ;;
  if negb cancelled then
    q <- gets (@pending _ _) ;;
    GASSERT (empty q) ;;
    ret false
  else
    zoom (@elAndPending _ _) (@setElAndPending _ _)
         (fun t => forEach abortInfo (snd t) (fst t)) ;;
    modify (setPending []) ;;
    ret true.

(** The next evaluation of the loop condition of
    [canReadInterruptHandler] after the front entry was popped.  [info]
    was bound to [queue_.front()] before the loop and now names an entry
    the queue no longer holds: when the device reports another
    character, the loop body reads [info.start_], [info.bufSize_] and
    [info.current_] through it. *)
Definition canReadAfterPop : M State unit :=
  more <- callDevice dev_canRead ;;
  if more : bool then undefined else ret tt.

(** The [while] loop of [canReadInterruptHandler], with [info] the front
    of the queue.  Each turn that continues advances [info.current_], so
    the room left in the buffer bounds the number of turns. *)
Fixpoint canReadLoop (fuel : nat) : M State unit :=
  more <- callDevice dev_canRead ;;
  if negb more then ret tt
  else
    q <- gets (@pending _ _) ;;
    match q with
    | [] => undefined
    | info :: rest =>
        if r_start_ info + r_bufSize_ info <=? r_current_ info then
          (* The device control object mustn't allow it. *)
          GASSERT false ;;
          ret tt (* break *)
        else
          match fuel with
          | O => outOfFuel
          | S fuel' =>
              ch <- callDevice dev_read ;;
              modify (fun s =>
                setMemory (store (r_current_ info) ch (memory s)) s) ;;
              modify (setPending (advanceRead info :: rest)) ;;
              if seekedCharFound ch (advanceRead info) then
                cancelled <- callDevice (dev_cancelRead InterruptContext) ;;
                if cancelled : bool then
                  withFront (invokeHandler Success true) ;;
                  popFront ;;
                  startNextRead true ;;
                  canReadAfterPop
                else canReadLoop fuel'
              else canReadLoop fuel'
          end
    end.

(** [canReadInterruptHandler()]. *)
Definition canReadInterruptHandler : M State unit :=
  q <- gets (@pending _ _) ;;
  GASSERT (negb (empty q)) ;;
  match q with
  | [] =>
      (* [info] is bound to the front of an empty queue *)
      more <- callDevice dev_canRead ;;
      if more : bool then undefined else ret tt
  | info :: _ =>
      canReadLoop
        (Z.to_nat (r_start_ info + r_bufSize_ info - r_current_ info))
  end.

(** [readCompleteInterruptHandler(es)]. *)
Definition readCompleteInterruptHandler (es : ErrorStatus) : M State unit :=
  q <- gets (@pending _ _) ;;
  GASSERT (negb (empty q)) ;;
  match q with
  | [] => undefined
  | info :: _ =>
      GASSERT (r_start_ info <? r_current_ info) ;;
      stands <- statusStands es info ;;
      (if stands : bool
       then withFront (invokeHandler es true)
       else withFront (invokeHandler BufferOverflow true)) ;;
      popFront ;;
      startNextRead true
  end.

End Engine.
End ReadN.

(** ** [CharacterReadSupport<..., 1U>]: the single-slot read engine *)

Module Read1.
Section Engine.
Context {P : Platform} {B : Build}.

(** [info_] is the one inline [ReadInfo]. *)
Definition State : Type := Support ReadInfo.

(** The default-constructed [ReadInfo] an engine starts with. *)
Definition emptyInfo : ReadInfo :=
  {| r_start_ := 0; r_current_ := 0; r_bufSize_ := 0;
     r_handler_ := None; r_readUntilPred_ := None |}.

Definition withInfo {A} (m : M (EventLoop * ReadInfo) A) : M State A :=
  zoom (@elAndPending _ _) (@setElAndPending _ _) m.

Definition setHandler (h : option Handler) (info : ReadInfo) : ReadInfo :=
  {| r_start_ := r_start_ info; r_current_ := r_current_ info;
     r_bufSize_ := r_bufSize_ info; r_handler_ := h;
     r_readUntilPred_ := r_readUntilPred_ info |}.

Definition setPred (p : option (CharType -> bool)) (info : ReadInfo)
  : ReadInfo :=
  {| r_start_ := r_start_ info; r_current_ := r_current_ info;
     r_bufSize_ := r_bufSize_ info; r_handler_ := r_handler_ info;
     r_readUntilPred_ := if readUntilValid then p else None |}.

Definition setBuffer (buf size : Z) (info : ReadInfo) : ReadInfo :=
  {| r_start_ := buf; r_current_ := buf; r_bufSize_ := size;
     r_handler_ := r_handler_ info;
     r_readUntilPred_ := r_readUntilPred_ info |}.

(** [initRead(buf, size)]. *)
Definition initRead (buf size : Z) : M State unit :=
  modify (fun s => setPending (setBuffer buf size (pending s)) s) ;;
  if size =? 0 then
    info <- gets (@pending _ _) ;;
    withInfo (invokeHandler (zeroSizeCode info) false)
  else
    doDevice (dev_startRead size EventLoopContext).

(** [asyncRead(buf, size, func)]. *)
Definition asyncRead (buf size : Z) (func : Handler) : M State unit :=
  info <- gets (@pending _ _) ;;
  GASSERT (negb (isSet (r_handler_ info))) ;; (* No read in progress *)
  modify (fun s => setPending (setHandler (Some func) (pending s)) s) ;;
  modify (fun s => setPending (setPred None (pending s)) s) ;;
  initRead buf size.

(** [asyncReadUntil(buf, size, pred, func)]. *)
Definition asyncReadUntil (buf size : Z) (pred : option (CharType -> bool))
    (func : Handler) : M State unit :=
  info <- gets (@pending _ _) ;;
  GASSERT (negb (isSet (r_handler_ info))) ;; (* No read in progress *)
  modify (fun s => setPending (setHandler (Some func) (pending s)) s) ;;
  modify (fun s => setPending (setPred pred (pending s)) s) ;;
  initRead buf size.

(** [cancelRead()]. *)
Definition cancelRead : M State bool :=
  cancelled <- callDevice (dev_cancelRead EventLoopContext) ;;
  if negb cancelled then
    info <- gets (@pending _ _) ;;
    GASSERT (negb (isSet (r_handler_ info))) ;;
    ret false
  else
    info <- gets (@pending _ _) ;;
    GASSERT (isSet (r_handler_ info)) ;;
    GASSERT (r_current_ info <? r_start_ info + r_bufSize_ info) ;;
    withInfo (invokeHandler Aborted false) ;;
    ret true.

(** The [while] loop of [canReadInterruptHandler].  Each turn that
    continues advances [info_.current_], so the room left in the buffer
    bounds the number of turns. *)
Fixpoint canReadLoop (fuel : nat) : M State unit :=
  more <- callDevice dev_canRead ;;
  if negb more then ret tt
  else
    info <- gets (@pending _ _) ;;
    if r_start_ info + r_bufSize_ info <=? r_current_ info then
      (* The device control object mustn't allow it. *)
      GASSERT false ;;
      ret tt (* break *)
    else
      match fuel with
      | O => outOfFuel
      | S fuel' =>
          ch <- callDevice dev_read ;;
          modify (fun s =>
            setMemory (store (r_current_ info) ch (memory s)) s) ;;
          modify (setPending (advanceRead info)) ;;
          (if seekedCharFound ch (advanceRead info) then
             cancelled <- callDevice (dev_cancelRead InterruptContext) ;;
             if cancelled : bool then
               withInfo (invokeHandler Success true)
             else ret tt
           else ret tt) ;;
          canReadLoop fuel'
      end.

(** [canReadInterruptHandler()]. *)
Definition canReadInterruptHandler : M State unit :=
  info <- gets (@pending _ _) ;;
  canReadLoop (Z.to_nat (r_start_ info + r_bufSize_ info - r_current_ info)).

(** [readCompleteInterruptHandler(es)]. *)
Definition readCompleteInterruptHandler (es : ErrorStatus) : M State unit :=
  info <- gets (@pending _ _) ;;
  stands <- statusStands es info ;;
  if stands : bool
  then withInfo (invokeHandler es true)
  else withInfo (invokeHandler BufferOverflow true).

End Engine.
End Read1.

(** ** [CharacterWriteSupport<..., 1U>]: the write engine *)

Module Write1.
Section Engine.
Context {P : Platform} {B : Build}.

(** [info_] is the one inline [WriteInfo]. *)
Definition State : Type := Support WriteInfo.

Definition emptyInfo : WriteInfo :=
  {| w_start_ := 0; w_current_ := 0; w_bufSize_ := 0; w_handler_ := None |}.

Definition withInfo {A} (m : M (EventLoop * WriteInfo) A) : M State A :=
  zoom (@elAndPending _ _) (@setElAndPending _ _) m.

Definition setHandler (h : option Handler) (info : WriteInfo) : WriteInfo :=
  {| w_start_ := w_start_ info; w_current_ := w_current_ info;
     w_bufSize_ := w_bufSize_ info; w_handler_ := h |}.

Definition setBuffer (buf size : Z) (info : WriteInfo) : WriteInfo :=
  {| w_start_ := buf; w_current_ := buf; w_bufSize_ := size;
     w_handler_ := w_handler_ info |}.

(** [++info_.current_;] *)
Definition advanceWrite (info : WriteInfo) : WriteInfo :=
  {| w_start_ := w_start_ info; w_current_ := w_current_ info + 1;
     w_bufSize_ := w_bufSize_ info; w_handler_ := w_handler_ info |}.

(** [initWrite(buf, size)]. *)
Definition initWrite (buf size : Z) : M State unit :=
  modify (fun s => setPending (setBuffer buf size (pending s)) s) ;;
  if size =? 0 then
    withInfo (invokeHandler Success false)
  else
    doDevice (dev_startWrite size).

(** [asyncWrite(buf, size, func)]. *)
Definition asyncWrite (buf size : Z) (func : Handler) : M State unit :=
  info <- gets (@pending _ _) ;;
  GASSERT (negb (isSet (w_handler_ info))) ;; (* No write in progress *)
  modify (fun s => setPending (setHandler (Some func) (pending s)) s) ;;
  initWrite buf size.

(** [cancelWrite()]. *)
Definition cancelWrite : M State bool :=
  cancelled <- callDevice dev_cancelWrite ;;
  if negb cancelled then
    info <- gets (@pending _ _) ;;
    GASSERT (negb (isSet (w_handler_ info))) ;;
    ret false
  else
    info <- gets (@pending _ _) ;;
    GASSERT (isSet (w_handler_ info)) ;;
    GASSERT (w_current_ info <? w_start_ info + w_bufSize_ info) ;;
    withInfo (invokeHandler Aborted false) ;;
    ret true.

(** The [while] loop of [canWriteInterruptHandler]; the room left in the
    buffer bounds the number of turns. *)
Fixpoint canWriteLoop (fuel : nat) : M State unit :=
  more <- callDevice dev_canWrite ;;
  if negb more then ret tt
  else
    info <- gets (@pending _ _) ;;
    if w_start_ info + w_bufSize_ info <=? w_current_ info then
      (* The device control object mustn't allow it. *)
      GASSERT false ;;
      ret tt (* break *)
    else
      match fuel with
      | O => outOfFuel
      | S fuel' =>
          mem <- gets (@memory _ _) ;;
          doDevice (dev_write (mem (w_current_ info))) ;;
          modify (setPending (advanceWrite info)) ;;
          canWriteLoop fuel'
      end.

(** [canWriteInterruptHandler()]. *)
Definition canWriteInterruptHandler : M State unit :=
  info <- gets (@pending _ _) ;;
  canWriteLoop (Z.to_nat (w_start_ info + w_bufSize_ info - w_current_ info)).

(** [writeCompleteInterruptHandler(es)]. *)
Definition writeCompleteInterruptHandler (es : ErrorStatus) : M State unit :=
  withInfo (invokeHandler es true).

End Engine.
End Write1.

(** ** Runs of an engine *)

(** What reaches the read half of the driver: the calls of its public
    interface and the two interrupt hooks the constructor installs at
    the device. *)
Inductive ReadEvent {P : Platform} : Type :=
| AsyncRead (buf size : Z) (func : Handler)
| AsyncReadUntil (buf size : Z) (pred : option (CharType -> bool))
    (func : Handler)
| CancelRead
| CanReadInterrupt
| ReadCompleteInterrupt (es : ErrorStatus).

(** The same for the write half. *)
Inductive WriteEvent {P : Platform} : Type :=
| AsyncWrite (buf size : Z) (func : Handler)
| CancelWrite
| CanWriteInterrupt
| WriteCompleteInterrupt (es : ErrorStatus).

Section Runs.
Context {P : Platform} {B : Build}.

Definition stepReadN (e : ReadEvent) : M ReadN.State unit :=
  match e with
  | AsyncRead buf size func => ReadN.asyncRead buf size func
  | AsyncReadUntil buf size pred func =>
      ReadN.asyncReadUntil buf size pred func
  | CancelRead => _ <- ReadN.cancelRead ;; ret tt
  | CanReadInterrupt => ReadN.canReadInterruptHandler
  | ReadCompleteInterrupt es => ReadN.readCompleteInterruptHandler es
  end.

Definition stepRead1 (e : ReadEvent) : M Read1.State unit :=
  match e with
  | AsyncRead buf size func => Read1.asyncRead buf size func
  | AsyncReadUntil buf size pred func =>
      Read1.asyncReadUntil buf size pred func
  | CancelRead => _ <- Read1.cancelRead ;; ret tt
  | CanReadInterrupt => Read1.canReadInterruptHandler
  | ReadCompleteInterrupt es => Read1.readCompleteInterruptHandler es
  end.

Definition stepWrite1 (e : WriteEvent) : M Write1.State unit :=
  match e with
  | AsyncWrite buf size func => Write1.asyncWrite buf size func
  | CancelWrite => _ <- Write1.cancelWrite ;; ret tt
  | CanWriteInterrupt => Write1.canWriteInterruptHandler
  | WriteCompleteInterrupt es => Write1.writeCompleteInterruptHandler es
  end.

(** The events of a list, one after the other. *)
Fixpoint run {S E} (step : E -> M S unit) (events : list E) : M S unit :=
  match events with
  | [] => ret tt
  | e :: rest => step e ;; run step rest
  end.

(** The handler a request is submitted with. *)
Definition submittedRead (e : ReadEvent) : list Handler :=
  match e with
  | AsyncRead _ _ func | AsyncReadUntil _ _ _ func => [func]
  | _ => []
  end.

Definition submittedWrite (e : WriteEvent) : list Handler :=
  match e with
  | AsyncWrite _ _ func => [func]
  | _ => []
  end.

Definition stored {A} (o : option A) : list A :=
  match o with
  | Some a => [a]
  | None => []
  end.

(** The handlers the event loop was handed, oldest first. *)
Definition postedHandlers (el : EventLoop) : list Handler :=
  flat_map (fun p => stored (bound_handler (snd p))) (el_posted el).

(** The handlers the entries of a queue hold, front first. *)
Definition queuedHandlers (q : list ReadInfo) : list Handler :=
  flat_map (fun info => stored (r_handler_ info)) q.

End Runs.

(** ** A concrete device, to run the engines on

    A UART with a receive FIFO and a transmitter, used to evaluate the
    engines on concrete inputs.  Characters are numbers, handlers are
    identified by numbers. *)

Module Sim.

Record Uart : Type := {
  rxFifo : list Z;
    (* characters received and not yet read, oldest first *)
  rxLeft : option nat;
    (* characters the started read still waits for; [None]: none started *)
  rxAny : bool;
    (* [canRead] reports a received character also when no read is
       started (it reads the FIFO status alone) *)
  txRoom : nat;
    (* free places in the transmitter *)
  txLeft : option nat;
    (* characters the started write still waits for *)
  txSent : list Z
    (* characters written, oldest first *)
}.

Definition running (left : option nat) : bool :=
  match left with
  | Some (S _) => true
  | _ => false
  end.

Definition suspend (d : Uart) : bool * Uart := (running (rxLeft d), d).

Definition resume (d : Uart) : Uart := d.

Definition startRead (n : Z) (_ : context) (d : Uart) : Uart :=
  {| rxFifo := rxFifo d; rxLeft := Some (Z.to_nat n); rxAny := rxAny d;
     txRoom := txRoom d; txLeft := txLeft d; txSent := txSent d |}.

(** A cancel succeeds while the started read still waits for
    characters; once all have arrived completion is imminent and the
    cancel fails. *)
Definition cancelRead (_ : context) (d : Uart) : bool * Uart :=
  if running (rxLeft d) then
    (true,
     {| rxFifo := rxFifo d; rxLeft := None; rxAny := rxAny d;
        txRoom := txRoom d; txLeft := txLeft d; txSent := txSent d |})
  else (false, d).

Definition canRead (d : Uart) : bool * Uart :=
  (match rxFifo d with
   | [] => false
   | _ :: _ => running (rxLeft d) || rxAny d
   end, d).

Definition read (d : Uart) : Z * Uart :=
  (hd 0 (rxFifo d),
   {| rxFifo := tl (rxFifo d); rxLeft := option_map Nat.pred (rxLeft d);
      rxAny := rxAny d;
      txRoom := txRoom d; txLeft := txLeft d; txSent := txSent d |}).

Definition startWrite (n : Z) (d : Uart) : Uart :=
  {| rxFifo := rxFifo d; rxLeft := rxLeft d; rxAny := rxAny d;
     txRoom := txRoom d; txLeft := Some (Z.to_nat n); txSent := txSent d |}.

Definition cancelWrite (d : Uart) : bool * Uart :=
  if running (txLeft d) then
    (true,
     {| rxFifo := rxFifo d; rxLeft := rxLeft d; rxAny := rxAny d;
        txRoom := txRoom d; txLeft := None; txSent := txSent d |})
  else (false, d).

Definition canWrite (d : Uart) : bool * Uart :=
  (match txRoom d with
   | O => false
   | S _ => running (txLeft d)
   end, d).

Definition write (ch : Z) (d : Uart) : Uart :=
  {| rxFifo := rxFifo d; rxLeft := rxLeft d; rxAny := rxAny d;
     txRoom := Nat.pred (txRoom d);
     txLeft := option_map Nat.pred (txLeft d);
     txSent := txSent d ++ [ch] |}.

(** The driver over this device: 32-bit [std::size_t], a read queue of
    [capacity] entries, the read-until facility compiled in or not. *)
Definition platform (untilValid : bool) (capacity : nat) : Platform :=
  {| Device := Uart;
     CharType := Z;
     Handler := nat;
     readUntilValid := untilValid;
     TMaxPendingReads := capacity;
     size_t_bits := 32;
     dev_suspend := suspend;
     dev_resume := resume;
     dev_startRead := startRead;
     dev_cancelRead := cancelRead;
     dev_canRead := canRead;
     dev_read := read;
     dev_startWrite := startWrite;
     dev_cancelWrite := cancelWrite;
     dev_canWrite := canWrite;
     dev_write := write |}.

Definition checked : Build := {| assertsEnabled := true |}.
Definition unchecked : Build := {| assertsEnabled := false |}.

(** An idle device: nothing received, room for [room] characters in the
    transmitter. *)
Definition idle (room : nat) : Uart :=
  {| rxFifo := []; rxLeft := None; rxAny := false;
     txRoom := room; txLeft := None; txSent := [] |}.

(** The device with the characters [chars] received. *)
Definition received (chars : list Z) (d : Uart) : Uart :=
  {| rxFifo := rxFifo d ++ chars; rxLeft := rxLeft d; rxAny := rxAny d;
     txRoom := txRoom d; txLeft := txLeft d; txSent := txSent d |}.

(** The device with a read of [n] characters started. *)
Definition reading (n : nat) (d : Uart) : Uart :=
  {| rxFifo := rxFifo d; rxLeft := Some n; rxAny := rxAny d;
     txRoom := txRoom d; txLeft := txLeft d; txSent := txSent d |}.

(** The device with a write of [n] characters started. *)
Definition writing (n : nat) (d : Uart) : Uart :=
  {| rxFifo := rxFifo d; rxLeft := rxLeft d; rxAny := rxAny d;
     txRoom := txRoom d; txLeft := Some n; txSent := txSent d |}.

(** The device whose [canRead] reports the status of the FIFO alone. *)
Definition fifoStatusOnly (d : Uart) : Uart :=
  {| rxFifo := rxFifo d; rxLeft := rxLeft d; rxAny := true;
     txRoom := txRoom d; txLeft := txLeft d; txSent := txSent d |}.

(** How an outcome ended. *)
Inductive Ending : Type :=
| Returned
| FailedAssertion
| UsedMissingElement
| RanOutOfFuel.

Definition ending {S A} (o : Outcome S A) : Ending :=
  match o with
  | Ret _ _ => Returned
  | AssertFailed _ => FailedAssertion
  | Undefined _ => UsedMissingElement
  | OutOfFuel _ => RanOutOfFuel
  end.

(** An event loop with nothing posted and room for [room] callables. *)
Definition emptyLoop {P : Platform} (room : nat) : EventLoop :=
  {| el_posted := []; el_room := room |}.

(** Memory holding [0] everywhere. *)
Definition zeroMemory : Z -> Z := fun _ => 0.

(** The predicate [ch == untilChar] of the overload of
    [Character::asyncReadUntil] that takes a character. *)
Definition untilChar (c : Z) : Z -> bool := fun ch => Z.eqb ch c.

(** What an outcome posted: for each posted callable the context, the
    handler, the status and the size it was bound to. *)
Definition postedOf {P : Platform} {Q A} (o : Outcome (Support Q) A)
  : list (context * (option Handler * ErrorStatus * Z)) :=
  map (fun p => (fst p, (bound_handler (snd p), bound_es (snd p),
                         bound_size (snd p))))
      (el_posted (el_ (finalState o))).

End Sim.

(** ** Concrete inputs

    States and event sequences on the device of [Sim], used to evaluate
    the engines. *)

Module Inputs.
Import Sim.

(** The queued engine with room for three requests, the read-until
    facility compiled in. *)
Definition queued : Platform := platform true 3.

(** A read request of [size] characters at address [buf] of which [done]
    have been read. *)
Definition readInfo (buf size done : Z) (handler : option nat)
    (pred : option (Z -> bool)) : ReadInfo (P:=queued) :=
  @Build_ReadInfo queued buf (buf + done) size handler pred.

(** A handler bound to its two arguments. *)
Definition bound (handler : option nat) (es : ErrorStatus) (size : Z)
  : BoundHandler (P:=queued) :=
  @Build_BoundHandler queued handler es size.

Definition writeInfo (buf size done : Z) (handler : option nat)
  : WriteInfo (P:=queued) :=
  @Build_WriteInfo queued buf (buf + done) size handler.

(** An engine over the device [d] with its pending requests [q], nothing
    posted yet, an event loop with room for eight callables, and memory
    holding [0]. *)
Definition engine {Q} (d : Uart) (q : Q) : Support (P:=queued) Q :=
  @Build_Support queued Q d (emptyLoop 8) zeroMemory q.

(** The same with memory [mem]. *)
Definition engineWith {Q} (mem : Z -> Z) (d : Uart) (q : Q)
  : Support (P:=queued) Q :=
  @Build_Support queued Q d (emptyLoop 8) mem q.

(** Memory holding a line feed (10) at address 101 and [0] elsewhere. *)
Definition lineFeedAt101 : Z -> Z := fun a => if a =? 101 then 10 else 0.

(** A read until line feed into four characters at 100, of which two
    have been read, the second being a line feed; handler 1. *)
Definition readUntilLineFeed : ReadInfo (P:=queued) :=
  readInfo 100 4 2 (Some 1%nat) (Some (untilChar 10)).

(** A read until line feed into two characters at 100, both read, the
    second being a line feed; handler 1. *)
Definition lineFeedLast : ReadInfo (P:=queued) :=
  readInfo 100 2 2 (Some 1%nat) (Some (untilChar 10)).

(** The queued engine serving a read until line feed into four
    characters at 100 (handler 1), with a read of two characters at 200
    (handler 2) queued behind it; a line feed and an ['x'] (120) have
    been received. *)
Definition twoQueued : ReadN.State (P:=queued) :=
  engine (reading 4 (received [10; 120] (idle 4)))
    [readInfo 100 4 0 (Some 1%nat) (Some (untilChar 10));
     readInfo 200 2 0 (Some 2%nat) None].

(** The queued engine serving the same read until line feed alone, and
    only the line feed received. *)
Definition oneQueued : ReadN.State (P:=queued) :=
  engine (reading 4 (received [10] (idle 4)))
    [readInfo 100 4 0 (Some 1%nat) (Some (untilChar 10))].

(** The single-slot engine serving the same read until line feed, over
    a device whose [canRead] reports the status of the FIFO alone. *)
Definition oneSlot : Read1.State (P:=queued) :=
  engine (fifoStatusOnly (reading 4 (received [10; 120] (idle 4))))
    (readInfo 100 4 0 (Some 1%nat) (Some (untilChar 10))).

(** The queued engine with a read of four characters at 100 (handler 1)
    in flight, two of them read, nothing more received. *)
Definition busy : ReadN.State (P:=queued) :=
  engine (reading 2 (idle 4)) [readInfo 100 4 2 (Some 1%nat) None].

(** The queued engine with nothing pending over an idle device. *)
Definition idleQueued : ReadN.State (P:=queued) := engine (idle 4) [].

(** The single-slot read engine and the write engine with nothing
    pending over an idle device. *)
Definition idleSlot : Read1.State (P:=queued) :=
  engine (idle 4) (readInfo 0 0 0 None None).

Definition idleWrite : Write1.State (P:=queued) :=
  engine (idle 4) (writeInfo 0 0 0 None).

(** The single-slot read engine after a read of two characters at 100
    was completed: the cursor at the end of the buffer, the handler
    gone. *)
Definition doneSlot : Read1.State (P:=queued) :=
  engine (idle 4) (readInfo 100 2 2 None None).

(** The queued engine with the buffer of the front request full (two of
    two characters read) over a device that has a further character and
    still waits for three. *)
Definition fullBuffer : ReadN.State (P:=queued) :=
  engine (reading 3 (received [120] (idle 4)))
    [readInfo 100 2 2 (Some 1%nat) None].

(** Scenario 5 of the specification: three reads are submitted, of
    sizes 1, 2 and 0 (the last with a predicate), and the device serves
    the first two. *)
Definition queuedReads : list (ReadEvent (P:=queued)) :=
  [@AsyncRead queued 100 1 1%nat;
   @AsyncRead queued 200 2 2%nat;
   @AsyncReadUntil queued 300 0 (Some (untilChar 10)) 3%nat;
   @CanReadInterrupt queued;
   @ReadCompleteInterrupt queued Success;
   @CanReadInterrupt queued;
   @ReadCompleteInterrupt queued Success].

(** A read of four characters is submitted and two characters arrive; a
    zero-size read is submitted behind it; then reads are cancelled. *)
Definition zeroBehindRead : list (ReadEvent (P:=queued)) :=
  [@AsyncRead queued 100 4 1%nat;
   @CanReadInterrupt queued;
   @AsyncRead queued 300 0 2%nat;
   @CancelRead queued].

(** A read of four characters, then cancelled after two arrived. *)
Definition cancelledRead : list (ReadEvent (P:=queued)) :=
  [@AsyncRead queued 100 4 1%nat; @CanReadInterrupt queued; @CancelRead queued].

(** A write of four characters, cancelled after two were sent. *)
Definition cancelledWrite : list (WriteEvent (P:=queued)) :=
  [@AsyncWrite queued 100 4 1%nat;
   @CanWriteInterrupt queued;
   @CancelWrite queued].


(** The queued engine with three requests: one character at 100
    (handler 1), read; behind it a zero-size read until line feed
    (handler 2) and a read of two characters at 200 (handler 3). *)
Definition zeroSecond : ReadN.State (P:=queued) :=
  engine (idle 4)
    [readInfo 100 1 1 (Some 1%nat) None;
     readInfo 300 0 0 (Some 2%nat) (Some (untilChar 10));
     readInfo 200 2 0 (Some 3%nat) None].


End Inputs.

(** ** Vocabulary of the properties *)

Section Vocabulary.
Context {P : Platform}.

(** The context a callable is posted from. *)
Definition ctxOf (interruptCtx : bool) : context :=
  if interruptCtx then InterruptContext else EventLoopContext.

(** The callable [invokeHandler] binds for [info] and the status [es]. *)
Definition boundOf {I} {HI : Info I} (info : I) (es : ErrorStatus)
  : BoundHandler :=
  {| bound_handler := handler_ info;
     bound_es := es;
     bound_size := to_size_t (current_ info - start_ info) |}.

(** The handler [h] bound to the status [es] and the count [n]: what a
    completion [(es, n)] of the request with handler [h] is posted as. *)
Definition completion (h : Handler) (es : ErrorStatus) (n : Z)
  : BoundHandler :=
  {| bound_handler := Some h; bound_es := es; bound_size := n |}.

(** The event loop after [b] was posted to it from [ctx]. *)
Definition posted (ctx : context) (b : BoundHandler) (el : EventLoop)
  : EventLoop :=
  {| el_posted := el_posted el ++ [(ctx, b)];
     el_room := Nat.pred (el_room el) |}.

(** The status the read-complete hook reports for the front request
    [info], given the status [es] of the device and the memory. *)
Definition readCompleteStatus (es : ErrorStatus) (mem : Memory)
    (info : ReadInfo) : ErrorStatus :=
  if isError es || negb (seekedCharFound (mem (r_current_ info - 1)) info)
  then es
  else BufferOverflow.

(** The state of an engine once the character [ch] was read from the
    device (leaving it in state [d]), stored at the cursor of [info] and
    the cursor advanced; [q] is the pending store with the advanced
    request in it. *)
Definition afterRead {Q} (s : Support Q) (info : ReadInfo) (ch : CharType)
    (d : Device) (q : Q) : Support Q :=
  setPending q (setMemory (store (r_current_ info) ch (memory s))
                  (setDevice d s)).

(** What [cancelRead] posts for the pending request [info]: its handler
    bound to [Aborted] and to the number of characters transferred. *)
Definition abortedOf (info : ReadInfo) : context * BoundHandler :=
  (EventLoopContext,
   {| bound_handler := r_handler_ info;
      bound_es := Aborted;
      bound_size := r_current_ info - r_start_ info |}).

(** The event loop after the callables [l] were posted to it. *)
Definition postedAll (l : list (context * BoundHandler)) (el : EventLoop)
  : EventLoop :=
  {| el_posted := el_posted el ++ l;
     el_room := (el_room el - length l)%nat |}.

(** A pending read [cancelRead] can abort without tripping an assertion:
    its handler is stored and its cursor is within the buffer and short
    of its end. *)
Definition abortable (info : ReadInfo) : Prop :=
  r_handler_ info <> None /\
  r_start_ info <= r_current_ info < r_start_ info + r_bufSize_ info /\
  r_current_ info - r_start_ info < 2 ^ size_t_bits.

Definition abortableW (info : WriteInfo) : Prop :=
  w_handler_ info <> None /\
  w_start_ info <= w_current_ info < w_start_ info + w_bufSize_ info /\
  w_current_ info - w_start_ info < 2 ^ size_t_bits.



(** The outcome is the one that stands for an exhausted loop bound. *)
Definition isOutOfFuel {S A} (o : Outcome S A) : bool :=
  match o with
  | OutOfFuel _ => true
  | _ => false
  end.

(** The outcome is the one that stands for undefined behaviour. *)
Definition isUndefined {S A} (o : Outcome S A) : bool :=
  match o with
  | Undefined _ => true
  | _ => false
  end.

(** Memory [m] is [m0] everywhere outside the addresses [lo <= a < hi]. *)
Definition sameOutside (lo hi : Z) (m0 m : Memory) : Prop :=
  forall a, ~ (lo <= a < hi) -> m a = m0 a.

(** The invariant of the read hooks: the pending requests are [good] and
    memory outside [lo, hi) is as in [m0]. *)
Definition kept {Q} (good : Q -> Prop) (lo hi : Z) (m0 : Memory)
    (s : Support Q) : Prop :=
  good (pending s) /\ sameOutside lo hi m0 (memory s).

(** The size of a submitted request is a [std::size_t], hence not
    negative. *)
Definition sizeIsNatural (e : ReadEvent) : Prop :=
  match e with
  | AsyncRead _ size _ | AsyncReadUntil _ size _ _ => 0 <= size
  | _ => True
  end.

Definition sizeIsNaturalW (e : WriteEvent) : Prop :=
  match e with
  | AsyncWrite _ size _ => 0 <= size
  | _ => True
  end.

(** The handlers an engine is responsible for, in the order it received
    them: those it posted, then those it still holds. *)
Definition handlersN (s : ReadN.State) : list Handler :=
  postedHandlers (el_ s) ++ queuedHandlers (pending s).

Definition handlers1 (s : Read1.State) : list Handler :=
  postedHandlers (el_ s) ++ stored (r_handler_ (pending s)).

Definition handlersW (s : Write1.State) : list Handler :=
  postedHandlers (el_ s) ++ stored (w_handler_ (pending s)).

(** The cursor of a request is within its buffer. *)
Definition cursorBounded (info : ReadInfo) : Prop :=
  r_start_ info <= r_current_ info <= r_start_ info + r_bufSize_ info.

Definition cursorBoundedW (info : WriteInfo) : Prop :=
  w_start_ info <= w_current_ info <= w_start_ info + w_bufSize_ info.

(** A read request that seeks no character: the read-until facility is
    compiled out, or the request holds a null predicate. *)
Definition noPredicate (info : ReadInfo) : Prop :=
  readUntilValid = false \/ r_readUntilPred_ info = None.

(** [info'] is the request [info] with its cursor moved forward, and
    nothing else changed. *)
Definition cursorMoved (info info' : ReadInfo) : Prop :=
  r_start_ info' = r_start_ info /\
  r_bufSize_ info' = r_bufSize_ info /\
  r_handler_ info' = r_handler_ info /\
  r_readUntilPred_ info' = r_readUntilPred_ info /\
  r_current_ info <= r_current_ info'.

(** The request block of the single-slot engines once a zero-size
    request at [buf] has completed. *)
Definition doneRead (buf : Z) (pred : option (CharType -> bool)) : ReadInfo :=
  {| r_start_ := buf; r_current_ := buf; r_bufSize_ := 0;
     r_handler_ := None; r_readUntilPred_ := pred |}.

Definition doneWrite (buf : Z) : WriteInfo :=
  {| w_start_ := buf; w_current_ := buf; w_bufSize_ := 0;
     w_handler_ := None |}.


(** [preserves Inv m]: when [Inv] holds of the state [m] starts in, it
    holds of the state [m] ends in, however [m] ends. *)
Definition preserves {S A} (Inv : S -> Prop) (m : M S A) : Prop :=
  forall s, Inv s -> Inv (finalState (m s)).

(** The invariant of the read hooks for the two read engines. *)
Definition keptN (lo hi : Z) (m0 : Memory) : ReadN.State -> Prop :=
  kept (Forall cursorBounded) lo hi m0.

Definition kept1 (lo hi : Z) (m0 : Memory) : Read1.State -> Prop :=
  kept cursorBounded lo hi m0.

(** Every pending request of an engine has its cursor within its
    buffer. *)
Definition boundedN (s : ReadN.State) : Prop :=
  Forall cursorBounded (pending s).

Definition bounded1 (s : Read1.State) : Prop := cursorBounded (pending s).

Definition boundedW (s : Write1.State) : Prop := cursorBoundedW (pending s).

(** [ends m]: the loops of [m] finish within their bounds, whatever the
    state [m] starts in. *)
Definition ends {S A} (m : M S A) : Prop :=
  forall s, isOutOfFuel (m s) = false.

(** [transfers m1 m2]: whenever [m1] returns, [m2] returns the same
    value in the same state. *)
Definition transfers {S A} (m1 m2 : M S A) : Prop :=
  forall s a s', m1 s = Ret a s' -> m2 s = Ret a s'.

End Vocabulary.

(** ** The calls a driver makes on its device *)

(** [Recorded.platform P] is the platform [P] with a device that passes
    every call on to the device of [P] and keeps the calls made, oldest
    first, each with its arguments and its result.  The driver being
    generic in its device, what it does over this device shows which
    member functions of a device it calls, in which order and with
    which arguments. *)
Module Recorded.
Section Recorder.
Context (P : Platform).

Inductive Call : Type :=
| Suspend (running : bool)
| Resume
| StartRead (length : Z) (ctx : context)
| CancelRead (ctx : context) (cancelled : bool)
| CanRead (more : bool)
| Read (ch : CharType)
| StartWrite (length : Z)
| CancelWrite (cancelled : bool)
| CanWrite (more : bool)
| Write (ch : CharType).

Definition Recorder : Type := (Device * list Call)%type.

(** A member function that returns a value, and one that returns none. *)
Definition returning {A} (f : Device -> A * Device) (call : A -> Call)
    (d : Recorder) : A * Recorder :=
  let (a, d') := f (fst d) in (a, (d', snd d ++ [call a])).

Definition plain (f : Device -> Device) (call : Call) (d : Recorder)
  : Recorder :=
  (f (fst d), snd d ++ [call]).

Definition platform : Platform :=
  {| Device := Recorder;
     CharType := CharType;
     Handler := Handler;
     readUntilValid := readUntilValid;
     TMaxPendingReads := TMaxPendingReads;
     size_t_bits := size_t_bits;
     dev_suspend := returning dev_suspend Suspend;
     dev_resume := plain dev_resume Resume;
     dev_startRead :=
       fun n ctx => plain (dev_startRead n ctx) (StartRead n ctx);
     dev_cancelRead :=
       fun ctx => returning (dev_cancelRead ctx) (CancelRead ctx);
     dev_canRead := returning dev_canRead CanRead;
     dev_read := returning dev_read Read;
     dev_startWrite := fun n => plain (dev_startWrite n) (StartWrite n);
     dev_cancelWrite := returning dev_cancelWrite CancelWrite;
     dev_canWrite := returning dev_canWrite CanWrite;
     dev_write := fun ch => plain (dev_write ch) (Write ch) |}.

(** The calls an engine has made on its device so far. *)
Definition calls {Q} (s : Support (P:=platform) Q) : list Call :=
  snd (device_ s).

(** What the documentation of [TDevice] requires of its caller: [read]
    is called only when the call before it was a [canRead] that returned
    [true], [write] only when it was a [canWrite] that returned [true];
    and what the driver adds: no transfer of length zero is started. *)
Definition allowedAfter (before : option Call) (c : Call) : bool :=
  match c with
  | Read _ =>
      match before with
      | Some (CanRead true) => true
      | _ => false
      end
  | Write _ =>
      match before with
      | Some (CanWrite true) => true
      | _ => false
      end
  | StartRead n _ => negb (n =? 0)
  | StartWrite n => negb (n =? 0)
  | _ => true
  end.

Fixpoint orderlyFrom (before : option Call) (l : list Call) : bool :=
  match l with
  | [] => true
  | c :: rest => allowedAfter before c && orderlyFrom (Some c) rest
  end.

Definition orderly (l : list Call) : bool := orderlyFrom None l.

(** The last call of a list, if any. *)
Definition lastCall (l : list Call) : option Call :=
  match rev l with
  | [] => None
  | c :: _ => Some c
  end.

(** The characters read from the device since the last read was
    started, and those written to it since the last write was started,
    oldest first. *)
Definition readStep (acc : list CharType) (c : Call) : list CharType :=
  match c with
  | StartRead _ _ => []
  | Read ch => acc ++ [ch]
  | _ => acc
  end.

Definition readSinceStart (l : list Call) : list CharType :=
  fold_left readStep l [].

Definition writeStep (acc : list CharType) (c : Call) : list CharType :=
  match c with
  | StartWrite _ => []
  | Write ch => acc ++ [ch]
  | _ => acc
  end.

Definition writtenSinceStart (l : list Call) : list CharType :=
  fold_left writeStep l [].

(** The context a call names, for the member functions the driver calls
    from both contexts. *)
Definition callContext (c : Call) : option context :=
  match c with
  | StartRead _ ctx | CancelRead ctx _ => Some ctx
  | _ => None
  end.

(** What an engine did between the states [s0] and [s] when all of it
    was done from the context [ctx]: the calls it added to those made
    before are made in an order the device allows, those that name a
    context name [ctx], and what it posted to the event loop it posted
    from [ctx]. *)
Definition during (ctx : context) {Q} (s0 s : Support (P:=platform) Q)
  : Prop :=
  exists l p,
    calls s = calls s0 ++ l /\
    el_posted (el_ s) = el_posted (el_ s0) ++ p /\
    (orderly (calls s0) = true -> orderly (calls s) = true) /\
    Forall (fun c => callContext c = None \/ callContext c = Some ctx) l /\
    Forall (fun x => fst x = ctx) p.

End Recorder.
End Recorded.

(** The context an event reaches the driver in: the public functions
    are called from the event loop, the hooks by the device from its
    interrupt handlers. *)
Definition eventContext {P : Platform} (e : ReadEvent) : context :=
  match e with
  | CanReadInterrupt | ReadCompleteInterrupt _ => InterruptContext
  | _ => EventLoopContext
  end.

Definition eventContextW {P : Platform} (e : WriteEvent) : context :=
  match e with
  | CanWriteInterrupt | WriteCompleteInterrupt _ => InterruptContext
  | _ => EventLoopContext
  end.

(** The [n] characters that memory holds from the address [from] on. *)
Definition contents {P : Platform} (mem : Memory) (from : Z) (n : nat)
  : list CharType :=
  map (fun i => mem (from + Z.of_nat i)) (seq 0 n).

(** What the device was handed of the buffer of a write: the cursor is
    within the buffer and, for a write that was started at the device,
    the characters written to the device since then are those the
    buffer holds from its start up to the cursor, in that order. *)
Definition bufferSent (U : Platform)
    (s : Write1.State (P:=Recorded.platform U)) : Prop :=
  cursorBoundedW (pending s) /\
  (w_bufSize_ (pending s) <> 0 ->
   contents (memory s) (w_start_ (pending s))
     (Z.to_nat (w_current_ (pending s) - w_start_ (pending s))) =
   Recorded.writtenSinceStart (Recorded.calls s)).

(** What the buffer of a read holds: the cursor is within the buffer
    and, for a read that was started at the device, the buffer holds
    from its start up to the cursor the characters read from the device
    since then, in the order they were read. *)
Definition bufferFilled (U : Platform)
    (s : Read1.State (P:=Recorded.platform U)) : Prop :=
  cursorBounded (pending s) /\
  (r_bufSize_ (pending s) <> 0 ->
   contents (memory s) (r_start_ (pending s))
     (Z.to_nat (r_current_ (pending s) - r_start_ (pending s))) =
   Recorded.readSinceStart (Recorded.calls s)).

(** A queued read that has received nothing yet. *)
Definition untouched {P : Platform} (info : ReadInfo) : Prop :=
  r_current_ info = r_start_ info /\ 0 <= r_bufSize_ info.

(** [bufferFilled] for the queued engine: it holds of the request at
    the front, and the requests behind it are untouched. *)
Definition queueFilled (U : Platform)
    (s : ReadN.State (P:=Recorded.platform U)) : Prop :=
  match pending s with
  | [] => True
  | info :: rest =>
      cursorBounded info /\
      (r_bufSize_ info <> 0 ->
       contents (memory s) (r_start_ info)
         (Z.to_nat (r_current_ info - r_start_ info)) =
       Recorded.readSinceStart (Recorded.calls s)) /\
      Forall untouched rest
  end.

(** The device answers [suspend] the way [asyncReadUntil] relies on:
    it reports a read in progress exactly when the engine has requests
    pending.  Only the calls that submit a request ask. *)
Definition suspendTellsPending {P : Platform} (e : ReadEvent)
    (s : ReadN.State) : Prop :=
  match e with
  | AsyncRead _ _ _ | AsyncReadUntil _ _ _ _ =>
      fst (dev_suspend (device_ s)) = negb (ReadN.empty (pending s))
  | _ => True
  end.

(** [suspendTellsPending] at each operation of a sequence, in the state
    the engine is in when the operation begins. *)
Fixpoint suspendTellsPendingAlong {P : Platform} {B : Build}
    (events : list ReadEvent) (s : ReadN.State) : Prop :=
  match events with
  | [] => True
  | e :: rest =>
      suspendTellsPending e s /\
      suspendTellsPendingAlong rest (finalState (stepReadN e s))
  end.

(** Inputs over the recording device: the platform of [Inputs] with
    its calls recorded. *)
Module Observed.

Definition queued : Platform := Recorded.platform Inputs.queued.

(** An engine over the device [d], no call made on it yet, with memory
    [mem] and the pending requests [q]; nothing posted, an event loop
    with room for eight callables. *)
Definition engine {Q} (d : Sim.Uart) (mem : Z -> Z) (q : Q)
  : Support (P:=queued) Q :=
  @Build_Support queued Q (d, []) (Sim.emptyLoop 8) mem q.

(** Memory that holds at each address the number of the address. *)
Definition numbered : Z -> Z := fun a => a.

(** The single slot of a read engine and of the write engine as
    constructed. *)
Definition noRead : ReadInfo (P:=queued) :=
  @Build_ReadInfo queued 0 0 0 None None.

Definition noWrite : WriteInfo (P:=queued) :=
  @Build_WriteInfo queued 0 0 0 None.

(** Scenario 5 of the specification (see [Inputs.queuedReads]). *)
Definition queuedReads : list (ReadEvent (P:=queued)) :=
  [@AsyncRead queued 100 1 1%nat;
   @AsyncRead queued 200 2 2%nat;
   @AsyncReadUntil queued 300 0 (Some (Sim.untilChar 10)) 3%nat;
   @CanReadInterrupt queued;
   @ReadCompleteInterrupt queued Success;
   @CanReadInterrupt queued;
   @ReadCompleteInterrupt queued Success].

(** The same up to the second can-read interrupt: the first request
    is complete and the second, two characters at 200, is served. *)
Definition queuedReadsServed : list (ReadEvent (P:=queued)) :=
  firstn 6 queuedReads.

(** A read of three characters at 100 that the device serves. *)
Definition slotRead : list (ReadEvent (P:=queued)) :=
  [@AsyncRead queued 100 3 1%nat;
   @CanReadInterrupt queued;
   @ReadCompleteInterrupt queued Success].

(** A write of four characters at 100, of which the device takes three
    before the write is cancelled. *)
Definition cancelledWrite : list (WriteEvent (P:=queued)) :=
  [@AsyncWrite queued 100 4 1%nat;
   @CanWriteInterrupt queued;
   @CancelWrite queued].

End Observed.

(** A zero-size read waiting in the queue, and the completion
    [startNextRead] posts for it. *)
Definition waitingZero {P : Platform} (info : ReadInfo) : Prop :=
  r_bufSize_ info = 0 /\
  r_current_ info = r_start_ info /\
  r_handler_ info <> None.

Definition zeroSizeDone {P : Platform} (interruptCtx : bool)
    (info : ReadInfo) : context * BoundHandler :=
  (ctxOf interruptCtx,
   {| bound_handler := r_handler_ info;
      bound_es := zeroSizeCode info;
      bound_size := 0 |}).

(** * Properties *)

(** ** Reasoning about the monad *)

Lemma bind_Ret_inv {S A B} (m : M S A) (k : A -> M S B) s b s'' :
  bind m k s = Ret b s'' ->
  exists a s', m s = Ret a s' /\ k a s' = Ret b s''.
Proof.
  unfold bind. destruct (m s) as [a s'| | |]; try discriminate.
  intros H. exists a, s'. split; [reflexivity | exact H].
Qed.

Lemma bind_Ret {S A B} (m : M S A) (k : A -> M S B) s a s' :
  m s = Ret a s' -> bind m k s = k a s'.
Proof. intros H. unfold bind. rewrite H. reflexivity. Qed.

Lemma zoom_Ret_inv {S T A} (get : S -> T) (set : T -> S -> S) (m : M T A)
    s a s' :
  zoom get set m s = Ret a s' ->
  exists t, m (get s) = Ret a t /\ s' = set t s.
Proof.
  unfold zoom. destruct (m (get s)) as [a' t| | |]; try discriminate.
  intros H. inversion H. subst. exists t. split; reflexivity.
Qed.

Lemma GASSERT_checked {B : Build} {S} (cond : bool) (s : S) u s' :
  assertsEnabled = true ->
  GASSERT cond s = Ret u s' -> cond = true /\ s' = s.
Proof.
  unfold GASSERT. intros ->. destruct cond; simpl; intros H.
  - inversion H. split; reflexivity.
  - discriminate.
Qed.

Lemma GASSERT_true {B : Build} {S} (s : S) : GASSERT true s = Ret tt s.
Proof. unfold GASSERT. rewrite andb_false_r. reflexivity. Qed.

Lemma GASSERT_unchecked {B : Build} {S} (cond : bool) (s : S) :
  assertsEnabled = false -> GASSERT cond s = Ret tt s.
Proof. unfold GASSERT. intros ->. reflexivity. Qed.

Lemma GASSERT_state {B : Build} {S} (cond : bool) (s : S) :
  finalState (GASSERT (S:=S) cond s) = s.
Proof. unfold GASSERT. destruct (assertsEnabled && negb cond); reflexivity. Qed.

(** ** The condition of the read-complete hooks *)

Section StatusStands.
Context {P : Platform}.

(** The condition changes nothing. *)
Lemma statusStands_Ret_inv {Q} es info (s : Support Q) b s' :
  statusStands es info s = Ret b s' -> s' = s.
Proof.
  unfold statusStands. destruct (isError es).
  - intros H. inversion H. reflexivity.
  - destruct (lastCharInBuffer info); [|discriminate].
    intros H. inversion H. reflexivity.
Qed.

Lemma statusStands_state {Q} es info (s : Support Q) :
  finalState (statusStands es info s) = s.
Proof.
  unfold statusStands.
  destruct (isError es); [reflexivity|].
  destruct (lastCharInBuffer info); reflexivity.
Qed.

(** Its value where the load, if made, is within the buffer. *)
Lemma statusStands_defined {Q} es info (s : Support Q) :
  isError es = true \/ lastCharInBuffer info = true ->
  statusStands es info s =
  Ret (isError es ||
       negb (seekedCharFound (memory s (r_current_ info - 1)) info)) s.
Proof.
  unfold statusStands. intros [He | Hin].
  - rewrite He. reflexivity.
  - rewrite Hin. destruct (isError es); reflexivity.
Qed.

Lemma lastCharInBuffer_true info :
  r_start_ info < r_current_ info <= r_start_ info + r_bufSize_ info ->
  lastCharInBuffer info = true.
Proof.
  intros [Hlo Hhi]. unfold lastCharInBuffer.
  apply andb_true_intro. split; [apply Z.ltb_lt | apply Z.leb_le];
    assumption.
Qed.

(** A status without error with no character before the cursor. *)
Lemma statusStands_undefined {Q} es info (s : Support Q) :
  isError es = false ->
  lastCharInBuffer info = false ->
  statusStands es info s = Undefined s.
Proof. unfold statusStands. intros -> ->. reflexivity. Qed.

End StatusStands.

(** ** The dispatch primitive *)

Section Dispatch.
Context {P : Platform} {B : Build}.
Context {I : Type} {HI : Info I}.

(** [invokeHandler] in closed form. *)
Lemma invokeHandler_unfold es interruptCtx (el : EventLoop) (info : I) :
  invokeHandler es interruptCtx (el, info) =
  if assertsEnabled && negb (isSet (handler_ info))
  then AssertFailed (el, info)
  else
    let (r, el') := enqueue (ctxOf interruptCtx) (boundOf info es) el in
    if assertsEnabled && negb r
    then AssertFailed (el', moveHandler info)
    else Ret tt (el', moveHandler info).
Proof.
  unfold invokeHandler, bind, gets, modify, GASSERT, post, postInterruptCtx,
    boundOf, ctxOf. simpl.
  destruct (assertsEnabled && negb (isSet (handler_ info))); [reflexivity|].
  destruct interruptCtx; simpl;
    match goal with
    | |- context [enqueue ?c ?b el] => destruct (enqueue c b el) as [r el']
    end;
    simpl; destruct (assertsEnabled && negb r); try reflexivity;
    cbn [snd]; rewrite handler_moveHandler; simpl; rewrite andb_false_r;
    reflexivity.
Qed.

Lemma invokeHandler_ok es interruptCtx (el : EventLoop) (info : I) h room :
  handler_ info = Some h ->
  el_room el = S room ->
  invokeHandler es interruptCtx (el, info) =
  Ret tt ({| el_posted :=
               el_posted el ++ [(ctxOf interruptCtx, boundOf info es)];
             el_room := room |},
          moveHandler info).
Proof.
  intros Hh Hroom. rewrite invokeHandler_unfold. rewrite Hh. simpl.
  rewrite andb_false_r. unfold enqueue. rewrite Hroom.
  rewrite andb_false_r. reflexivity.
Qed.

Lemma to_size_t_small z : 0 <= z < 2 ^ size_t_bits -> to_size_t z = z.
Proof. intros H. unfold to_size_t. apply Z.mod_small. exact H. Qed.

End Dispatch.

(** ** Handlers are conserved

    In a build that checks its assertions, a call that returns has moved
    every handler it took out of a slot into the event loop, and has
    added the handler it was given, if any, behind all others. *)

(** Splits the hypotheses [m s = Ret a s'] along the structure of [m]. *)
Ltac invStep :=
  match goal with
  | H : bind _ _ _ = Ret _ _ |- _ =>
      apply bind_Ret_inv in H; destruct H as (? & ? & ? & H); cbv beta in H
  | H : gets _ _ = Ret _ _ |- _ => unfold gets in H; inversion H; subst; clear H
  | H : modify _ _ = Ret _ _ |- _ =>
      unfold modify in H; inversion H; subst; clear H
  | H : ret _ _ = Ret _ _ |- _ => unfold ret in H; inversion H; subst; clear H
  | H : doDevice _ _ = Ret _ _ |- _ =>
      unfold doDevice, modify in H; inversion H; subst; clear H
  | H : callDevice ?f ?s = Ret _ _ |- _ =>
      unfold callDevice in H; destruct (f (device_ s)) eqn:?;
      inversion H; subst; clear H
  | H : GASSERT _ _ = Ret _ _ |- _ =>
      apply GASSERT_checked in H; [destruct H as [? ?]; subst | assumption]
  | H : statusStands _ _ _ = Ret _ _ |- _ =>
      apply statusStands_Ret_inv in H; subst
  | H : undefined _ = Ret _ _ |- _ => discriminate H
  | H : outOfFuel _ = Ret _ _ |- _ => discriminate H
  | H : (if ?c then _ else _) _ = Ret _ _ |- _ => destruct c eqn:?
  | H : (match ?q with [] => _ | _ :: _ => _ end) _ = Ret _ _ |- _ =>
      destruct q eqn:?
  end.

Ltac invAll := repeat invStep.

Ltac emptySlot :=
  match goal with
  | H : negb (isSet ?o) = true |- _ =>
      destruct o; [discriminate H|]
  end.

Section Conservation.
Context {P : Platform} {B : Build}.
Hypothesis checked : assertsEnabled = true.

Lemma postedHandlers_app el l room :
  postedHandlers {| el_posted := el_posted el ++ l; el_room := room |} =
  postedHandlers el ++ flat_map (fun p => stored (bound_handler (snd p))) l.
Proof. unfold postedHandlers. simpl. apply flat_map_app. Qed.

Lemma invokeHandler_Ret_checked {I} {HI : Info I} es c (el : EventLoop)
    (info : I) u t :
  invokeHandler es c (el, info) = Ret u t ->
  exists h room,
    handler_ info = Some h /\ el_room el = S room /\
    t = ({| el_posted := el_posted el ++ [(ctxOf c, boundOf info es)];
            el_room := room |}, moveHandler info).
Proof.
  rewrite invokeHandler_unfold, checked. simpl.
  destruct (handler_ info) as [h|] eqn:Hh; simpl; [|discriminate].
  unfold enqueue. destruct (el_room el) as [|room] eqn:Hroom; simpl;
    [discriminate|].
  intros Heq. inversion Heq. exists h, room. repeat split.
Qed.

Lemma invokeHandler_conserves {I} {HI : Info I} es c (el : EventLoop)
    (info : I) u t :
  invokeHandler es c (el, info) = Ret u t ->
  postedHandlers (fst t) = postedHandlers el ++ stored (handler_ info) /\
  handler_ (snd t) = None.
Proof.
  intros Hr. apply invokeHandler_Ret_checked in Hr.
  destruct Hr as (h & room & Hh & Hroom & ->). simpl. split.
  - rewrite postedHandlers_app. simpl. rewrite Hh, app_nil_r. reflexivity.
  - apply handler_moveHandler.
Qed.


(** *** The single-slot read engine *)

Lemma withInfo1_conserves es c (s : Read1.State) u s' :
  Read1.withInfo (invokeHandler es c) s = Ret u s' ->
  handlers1 s' = handlers1 s /\ r_handler_ (pending s') = None.
Proof.
  intros Hr. apply zoom_Ret_inv in Hr. destruct Hr as (t & Hr & ->).
  apply invokeHandler_conserves in Hr. destruct Hr as [Hp Hn].
  unfold handlers1. simpl. simpl in Hn. rewrite Hp, Hn. simpl.
  rewrite app_nil_r. split; reflexivity.
Qed.

Ltac useInvoke1 :=
  match goal with
  | H : Read1.withInfo (invokeHandler _ _) _ = Ret _ _ |- _ =>
      apply withInfo1_conserves in H; destruct H as [H _]; rewrite H
  end.

Lemma initRead_conserves buf size (s : Read1.State) u s' :
  Read1.initRead buf size s = Ret u s' -> handlers1 s' = handlers1 s.
Proof.
  unfold Read1.initRead. intros Hr. invAll; try useInvoke1; reflexivity.
Qed.

Lemma asyncReadUntil1_conserves buf size pred func (s : Read1.State) u s' :
  Read1.asyncReadUntil buf size pred func s = Ret u s' ->
  handlers1 s' = handlers1 s ++ [func].
Proof.
  unfold Read1.asyncReadUntil. intros Hr. invAll.
  apply initRead_conserves in Hr. rewrite Hr. unfold handlers1. simpl.
  emptySlot. simpl. rewrite app_nil_r. reflexivity.
Qed.

Lemma asyncRead1_conserves buf size func (s : Read1.State) u s' :
  Read1.asyncRead buf size func s = Ret u s' ->
  handlers1 s' = handlers1 s ++ [func].
Proof.
  unfold Read1.asyncRead. intros Hr. invAll.
  apply initRead_conserves in Hr. rewrite Hr. unfold handlers1. simpl.
  emptySlot. simpl. rewrite app_nil_r. reflexivity.
Qed.

Lemma cancelRead1_conserves (s : Read1.State) r s' :
  Read1.cancelRead s = Ret r s' -> handlers1 s' = handlers1 s.
Proof.
  unfold Read1.cancelRead. intros Hr. invAll; try useInvoke1; reflexivity.
Qed.

Lemma canReadLoop1_conserves fuel (s : Read1.State) u s' :
  Read1.canReadLoop fuel s = Ret u s' -> handlers1 s' = handlers1 s.
Proof.
  revert s u s'. induction fuel as [|fuel IH]; intros s u s' Hr;
    simpl in Hr; invAll; try reflexivity.
  all: apply IH in Hr; rewrite Hr; try useInvoke1; reflexivity.
Qed.

Lemma readComplete1_conserves es (s : Read1.State) u s' :
  Read1.readCompleteInterruptHandler es s = Ret u s' ->
  handlers1 s' = handlers1 s.
Proof.
  unfold Read1.readCompleteInterruptHandler. intros Hr.
  invAll; useInvoke1; reflexivity.
Qed.

Lemma stepRead1_conserves e (s : Read1.State) u s' :
  stepRead1 e s = Ret u s' -> handlers1 s' = handlers1 s ++ submittedRead e.
Proof.
  destruct e; simpl; intros Hr.
  - eapply asyncRead1_conserves; eassumption.
  - eapply asyncReadUntil1_conserves; eassumption.
  - invAll. rewrite app_nil_r. eapply cancelRead1_conserves; eassumption.
  - rewrite app_nil_r. unfold Read1.canReadInterruptHandler in Hr. invAll.
    eapply canReadLoop1_conserves; eassumption.
  - rewrite app_nil_r. eapply readComplete1_conserves; eassumption.
Qed.


(** *** The write engine *)

Lemma withInfoW_conserves es c (s : Write1.State) u s' :
  Write1.withInfo (invokeHandler es c) s = Ret u s' ->
  handlersW s' = handlersW s /\ w_handler_ (pending s') = None.
Proof.
  intros Hr. apply zoom_Ret_inv in Hr. destruct Hr as (t & Hr & ->).
  apply invokeHandler_conserves in Hr. destruct Hr as [Hp Hn].
  unfold handlersW. simpl. simpl in Hn. rewrite Hp, Hn. simpl.
  rewrite app_nil_r. split; reflexivity.
Qed.

Ltac useInvokeW :=
  match goal with
  | H : Write1.withInfo (invokeHandler _ _) _ = Ret _ _ |- _ =>
      apply withInfoW_conserves in H; destruct H as [H _]; rewrite H
  end.

Lemma initWrite_conserves buf size (s : Write1.State) u s' :
  Write1.initWrite buf size s = Ret u s' -> handlersW s' = handlersW s.
Proof.
  unfold Write1.initWrite. intros Hr. invAll; try useInvokeW; reflexivity.
Qed.

Lemma asyncWrite_conserves buf size func (s : Write1.State) u s' :
  Write1.asyncWrite buf size func s = Ret u s' ->
  handlersW s' = handlersW s ++ [func].
Proof.
  unfold Write1.asyncWrite. intros Hr. invAll.
  apply initWrite_conserves in Hr. rewrite Hr. unfold handlersW. simpl.
  emptySlot. simpl. rewrite app_nil_r. reflexivity.
Qed.

Lemma cancelWrite_conserves (s : Write1.State) r s' :
  Write1.cancelWrite s = Ret r s' -> handlersW s' = handlersW s.
Proof.
  unfold Write1.cancelWrite. intros Hr. invAll; try useInvokeW; reflexivity.
Qed.

Lemma canWriteLoop_conserves fuel (s : Write1.State) u s' :
  Write1.canWriteLoop fuel s = Ret u s' -> handlersW s' = handlersW s.
Proof.
  revert s u s'. induction fuel as [|fuel IH]; intros s u s' Hr;
    simpl in Hr; invAll; try reflexivity.
  apply IH in Hr. rewrite Hr. reflexivity.
Qed.

Lemma stepWrite1_conserves e (s : Write1.State) u s' :
  stepWrite1 e s = Ret u s' -> handlersW s' = handlersW s ++ submittedWrite e.
Proof.
  destruct e; simpl; intros Hr.
  - eapply asyncWrite_conserves; eassumption.
  - invAll. rewrite app_nil_r. eapply cancelWrite_conserves; eassumption.
  - rewrite app_nil_r. unfold Write1.canWriteInterruptHandler in Hr. invAll.
    eapply canWriteLoop_conserves; eassumption.
  - rewrite app_nil_r. unfold Write1.writeCompleteInterruptHandler in Hr.
    useInvokeW. reflexivity.
Qed.

(** *** The queued read engine *)

Lemma withFront_Ret_inv {A} (m : M (EventLoop * ReadInfo) A)
    (s : ReadN.State) a s' :
  ReadN.withFront m s = Ret a s' ->
  exists info rest t,
    pending s = info :: rest /\ m (el_ s, info) = Ret a t /\
    s' = setPending (snd t :: rest) (setEl (fst t) s).
Proof.
  unfold ReadN.withFront. destruct (pending s) as [|info rest];
    [discriminate|].
  intros Hr. apply zoom_Ret_inv in Hr. destruct Hr as (t & Hr & ->).
  exists info, rest, t. repeat split. exact Hr.
Qed.

(** Completing the front request and popping it. *)
Lemma finishFront_conserves es c (s : ReadN.State) u s1 u' s2 :
  ReadN.withFront (invokeHandler es c) s = Ret u s1 ->
  ReadN.popFront s1 = Ret u' s2 ->
  handlersN s2 = handlersN s /\
  exists info, pending s = info :: pending s2.
Proof.
  intros Hr Hp. apply withFront_Ret_inv in Hr.
  destruct Hr as (info & rest & t & Hq & Hr & ->).
  apply invokeHandler_conserves in Hr. destruct Hr as [Hposted Hn].
  unfold ReadN.popFront in Hp. simpl in Hp. inversion Hp. subst s2.
  unfold handlersN. simpl. rewrite Hposted, Hq. simpl.
  split; [rewrite <- app_assoc; reflexivity | exists info; reflexivity].
Qed.

Lemma startNextReadLoop_nil fuel c (s : ReadN.State) :
  pending s = [] -> ReadN.startNextReadLoop fuel c s = Ret tt s.
Proof.
  intros Hq. destruct fuel; simpl; unfold bind, gets; rewrite Hq;
    reflexivity.
Qed.

Lemma startNextReadLoop_cons fuel c (s : ReadN.State) info rest :
  pending s = info :: rest ->
  ReadN.startNextReadLoop fuel c s =
  (if r_bufSize_ info =? 0 then
     match fuel with
     | O => outOfFuel
     | S fuel' =>
         ReadN.withFront (invokeHandler (zeroSizeCode info) c) ;;
         ReadN.popFront ;;
         ReadN.startNextReadLoop fuel' c
     end
   else
     doDevice (dev_startRead (r_bufSize_ info) (ctxOf c))) s.
Proof.
  intros Hq. destruct fuel; simpl; unfold bind at 1, gets; rewrite Hq;
    destruct (r_bufSize_ info =? 0), c; reflexivity.
Qed.

Lemma startNextReadLoop_conserves fuel c (s : ReadN.State) u s' :
  ReadN.startNextReadLoop fuel c s = Ret u s' -> handlersN s' = handlersN s.
Proof.
  revert s u s'. induction fuel as [|fuel IH]; intros s u s' Hr;
    (destruct (pending s) as [|info rest] eqn:Hq;
     [rewrite (startNextReadLoop_nil _ _ _ Hq) in Hr; inversion Hr;
      reflexivity|]);
    rewrite (startNextReadLoop_cons _ _ _ Hq) in Hr;
    invAll; try reflexivity.
  apply IH in Hr. rewrite Hr.
  match goal with
  | H1 : ReadN.withFront _ _ = Ret _ _, H2 : ReadN.popFront _ = Ret _ _ |- _ =>
      destruct (finishFront_conserves _ _ _ H1 H2) as [Hc _]; exact Hc
  end.
Qed.

Lemma startNextRead_conserves c (s : ReadN.State) u s' :
  ReadN.startNextRead c s = Ret u s' -> handlersN s' = handlersN s.
Proof.
  unfold ReadN.startNextRead. intros Hr. invAll.
  eapply startNextReadLoop_conserves; eassumption.
Qed.

Lemma queuedHandlers_app (q1 q2 : list ReadInfo) :
  queuedHandlers (q1 ++ q2) = queuedHandlers q1 ++ queuedHandlers q2.
Proof. unfold queuedHandlers. apply flat_map_app. Qed.

Lemma emplaceBack_Ret_inv info (s : ReadN.State) u s' :
  ReadN.emplaceBack info s = Ret u s' ->
  ReadN.full (pending s) = false /\ s' = setPending (pending s ++ [info]) s.
Proof.
  unfold ReadN.emplaceBack. destruct (ReadN.full (pending s));
    [discriminate|].
  intros Hr. inversion Hr. split; reflexivity.
Qed.

Lemma asyncReadUntilN_conserves buf size pred func (s : ReadN.State) u s' :
  ReadN.asyncReadUntil buf size pred func s = Ret u s' ->
  handlersN s' = handlersN s ++ [func].
Proof.
  unfold ReadN.asyncReadUntil. intros Hr. invAll;
    match goal with
    | H : ReadN.emplaceBack _ _ = Ret _ _ |- _ =>
        apply emplaceBack_Ret_inv in H; destruct H as [_ ->]
    end.
  - unfold handlersN. simpl. rewrite queuedHandlers_app. simpl.
    rewrite app_assoc. reflexivity.
  - apply startNextRead_conserves in Hr. rewrite Hr.
    unfold handlersN. simpl. rewrite queuedHandlers_app. simpl.
    rewrite app_assoc. reflexivity.
Qed.

Lemma abortInfo_conserves (el : EventLoop) (info : ReadInfo) u t :
  ReadN.abortInfo (el, info) = Ret u t ->
  postedHandlers (fst t) = postedHandlers el ++ stored (r_handler_ info) /\
  r_handler_ (snd t) = None.
Proof.
  unfold ReadN.abortInfo. intros Hr. invAll.
  apply invokeHandler_conserves in Hr. exact Hr.
Qed.

Lemma forEach_abortInfo_conserves (q : list ReadInfo) (el : EventLoop) u t :
  ReadN.forEach ReadN.abortInfo q el = Ret u t ->
  postedHandlers (fst t) = postedHandlers el ++ queuedHandlers q /\
  queuedHandlers (snd t) = [].
Proof.
  revert el u t. induction q as [|info rest IH]; intros el u t Hr;
    simpl in Hr.
  - inversion Hr. simpl. rewrite app_nil_r. split; reflexivity.
  - destruct (ReadN.abortInfo (el, info)) as [u1 [el1 info1]|[? ?]|[? ?]|[? ?]]
      eqn:Ha; try discriminate.
    apply abortInfo_conserves in Ha. destruct Ha as [Hp Hn]. simpl in Hp, Hn.
    destruct (ReadN.forEach ReadN.abortInfo rest el1)
      as [u2 [el2 rest2]|[? ?]|[? ?]|[? ?]] eqn:Hf; try discriminate.
    apply IH in Hf. destruct Hf as [Hp2 Hn2]. simpl in Hp2, Hn2.
    inversion Hr. subst t. simpl. rewrite Hp2, Hp, Hn, Hn2.
    unfold queuedHandlers. simpl. rewrite <- app_assoc. split; reflexivity.
Qed.

Lemma cancelReadN_conserves (s : ReadN.State) r s' :
  ReadN.cancelRead s = Ret r s' -> handlersN s' = handlersN s.
Proof.
  unfold ReadN.cancelRead. intros Hr. invAll; try reflexivity.
  match goal with
  | H : zoom _ _ _ _ = Ret _ _ |- _ =>
      apply zoom_Ret_inv in H; destruct H as (t & H & ->);
      apply forEach_abortInfo_conserves in H; destruct H as [Hp _]
  end.
  unfold handlersN. simpl in *. rewrite Hp, app_nil_r. reflexivity.
Qed.

Lemma canReadAfterPop_conserves (s : ReadN.State) u s' :
  ReadN.canReadAfterPop s = Ret u s' -> handlersN s' = handlersN s.
Proof. unfold ReadN.canReadAfterPop. intros Hr. invAll. reflexivity. Qed.

Ltac useConservedN :=
  repeat match goal with
  | H : ReadN.canReadAfterPop _ = Ret _ _ |- _ =>
      apply canReadAfterPop_conserves in H; rewrite H; clear H
  | H : ReadN.startNextRead _ _ = Ret _ _ |- _ =>
      apply startNextRead_conserves in H; rewrite H; clear H
  | H1 : ReadN.withFront _ _ = Ret _ _, H2 : ReadN.popFront _ = Ret _ _
    |- _ =>
      let Hc := fresh "Hc" in
      destruct (finishFront_conserves _ _ _ H1 H2) as [Hc _];
      rewrite Hc; clear H1 H2 Hc
  end.

Ltac sameQueue :=
  unfold handlersN; simpl;
  repeat match goal with
  | H : pending _ = _ :: _ |- _ => rewrite H
  end;
  reflexivity.

Lemma canReadLoopN_conserves fuel (s : ReadN.State) u s' :
  ReadN.canReadLoop fuel s = Ret u s' -> handlersN s' = handlersN s.
Proof.
  revert s u s'. induction fuel as [|fuel IH]; intros s u s' Hr;
    simpl in Hr; invAll; try reflexivity.
  - useConservedN. sameQueue.
  - apply IH in Hr. rewrite Hr. sameQueue.
  - apply IH in Hr. rewrite Hr. sameQueue.
Qed.

Lemma readCompleteN_conserves es (s : ReadN.State) u s' :
  ReadN.readCompleteInterruptHandler es s = Ret u s' ->
  handlersN s' = handlersN s.
Proof.
  unfold ReadN.readCompleteInterruptHandler. intros Hr. invAll;
    useConservedN; reflexivity.
Qed.

Lemma stepReadN_conserves e (s : ReadN.State) u s' :
  stepReadN e s = Ret u s' -> handlersN s' = handlersN s ++ submittedRead e.
Proof.
  destruct e; simpl; intros Hr.
  - eapply asyncReadUntilN_conserves; eassumption.
  - eapply asyncReadUntilN_conserves; eassumption.
  - invAll. rewrite app_nil_r. eapply cancelReadN_conserves; eassumption.
  - rewrite app_nil_r. unfold ReadN.canReadInterruptHandler in Hr. invAll;
      try match goal with
          | H : negb (ReadN.empty []) = true |- _ => discriminate H
          end.
    eapply canReadLoopN_conserves; eassumption.
  - rewrite app_nil_r. eapply readCompleteN_conserves; eassumption.
Qed.

(** *** Runs *)

Lemma run_conserves {S E} (step : E -> M S unit) (handlers : S -> list Handler)
    (submitted : E -> list Handler) :
  (forall e s u s',
     step e s = Ret u s' -> handlers s' = handlers s ++ submitted e) ->
  forall events s u s',
    run step events s = Ret u s' ->
    handlers s' = handlers s ++ flat_map submitted events.
Proof.
  intros Hstep events. induction events as [|e rest IH]; intros s u s' Hr;
    simpl in Hr.
  - inversion Hr. simpl. rewrite app_nil_r. reflexivity.
  - apply bind_Ret_inv in Hr. destruct Hr as (u1 & s1 & H1 & H2).
    apply IH in H2. apply Hstep in H1. rewrite H2, H1. simpl.
    rewrite <- app_assoc. reflexivity.
Qed.

End Conservation.


(** ** Closed forms of the dispatch inside an engine *)

Section Posting.
Context {P : Platform} {B : Build}.

Lemma boundOf_completion {I} {HI : Info I} (info : I) h es :
  handler_ info = Some h ->
  0 <= current_ info - start_ info < 2 ^ size_t_bits ->
  boundOf info es = completion h es (current_ info - start_ info).
Proof.
  intros Hh Hrange. unfold boundOf, completion.
  rewrite Hh, (to_size_t_small Hrange). reflexivity.
Qed.

Lemma invokeHandler_posted {I} {HI : Info I} es interruptCtx
    (el : EventLoop) (info : I) h room :
  handler_ info = Some h ->
  el_room el = S room ->
  0 <= current_ info - start_ info < 2 ^ size_t_bits ->
  invokeHandler es interruptCtx (el, info) =
  Ret tt (posted (ctxOf interruptCtx)
            (completion h es (current_ info - start_ info)) el,
          moveHandler info).
Proof.
  intros Hh Hroom Hrange.
  rewrite (invokeHandler_ok es interruptCtx el info Hh Hroom).
  rewrite (boundOf_completion info es Hh Hrange).
  unfold posted. rewrite Hroom. reflexivity.
Qed.

Lemma withFront_invokeHandler es interruptCtx (s : ReadN.State) info rest
    h room :
  pending s = info :: rest ->
  r_handler_ info = Some h ->
  el_room (el_ s) = S room ->
  0 <= r_current_ info - r_start_ info < 2 ^ size_t_bits ->
  ReadN.withFront (invokeHandler es interruptCtx) s =
  Ret tt
    (setPending (moveHandler info :: rest)
       (setEl (posted (ctxOf interruptCtx)
                 (completion h es (r_current_ info - r_start_ info))
                 (el_ s)) s)).
Proof.
  intros Hq Hh Hroom Hrange. unfold ReadN.withFront, zoom. rewrite Hq.
  rewrite (invokeHandler_posted (HI:=ReadInfo_Info) es interruptCtx (el_ s)
             info Hh Hroom Hrange).
  reflexivity.
Qed.

Lemma withInfo1_invokeHandler es interruptCtx (s : Read1.State) h room :
  r_handler_ (pending s) = Some h ->
  el_room (el_ s) = S room ->
  0 <= r_current_ (pending s) - r_start_ (pending s) < 2 ^ size_t_bits ->
  Read1.withInfo (invokeHandler es interruptCtx) s =
  Ret tt
    (setPending (moveHandler (pending s))
       (setEl (posted (ctxOf interruptCtx)
                 (completion h es
                    (r_current_ (pending s) - r_start_ (pending s)))
                 (el_ s)) s)).
Proof.
  intros Hh Hroom Hrange. unfold Read1.withInfo, zoom, elAndPending.
  rewrite (invokeHandler_posted (HI:=ReadInfo_Info) es interruptCtx (el_ s)
             (pending s) Hh Hroom Hrange).
  reflexivity.
Qed.

Lemma withInfoW_invokeHandler es interruptCtx (s : Write1.State) h room :
  w_handler_ (pending s) = Some h ->
  el_room (el_ s) = S room ->
  0 <= w_current_ (pending s) - w_start_ (pending s) < 2 ^ size_t_bits ->
  Write1.withInfo (invokeHandler es interruptCtx) s =
  Ret tt
    (setPending (moveHandler (pending s))
       (setEl (posted (ctxOf interruptCtx)
                 (completion h es
                    (w_current_ (pending s) - w_start_ (pending s)))
                 (el_ s)) s)).
Proof.
  intros Hh Hroom Hrange. unfold Write1.withInfo, zoom, elAndPending.
  rewrite (invokeHandler_posted (HI:=WriteInfo_Info) es interruptCtx (el_ s)
             (pending s) Hh Hroom Hrange).
  reflexivity.
Qed.

Lemma GASSERT_holds {S} (cond : bool) (s : S) :
  cond = true -> GASSERT cond s = Ret tt s.
Proof. intros ->. apply GASSERT_true. Qed.

End Posting.

(** ** The read-complete hook *)

Section ReadComplete.
Context {P : Platform} {B : Build}.

Lemma readCompleteN_closed es (s : ReadN.State) info rest h room :
  pending s = info :: rest ->
  r_handler_ info = Some h ->
  el_room (el_ s) = S room ->
  r_start_ info < r_current_ info ->
  r_current_ info - r_start_ info < 2 ^ size_t_bits ->
  isError es = true \/ lastCharInBuffer info = true ->
  ReadN.readCompleteInterruptHandler es s =
  ReadN.startNextRead true
    (setPending rest
       (setEl (posted InterruptContext
                 (completion h (readCompleteStatus es (memory s) info)
                    (r_current_ info - r_start_ info))
                 (el_ s)) s)).
Proof.
  intros Hq Hh Hroom Hlt Hrange Hload.
  assert (Hr : 0 <= r_current_ info - r_start_ info < 2 ^ size_t_bits)
    by lia.
  unfold ReadN.readCompleteInterruptHandler.
  unfold bind at 1, gets. rewrite Hq.
  unfold bind at 1. simpl ReadN.empty. simpl negb. rewrite GASSERT_true.
  unfold bind at 1. rewrite GASSERT_holds by (apply Z.ltb_lt; exact Hlt).
  unfold bind at 1. rewrite (statusStands_defined es info s Hload).
  unfold readCompleteStatus.
  destruct (isError es ||
            negb (seekedCharFound (memory s (r_current_ info - 1)) info));
    unfold bind at 1;
    rewrite (withFront_invokeHandler _ true s Hq Hh Hroom Hr);
    unfold bind at 1; reflexivity.
Qed.

Lemma readComplete1_closed es (s : Read1.State) h room :
  r_handler_ (pending s) = Some h ->
  el_room (el_ s) = S room ->
  0 <= r_current_ (pending s) - r_start_ (pending s) < 2 ^ size_t_bits ->
  isError es = true \/ lastCharInBuffer (pending s) = true ->
  Read1.readCompleteInterruptHandler es s =
  Ret tt
    (setPending (moveHandler (pending s))
       (setEl (posted InterruptContext
                 (completion h
                    (readCompleteStatus es (memory s) (pending s))
                    (r_current_ (pending s) - r_start_ (pending s)))
                 (el_ s)) s)).
Proof.
  intros Hh Hroom Hrange Hload.
  unfold Read1.readCompleteInterruptHandler, bind, gets.
  rewrite (statusStands_defined es (pending s) s Hload).
  unfold readCompleteStatus.
  destruct (isError es ||
            negb (seekedCharFound
                    (memory s (r_current_ (pending s) - 1)) (pending s)));
    rewrite (withInfo1_invokeHandler _ true s Hh Hroom Hrange);
    reflexivity.
Qed.

Lemma readCompleteStatus_error es mem info :
  isError es = true -> readCompleteStatus es mem info = es.
Proof. intros H. unfold readCompleteStatus. rewrite H. reflexivity. Qed.

Lemma seekedCharFound_no_pred ch info :
  r_readUntilPred_ info = None -> seekedCharFound ch info = false.
Proof.
  intros H. unfold seekedCharFound. rewrite H.
  destruct readUntilValid; reflexivity.
Qed.

Lemma seekedCharFound_disabled ch info :
  readUntilValid = false -> seekedCharFound ch info = false.
Proof. intros H. unfold seekedCharFound. rewrite H. reflexivity. Qed.

Lemma seekedCharFound_pred ch info pred :
  readUntilValid = true ->
  r_readUntilPred_ info = Some pred ->
  seekedCharFound ch info = pred ch.
Proof.
  intros Hv Hp. unfold seekedCharFound. rewrite Hv, Hp. reflexivity.
Qed.

Lemma readCompleteStatus_not_found es mem info :
  seekedCharFound (mem (r_current_ info - 1)) info = false ->
  readCompleteStatus es mem info = es.
Proof.
  intros H. unfold readCompleteStatus. rewrite H, orb_true_r. reflexivity.
Qed.

Lemma readCompleteStatus_found mem info :
  seekedCharFound (mem (r_current_ info - 1)) info = true ->
  readCompleteStatus Success mem info = BufferOverflow.
Proof. intros H. unfold readCompleteStatus. rewrite H. reflexivity. Qed.

Lemma isError_false es : isError es = false -> es = Success.
Proof. destruct es; simpl; intros H; [reflexivity | discriminate ..]. Qed.

End ReadComplete.

(** C2.  When the read-complete hook fires with the status [es] for
    the front request (its handler stored, the event loop with room, at
    least one character read in the queued engine, the character before
    the cursor in the buffer unless [es] is an error):
    - if [es] is an error, or no predicate is installed (or the facility
      is compiled out), or the last character read does not satisfy the
      predicate, both engines post the handler once, from interrupt
      context, with [(es, current_ - start_)];
    - otherwise, the last character read satisfying the predicate and
      the buffer being full, they post it with
      [(BufferOverflow, bufSize_)].
    The queued engine then pops the request and starts the next read,
    the single-slot engine returns. *)
Theorem readComplete_posts_status_and_cursor {P : Platform} {B : Build} :
  (forall es (s : ReadN.State) info rest h room,
      pending s = info :: rest ->
      r_handler_ info = Some h ->
      el_room (el_ s) = S room ->
      r_start_ info < r_current_ info ->
      r_current_ info - r_start_ info < 2 ^ size_t_bits ->
      isError es = true \/
      r_current_ info <= r_start_ info + r_bufSize_ info ->
      (isError es = true \/
       readUntilValid = false \/
       r_readUntilPred_ info = None \/
       (exists pred, r_readUntilPred_ info = Some pred /\
                     pred (memory s (r_current_ info - 1)) = false)) ->
      ReadN.readCompleteInterruptHandler es s =
      ReadN.startNextRead true
        (setPending rest
           (setEl (posted InterruptContext
                     (completion h es (r_current_ info - r_start_ info))
                     (el_ s)) s))) /\
  (forall es (s : ReadN.State) info rest h room pred,
      pending s = info :: rest ->
      r_handler_ info = Some h ->
      el_room (el_ s) = S room ->
      0 < r_bufSize_ info < 2 ^ size_t_bits ->
      r_current_ info = r_start_ info + r_bufSize_ info ->
      isError es = false ->
      readUntilValid = true ->
      r_readUntilPred_ info = Some pred ->
      pred (memory s (r_current_ info - 1)) = true ->
      ReadN.readCompleteInterruptHandler es s =
      ReadN.startNextRead true
        (setPending rest
           (setEl (posted InterruptContext
                     (completion h BufferOverflow (r_bufSize_ info))
                     (el_ s)) s))) /\
  (forall es (s : Read1.State) h room,
      r_handler_ (pending s) = Some h ->
      el_room (el_ s) = S room ->
      0 <= r_current_ (pending s) - r_start_ (pending s) < 2 ^ size_t_bits ->
      isError es = true \/
      r_start_ (pending s) < r_current_ (pending s) <=
      r_start_ (pending s) + r_bufSize_ (pending s) ->
      (isError es = true \/
       readUntilValid = false \/
       r_readUntilPred_ (pending s) = None \/
       (exists pred,
           r_readUntilPred_ (pending s) = Some pred /\
           pred (memory s (r_current_ (pending s) - 1)) = false)) ->
      Read1.readCompleteInterruptHandler es s =
      Ret tt
        (setPending (moveHandler (pending s))
           (setEl (posted InterruptContext
                     (completion h es
                        (r_current_ (pending s) - r_start_ (pending s)))
                     (el_ s)) s))) /\
  (forall es (s : Read1.State) h room pred,
      r_handler_ (pending s) = Some h ->
      el_room (el_ s) = S room ->
      0 < r_bufSize_ (pending s) < 2 ^ size_t_bits ->
      r_current_ (pending s) =
      r_start_ (pending s) + r_bufSize_ (pending s) ->
      isError es = false ->
      readUntilValid = true ->
      r_readUntilPred_ (pending s) = Some pred ->
      pred (memory s (r_current_ (pending s) - 1)) = true ->
      Read1.readCompleteInterruptHandler es s =
      Ret tt
        (setPending (moveHandler (pending s))
           (setEl (posted InterruptContext
                     (completion h BufferOverflow (r_bufSize_ (pending s)))
                     (el_ s)) s))).
Proof.
  assert (Hstands : forall es mem info,
    (isError es = true \/
     readUntilValid = false \/
     r_readUntilPred_ info = None \/
     (exists pred, r_readUntilPred_ info = Some pred /\
                   pred (mem (r_current_ info - 1)) = false)) ->
    readCompleteStatus es mem info = es).
  { intros es mem info [He | [Hd | [Hn | (pred & Hp & Hf)]]].
    - apply readCompleteStatus_error. exact He.
    - apply readCompleteStatus_not_found.
      apply seekedCharFound_disabled. exact Hd.
    - apply readCompleteStatus_not_found.
      apply seekedCharFound_no_pred. exact Hn.
    - apply readCompleteStatus_not_found. unfold seekedCharFound.
      rewrite Hp, Hf. destruct readUntilValid; reflexivity. }
  assert (Hoverflow : forall es mem info pred,
    isError es = false ->
    readUntilValid = true ->
    r_readUntilPred_ info = Some pred ->
    pred (mem (r_current_ info - 1)) = true ->
    readCompleteStatus es mem info = BufferOverflow).
  { intros es mem info pred He Hv Hp Ht.
    rewrite (isError_false es He). apply readCompleteStatus_found.
    rewrite (seekedCharFound_pred _ info Hv Hp). exact Ht. }
  split; [|split; [|split]].
  - intros es s info rest h room Hq Hh Hroom Hlt Hrange Hload Hcase.
    rewrite (readCompleteN_closed es s Hq Hh Hroom Hlt Hrange).
    + rewrite (Hstands es (memory s) info Hcase). reflexivity.
    + destruct Hload as [He | Hhi]; [left; exact He | right].
      apply lastCharInBuffer_true. split; assumption.
  - intros es s info rest h room pred Hq Hh Hroom Hsize Hfull He Hv Hp Ht.
    rewrite (readCompleteN_closed es s (room := room) Hq Hh Hroom);
      [ | lia | lia | right; apply lastCharInBuffer_true; lia ].
    rewrite (Hoverflow es (memory s) info pred He Hv Hp Ht).
    replace (r_current_ info - r_start_ info) with (r_bufSize_ info)
      by lia.
    reflexivity.
  - intros es s h room Hh Hroom Hrange Hload Hcase.
    rewrite (readComplete1_closed es s Hh Hroom Hrange).
    + rewrite (Hstands es (memory s) (pending s) Hcase). reflexivity.
    + destruct Hload as [He | Hin]; [left; exact He | right].
      apply lastCharInBuffer_true. exact Hin.
  - intros es s h room pred Hh Hroom Hsize Hfull He Hv Hp Ht.
    rewrite (readComplete1_closed es s (room := room) Hh Hroom);
      [ | lia | right; apply lastCharInBuffer_true; lia ].
    rewrite (Hoverflow es (memory s) (pending s) pred He Hv Hp Ht).
    replace (r_current_ (pending s) - r_start_ (pending s))
      with (r_bufSize_ (pending s)) by lia.
    reflexivity.
Qed.

Lemma readComplete_posts_status_and_cursor_witness :
  Read1.readCompleteInterruptHandler (B:=Sim.checked) Success
    (Inputs.engineWith Inputs.lineFeedAt101 (Sim.idle 4)
       Inputs.lineFeedLast) =
  Ret tt
    (setPending (moveHandler (Info:=ReadInfo_Info) Inputs.lineFeedLast)
       (setEl (posted InterruptContext
                 (completion (P:=Inputs.queued) 1%nat BufferOverflow 2)
                 (Sim.emptyLoop 8))
          (Inputs.engineWith Inputs.lineFeedAt101 (Sim.idle 4)
             Inputs.lineFeedLast))) /\
  ReadN.readCompleteInterruptHandler (B:=Sim.checked) (DeviceError 3)
    (Inputs.engineWith Inputs.lineFeedAt101 (Sim.idle 4)
       [Inputs.readUntilLineFeed]) =
  ReadN.startNextRead (B:=Sim.checked) true
    (setPending []
       (setEl (posted InterruptContext
                 (completion (P:=Inputs.queued) 1%nat (DeviceError 3) 2)
                 (Sim.emptyLoop 8))
          (Inputs.engineWith Inputs.lineFeedAt101 (Sim.idle 4)
             [Inputs.readUntilLineFeed]))).
Proof.
  destruct (@readComplete_posts_status_and_cursor Inputs.queued Sim.checked)
    as (HN & _ & _ & Hfull1).
  split.
  - apply (Hfull1 Success
             (Inputs.engineWith Inputs.lineFeedAt101 (Sim.idle 4)
                Inputs.lineFeedLast) 1%nat 7%nat (Sim.untilChar 10));
      try reflexivity.
    vm_compute. split; reflexivity.
  - apply (HN (DeviceError 3)
             (Inputs.engineWith Inputs.lineFeedAt101 (Sim.idle 4)
                [Inputs.readUntilLineFeed])
             Inputs.readUntilLineFeed [] 1%nat 7%nat);
      try reflexivity.
    + left. reflexivity.
    + left. reflexivity.
Defined.

(** ** The can-read hook *)

Section CanRead.
Context {P : Platform} {B : Build}.

Lemma seekedCharFound_advanceRead ch info :
  seekedCharFound ch (advanceRead info) = seekedCharFound ch info.
Proof. reflexivity. Qed.

Lemma seekedCharFound_true ch info :
  seekedCharFound ch info = true ->
  exists pred, r_readUntilPred_ info = Some pred /\ pred ch = true.
Proof.
  unfold seekedCharFound. destruct readUntilValid; [|discriminate].
  destruct (r_readUntilPred_ info) as [pred|]; [|discriminate].
  intros H. exists pred. split; [reflexivity | exact H].
Qed.

(** One turn of the loop of the queued engine. *)
Lemma canReadLoopN_turn fuel (s : ReadN.State) info rest d1 ch d2 :
  pending s = info :: rest ->
  dev_canRead (device_ s) = (true, d1) ->
  r_current_ info < r_start_ info + r_bufSize_ info ->
  dev_read d1 = (ch, d2) ->
  ReadN.canReadLoop (S fuel) s =
  if seekedCharFound ch info then
    let (cancelled, d3) := dev_cancelRead InterruptContext d2 in
    if cancelled then
      (ReadN.withFront (invokeHandler Success true) ;;
       ReadN.popFront ;;
       ReadN.startNextRead true ;;
       ReadN.canReadAfterPop)
        (afterRead s info ch d3 (advanceRead info :: rest))
    else
      ReadN.canReadLoop fuel
        (afterRead s info ch d3 (advanceRead info :: rest))
  else
    ReadN.canReadLoop fuel (afterRead s info ch d2 (advanceRead info :: rest)).
Proof.
  intros Hq Hcan Hroom Hread.
  assert (Hle : (r_start_ info + r_bufSize_ info <=? r_current_ info) = false)
    by (apply Z.leb_gt; exact Hroom).
  cbn [ReadN.canReadLoop]. unfold bind at 1, callDevice at 1. rewrite Hcan.
  cbn [negb]. unfold bind at 1, gets. cbn [pending setDevice]. rewrite Hq.
  rewrite Hle. unfold bind at 1, callDevice at 1. cbn [device_ setDevice].
  rewrite Hread. unfold bind at 1, modify at 1. unfold bind at 1, modify at 1.
  rewrite seekedCharFound_advanceRead.
  destruct (seekedCharFound ch info).
  - unfold bind at 1, callDevice at 1.
    cbn [device_ setPending setMemory setDevice].
    destruct (dev_cancelRead InterruptContext d2) as [cancelled d3].
    destruct cancelled; reflexivity.
  - reflexivity.
Qed.

(** One turn of the loop of the single-slot engine. *)
Lemma canReadLoop1_turn fuel (s : Read1.State) d1 ch d2 :
  dev_canRead (device_ s) = (true, d1) ->
  r_current_ (pending s) < r_start_ (pending s) + r_bufSize_ (pending s) ->
  dev_read d1 = (ch, d2) ->
  Read1.canReadLoop (S fuel) s =
  if seekedCharFound ch (pending s) then
    let (cancelled, d3) := dev_cancelRead InterruptContext d2 in
    if cancelled then
      (Read1.withInfo (invokeHandler Success true) ;;
       Read1.canReadLoop fuel)
        (afterRead s (pending s) ch d3 (advanceRead (pending s)))
    else
      Read1.canReadLoop fuel
        (afterRead s (pending s) ch d3 (advanceRead (pending s)))
  else
    Read1.canReadLoop fuel
      (afterRead s (pending s) ch d2 (advanceRead (pending s))).
Proof.
  intros Hcan Hroom Hread.
  assert (Hle : (r_start_ (pending s) + r_bufSize_ (pending s)
                 <=? r_current_ (pending s)) = false)
    by (apply Z.leb_gt; exact Hroom).
  cbn [Read1.canReadLoop]. unfold bind at 1, callDevice at 1. rewrite Hcan.
  cbn [negb]. unfold bind at 1, gets. cbn [pending setDevice].
  rewrite Hle. unfold bind at 1, callDevice at 1. cbn [device_ setDevice].
  rewrite Hread. unfold bind at 1, modify at 1. unfold bind at 1, modify at 1.
  rewrite seekedCharFound_advanceRead.
  destruct (seekedCharFound ch (pending s)).
  - unfold bind at 1. unfold bind at 1, callDevice at 1.
    cbn [device_ setPending setMemory setDevice].
    destruct (dev_cancelRead InterruptContext d2) as [cancelled d3].
    destruct cancelled; reflexivity.
  - reflexivity.
Qed.

(** The loop ends as soon as the device reports no character. *)
Lemma canReadLoopN_done fuel (s : ReadN.State) d :
  dev_canRead (device_ s) = (false, d) ->
  ReadN.canReadLoop fuel s = Ret tt (setDevice d s).
Proof.
  intros Hcan. destruct fuel; cbn [ReadN.canReadLoop];
    unfold bind, callDevice; rewrite Hcan; reflexivity.
Qed.

Lemma canReadLoop1_done fuel (s : Read1.State) d :
  dev_canRead (device_ s) = (false, d) ->
  Read1.canReadLoop fuel s = Ret tt (setDevice d s).
Proof.
  intros Hcan. destruct fuel; cbn [Read1.canReadLoop];
    unfold bind, callDevice; rewrite Hcan; reflexivity.
Qed.

Lemma canReadAfterPop_done (s : ReadN.State) d :
  dev_canRead (device_ s) = (false, d) ->
  ReadN.canReadAfterPop s = Ret tt (setDevice d s).
Proof.
  intros Hcan. unfold ReadN.canReadAfterPop, bind, callDevice.
  rewrite Hcan. reflexivity.
Qed.

End CanRead.

Section CanReadHook.
Context {P : Platform} {B : Build}.

Lemma canReadInterruptHandlerN_loop (s : ReadN.State) info rest :
  pending s = info :: rest ->
  ReadN.canReadInterruptHandler s =
  ReadN.canReadLoop
    (Z.to_nat (r_start_ info + r_bufSize_ info - r_current_ info)) s.
Proof.
  intros Hq. unfold ReadN.canReadInterruptHandler.
  unfold bind at 1, gets. rewrite Hq. unfold bind at 1.
  cbn [ReadN.empty negb]. rewrite GASSERT_true. reflexivity.
Qed.

Lemma canReadInterruptHandler1_loop (s : Read1.State) :
  Read1.canReadInterruptHandler s =
  Read1.canReadLoop
    (Z.to_nat (r_start_ (pending s) + r_bufSize_ (pending s)
               - r_current_ (pending s))) s.
Proof. reflexivity. Qed.

Lemma room_fuel (a b : Z) : a < b -> exists fuel, Z.to_nat (b - a) = S fuel.
Proof.
  intros H. exists (Nat.pred (Z.to_nat (b - a))).
  assert (0 < Z.to_nat (b - a))%nat by lia. lia.
Qed.

Lemma canReadN_short_circuit fuel (s : ReadN.State) info rest d1 ch d2 d3
    h room :
  pending s = info :: rest ->
  dev_canRead (device_ s) = (true, d1) ->
  r_current_ info < r_start_ info + r_bufSize_ info ->
  dev_read d1 = (ch, d2) ->
  seekedCharFound ch info = true ->
  dev_cancelRead InterruptContext d2 = (true, d3) ->
  r_handler_ info = Some h ->
  el_room (el_ s) = S room ->
  r_start_ info <= r_current_ info ->
  r_current_ info + 1 - r_start_ info < 2 ^ size_t_bits ->
  ReadN.canReadLoop (S fuel) s =
  (ReadN.startNextRead true ;; ReadN.canReadAfterPop)
    (setEl (posted InterruptContext
              (completion h Success (r_current_ info + 1 - r_start_ info))
              (el_ s))
       (afterRead s info ch d3 rest)).
Proof.
  intros Hq Hcan Hroom Hread Hfound Hcancel Hh Hel Hle Hrange.
  rewrite (canReadLoopN_turn fuel s Hq Hcan Hroom Hread).
  rewrite Hfound, Hcancel. unfold bind at 1.
  rewrite (withFront_invokeHandler Success true
             (afterRead s info ch d3 (advanceRead info :: rest))
             (info := advanceRead info) (rest := rest) (h := h)
             (room := room));
    try reflexivity; try assumption.
  - simpl. lia.
Qed.

Lemma canRead1_short_circuit fuel (s : Read1.State) d1 ch d2 d3 h room :
  dev_canRead (device_ s) = (true, d1) ->
  r_current_ (pending s) < r_start_ (pending s) + r_bufSize_ (pending s) ->
  dev_read d1 = (ch, d2) ->
  seekedCharFound ch (pending s) = true ->
  dev_cancelRead InterruptContext d2 = (true, d3) ->
  r_handler_ (pending s) = Some h ->
  el_room (el_ s) = S room ->
  r_start_ (pending s) <= r_current_ (pending s) ->
  r_current_ (pending s) + 1 - r_start_ (pending s) < 2 ^ size_t_bits ->
  Read1.canReadLoop (S fuel) s =
  Read1.canReadLoop fuel
    (setEl (posted InterruptContext
              (completion h Success
                 (r_current_ (pending s) + 1 - r_start_ (pending s)))
              (el_ s))
       (afterRead s (pending s) ch d3
          (moveHandler (advanceRead (pending s))))).
Proof.
  intros Hcan Hroom Hread Hfound Hcancel Hh Hel Hle Hrange.
  rewrite (canReadLoop1_turn fuel s Hcan Hroom Hread).
  rewrite Hfound, Hcancel. unfold bind at 1.
  rewrite (withInfo1_invokeHandler Success true
             (afterRead s (pending s) ch d3 (advanceRead (pending s)))
             (h := h) (room := room));
    try reflexivity; try assumption.
  - simpl. lia.
Qed.

End CanReadHook.

(** C3 (as amended).  In the can-read hook, once a character is stored
    and the cursor advanced, and a predicate is installed that accepts
    the character, the device's [cancelRead] is called with the
    interrupt context.
    - If the cancel succeeds, the handler is posted from interrupt
      context with [(Success, k)], [k] the number of characters read so
      far, and the character at [start_ + k - 1] satisfies the
      predicate.  The queued engine pops the request and starts the next
      queued read; the single-slot engine keeps its slot, now without
      handler.
    - If the cancel fails, nothing is posted for this character.
    In either case the loop condition is evaluated again, and the hook
    returns at once when the device then reports no further character.
    The hook is this loop, entered with the front request. *)
Theorem canRead_predicate_short_circuit {P : Platform} {B : Build} :
  (* the queued engine *)
  (forall fuel (s : ReadN.State) info rest d1 ch d2 cancelled d3,
      pending s = info :: rest ->
      dev_canRead (device_ s) = (true, d1) ->
      r_current_ info < r_start_ info + r_bufSize_ info ->
      dev_read d1 = (ch, d2) ->
      seekedCharFound ch info = true ->
      dev_cancelRead InterruptContext d2 = (cancelled, d3) ->
      (exists pred, r_readUntilPred_ info = Some pred /\ pred ch = true) /\
      (cancelled = false ->
       ReadN.canReadLoop (S fuel) s =
       ReadN.canReadLoop fuel
         (afterRead s info ch d3 (advanceRead info :: rest))) /\
      (cancelled = true ->
       forall h room,
         r_handler_ info = Some h ->
         el_room (el_ s) = S room ->
         r_start_ info <= r_current_ info ->
         r_current_ info + 1 - r_start_ info < 2 ^ size_t_bits ->
         ReadN.canReadLoop (S fuel) s =
         (ReadN.startNextRead true ;; ReadN.canReadAfterPop)
           (setEl (posted InterruptContext
                     (completion h Success
                        (r_current_ info + 1 - r_start_ info))
                     (el_ s))
              (afterRead s info ch d3 rest)) /\
         memory (afterRead s info ch d3 rest)
           (r_start_ info + (r_current_ info + 1 - r_start_ info) - 1) = ch))
  /\
  (forall (s : ReadN.State) d,
      dev_canRead (device_ s) = (false, d) ->
      ReadN.canReadAfterPop s = Ret tt (setDevice d s) /\
      forall fuel, ReadN.canReadLoop fuel s = Ret tt (setDevice d s))
  /\
  (forall (s : ReadN.State) info rest,
      pending s = info :: rest ->
      r_current_ info < r_start_ info + r_bufSize_ info ->
      exists fuel,
        ReadN.canReadInterruptHandler s = ReadN.canReadLoop (S fuel) s)
  /\
  (* the single-slot engine *)
  (forall fuel (s : Read1.State) d1 ch d2 cancelled d3,
      dev_canRead (device_ s) = (true, d1) ->
      r_current_ (pending s)
        < r_start_ (pending s) + r_bufSize_ (pending s) ->
      dev_read d1 = (ch, d2) ->
      seekedCharFound ch (pending s) = true ->
      dev_cancelRead InterruptContext d2 = (cancelled, d3) ->
      (exists pred,
          r_readUntilPred_ (pending s) = Some pred /\ pred ch = true) /\
      (cancelled = false ->
       Read1.canReadLoop (S fuel) s =
       Read1.canReadLoop fuel
         (afterRead s (pending s) ch d3 (advanceRead (pending s)))) /\
      (cancelled = true ->
       forall h room,
         r_handler_ (pending s) = Some h ->
         el_room (el_ s) = S room ->
         r_start_ (pending s) <= r_current_ (pending s) ->
         r_current_ (pending s) + 1 - r_start_ (pending s)
           < 2 ^ size_t_bits ->
         Read1.canReadLoop (S fuel) s =
         Read1.canReadLoop fuel
           (setEl (posted InterruptContext
                     (completion h Success
                        (r_current_ (pending s) + 1 - r_start_ (pending s)))
                     (el_ s))
              (afterRead s (pending s) ch d3
                 (moveHandler (advanceRead (pending s))))) /\
         memory (afterRead s (pending s) ch d3
                   (moveHandler (advanceRead (pending s))))
           (r_start_ (pending s)
            + (r_current_ (pending s) + 1 - r_start_ (pending s)) - 1)
         = ch))
  /\
  (forall (s : Read1.State) d,
      dev_canRead (device_ s) = (false, d) ->
      forall fuel, Read1.canReadLoop fuel s = Ret tt (setDevice d s))
  /\
  (forall (s : Read1.State),
      r_current_ (pending s)
        < r_start_ (pending s) + r_bufSize_ (pending s) ->
      exists fuel,
        Read1.canReadInterruptHandler s = Read1.canReadLoop (S fuel) s).
Proof.
  repeat match goal with |- _ /\ _ => split end.
  - intros fuel s info rest d1 ch d2 cancelled d3
      Hq Hcan Hroom Hread Hfound Hcancel.
    split; [apply seekedCharFound_true; exact Hfound|]. split.
    + intros ->. rewrite (canReadLoopN_turn fuel s Hq Hcan Hroom Hread).
      rewrite Hfound, Hcancel. reflexivity.
    + intros -> h room Hh Hel Hle Hrange. split.
      * apply canReadN_short_circuit with (d1 := d1) (d2 := d2) (room := room);
          assumption.
      * unfold afterRead, store. simpl.
        replace (r_start_ info + (r_current_ info + 1 - r_start_ info) - 1)
          with (r_current_ info) by lia.
        rewrite Z.eqb_refl. reflexivity.
  - intros s d Hcan. split.
    + apply canReadAfterPop_done. exact Hcan.
    + intros fuel. apply canReadLoopN_done. exact Hcan.
  - intros s info rest Hq Hroom.
    destruct (room_fuel Hroom) as [fuel Hfuel]. exists fuel.
    rewrite (canReadInterruptHandlerN_loop s Hq), Hfuel. reflexivity.
  - intros fuel s d1 ch d2 cancelled d3 Hcan Hroom Hread Hfound Hcancel.
    split; [apply seekedCharFound_true; exact Hfound|]. split.
    + intros ->. rewrite (canReadLoop1_turn fuel s Hcan Hroom Hread).
      rewrite Hfound, Hcancel. reflexivity.
    + intros -> h room Hh Hel Hle Hrange. split.
      * apply canRead1_short_circuit with (d1 := d1) (d2 := d2) (room := room);
          assumption.
      * unfold afterRead, store. simpl.
        replace (r_start_ (pending s)
                 + (r_current_ (pending s) + 1 - r_start_ (pending s)) - 1)
          with (r_current_ (pending s)) by lia.
        rewrite Z.eqb_refl. reflexivity.
  - intros s d Hcan fuel. apply canReadLoop1_done. exact Hcan.
  - intros s Hroom.
    destruct (room_fuel Hroom) as [fuel Hfuel]. exists fuel.
    rewrite canReadInterruptHandler1_loop, Hfuel. reflexivity.
Qed.

Lemma canRead_predicate_short_circuit_witness :
  ReadN.canReadLoop (B:=Sim.checked) 4 Inputs.oneQueued =
  (ReadN.startNextRead (B:=Sim.checked) true ;; ReadN.canReadAfterPop)
    (setEl (posted InterruptContext
              (completion (P:=Inputs.queued) 1%nat Success 1)
              (Sim.emptyLoop 8))
       (afterRead Inputs.oneQueued
          (Inputs.readInfo 100 4 0 (Some 1%nat) (Some (Sim.untilChar 10)))
          10 (Sim.idle 4) [])) /\
  Sim.postedOf (ReadN.canReadInterruptHandler (B:=Sim.checked)
                  Inputs.oneQueued) =
  [(InterruptContext, (Some 1%nat, Success, 1))] /\
  Sim.ending (ReadN.canReadInterruptHandler (B:=Sim.checked)
                Inputs.oneQueued) = Sim.Returned.
Proof.
  destruct (@canRead_predicate_short_circuit Inputs.queued Sim.checked)
    as (Hturn & _).
  destruct (Hturn 3%nat Inputs.oneQueued
              (Inputs.readInfo 100 4 0 (Some 1%nat)
                 (Some (Sim.untilChar 10)))
              [] (Sim.reading 4 (Sim.received [10] (Sim.idle 4)))
              10 (Sim.reading 3 (Sim.idle 4)) true (Sim.idle 4))
    as (_ & _ & Hsuccess);
    try reflexivity.
  destruct (Hsuccess eq_refl 1%nat 7%nat) as [Hloop _];
    try reflexivity;
    try (vm_compute; intros Hgt; discriminate Hgt).
  split; [exact Hloop | split; vm_compute; reflexivity].
Defined.

(** C3, the claim as stated fails: after a successful cancel it has the
    hook stop draining.  In the single-slot engine, over a device whose
    [canRead] reports the status of its FIFO alone, the hook posts
    [(Success, 1)] for the line feed and then reads the next character
    into the buffer as well: the cursor ends at 102 and address 101
    holds 120.  In the queued engine, over a device that reports a
    character only while a read is started, the next queued read is
    started, the device reports its first character, and the loop body
    is entered again with [info] naming the request that was popped. *)
Lemma canRead_goes_on_after_short_circuit :
  Sim.postedOf (Read1.canReadInterruptHandler (B:=Sim.checked)
                  Inputs.oneSlot) =
  [(InterruptContext, (Some 1%nat, Success, 1))] /\
  r_current_
    (pending (finalState (Read1.canReadInterruptHandler (B:=Sim.checked)
                            Inputs.oneSlot))) = 102 /\
  memory (finalState (Read1.canReadInterruptHandler (B:=Sim.checked)
                        Inputs.oneSlot)) 101 = 120 /\
  Sim.postedOf (ReadN.canReadInterruptHandler (B:=Sim.checked)
                  Inputs.twoQueued) =
  [(InterruptContext, (Some 1%nat, Success, 1))] /\
  Sim.ending (ReadN.canReadInterruptHandler (B:=Sim.checked)
                Inputs.twoQueued) = Sim.UsedMissingElement /\
  Sim.rxFifo
    (device_ (finalState (ReadN.canReadInterruptHandler (B:=Sim.checked)
                            Inputs.twoQueued))) = [120].
Proof. repeat split; vm_compute; reflexivity. Qed.

(** ** Zero-size requests *)

Section ZeroSize.
Context {P : Platform} {B : Build}.

Lemma to_size_t_0 : to_size_t 0 = 0.
Proof. unfold to_size_t. apply Zmod_0_l. Qed.

Lemma invokeHandler_posted_0 {I} {HI : Info I} es interruptCtx
    (el : EventLoop) (info : I) h room :
  handler_ info = Some h ->
  el_room el = S room ->
  current_ info = start_ info ->
  invokeHandler es interruptCtx (el, info) =
  Ret tt (posted (ctxOf interruptCtx) (completion h es 0) el,
          moveHandler info).
Proof.
  intros Hh Hroom Hcur.
  rewrite (invokeHandler_ok es interruptCtx el info Hh Hroom).
  unfold posted, boundOf, completion.
  rewrite Hroom, Hh, Hcur, Z.sub_diag, to_size_t_0. reflexivity.
Qed.

Lemma asyncRead1_zero buf func (s : Read1.State) room :
  r_handler_ (pending s) = None ->
  el_room (el_ s) = S room ->
  Read1.asyncRead buf 0 func s =
  Ret tt
    (setPending (doneRead buf None)
       (setEl (posted EventLoopContext (completion func Success 0) (el_ s))
          s)).
Proof.
  intros Hh Hroom. unfold Read1.asyncRead.
  unfold bind at 1, gets. rewrite Hh. cbn [isSet negb].
  unfold bind at 1. rewrite GASSERT_true.
  unfold bind at 1, modify at 1. unfold bind at 1, modify at 1.
  unfold Read1.initRead. unfold bind at 1, modify at 1.
  cbn [Z.eqb]. unfold bind at 1, gets.
  unfold Read1.withInfo, zoom, elAndPending.
  cbn [pending el_ setPending setEl].
  rewrite (invokeHandler_posted_0 (HI:=ReadInfo_Info) _ false (el_ s) _
             (h := func) (room := room));
    try reflexivity; try assumption.
  unfold zeroSizeCode, Read1.setPred. simpl.
  destruct readUntilValid; reflexivity.
Qed.

Lemma asyncReadUntil1_zero buf pred func (s : Read1.State) room :
  readUntilValid = true ->
  r_handler_ (pending s) = None ->
  el_room (el_ s) = S room ->
  Read1.asyncReadUntil buf 0 (Some pred) func s =
  Ret tt
    (setPending (doneRead buf (Some pred))
       (setEl (posted EventLoopContext
                 (completion func BufferOverflow 0) (el_ s))
          s)).
Proof.
  intros Hv Hh Hroom. unfold Read1.asyncReadUntil.
  unfold bind at 1, gets. rewrite Hh. cbn [isSet negb].
  unfold bind at 1. rewrite GASSERT_true.
  unfold bind at 1, modify at 1. unfold bind at 1, modify at 1.
  unfold Read1.initRead. unfold bind at 1, modify at 1.
  cbn [Z.eqb]. unfold bind at 1, gets.
  unfold Read1.withInfo, zoom, elAndPending.
  cbn [pending el_ setPending setEl].
  rewrite (invokeHandler_posted_0 (HI:=ReadInfo_Info) _ false (el_ s) _
             (h := func) (room := room));
    try reflexivity; try assumption.
  unfold zeroSizeCode, Read1.setPred. simpl. rewrite Hv. reflexivity.
Qed.

Lemma asyncWrite_zero buf func (s : Write1.State) room :
  w_handler_ (pending s) = None ->
  el_room (el_ s) = S room ->
  Write1.asyncWrite buf 0 func s =
  Ret tt
    (setPending (doneWrite buf)
       (setEl (posted EventLoopContext (completion func Success 0) (el_ s))
          s)).
Proof.
  intros Hh Hroom. unfold Write1.asyncWrite.
  unfold bind at 1, gets. rewrite Hh. cbn [isSet negb].
  unfold bind at 1. rewrite GASSERT_true.
  unfold bind at 1, modify at 1.
  unfold Write1.initWrite. unfold bind at 1, modify at 1.
  cbn [Z.eqb].
  unfold Write1.withInfo, zoom, elAndPending.
  cbn [pending el_ setPending setEl].
  rewrite (invokeHandler_posted_0 (HI:=WriteInfo_Info) _ false (el_ s) _
             (h := func) (room := room));
    try reflexivity; try assumption.
Qed.

End ZeroSize.

(** ** Starting the next read, and the enqueue protocol *)

Section Enqueue.
Context {P : Platform} {B : Build}.

Lemma startNextRead_nil c (s : ReadN.State) :
  pending s = [] -> ReadN.startNextRead c s = Ret tt s.
Proof.
  intros Hq. unfold ReadN.startNextRead, bind at 1, gets. rewrite Hq.
  apply startNextReadLoop_nil. exact Hq.
Qed.

Lemma startNextRead_start c (s : ReadN.State) info rest :
  pending s = info :: rest ->
  r_bufSize_ info <> 0 ->
  ReadN.startNextRead c s =
  Ret tt (setDevice (dev_startRead (r_bufSize_ info) (ctxOf c) (device_ s)) s).
Proof.
  intros Hq Hsize. unfold ReadN.startNextRead, bind at 1, gets.
  rewrite (startNextReadLoop_cons _ c s Hq).
  apply Z.eqb_neq in Hsize. rewrite Hsize. reflexivity.
Qed.

Lemma startNextRead_zero c (s : ReadN.State) info rest h room :
  pending s = info :: rest ->
  r_bufSize_ info = 0 ->
  r_handler_ info = Some h ->
  el_room (el_ s) = S room ->
  r_current_ info = r_start_ info ->
  ReadN.startNextRead c s =
  ReadN.startNextRead c
    (setPending rest
       (setEl (posted (ctxOf c) (completion h (zeroSizeCode info) 0) (el_ s))
          s)).
Proof.
  intros Hq Hsize Hh Hroom Hcur.
  unfold ReadN.startNextRead at 1, bind at 1, gets.
  rewrite (startNextReadLoop_cons _ c s Hq). rewrite Hsize. cbn [Z.eqb].
  rewrite Hq. cbn [length]. unfold bind at 1. unfold ReadN.withFront, zoom.
  rewrite Hq.
  rewrite (invokeHandler_posted_0 (HI:=ReadInfo_Info) _ c (el_ s) info
             Hh Hroom Hcur).
  unfold bind at 1. unfold ReadN.popFront. cbn [pending setPending setEl].
  unfold ReadN.startNextRead, bind at 1, gets. reflexivity.
Qed.

Lemma asyncReadUntilN_running buf size pred func (s : ReadN.State) d :
  dev_suspend (device_ s) = (true, d) ->
  ReadN.full (pending s) = false ->
  ReadN.asyncReadUntil buf size pred func s =
  Ret tt
    (setDevice (dev_resume d)
       (setPending (pending s ++ [mkReadInfo buf size func pred]) s)).
Proof.
  intros Hs Hfull. unfold ReadN.asyncReadUntil.
  unfold bind at 1, callDevice. rewrite Hs.
  unfold bind at 1, gets. cbn [pending setDevice]. rewrite Hfull.
  unfold bind at 1. cbn [negb]. rewrite GASSERT_true.
  unfold bind at 1, ReadN.emplaceBack. cbn [pending setDevice].
  rewrite Hfull. reflexivity.
Qed.

Lemma asyncReadUntilN_idle buf size pred func (s : ReadN.State) d :
  dev_suspend (device_ s) = (false, d) ->
  pending s = [] ->
  TMaxPendingReads <> 0%nat ->
  ReadN.asyncReadUntil buf size pred func s =
  ReadN.startNextRead false
    (setPending [mkReadInfo buf size func pred] (setDevice d s)).
Proof.
  intros Hs Hq Hcap.
  assert (Hfull : ReadN.full (pending s) = false).
  { rewrite Hq. unfold ReadN.full. cbn [length].
    destruct TMaxPendingReads; [contradiction | reflexivity]. }
  unfold ReadN.asyncReadUntil.
  unfold bind at 1, callDevice. rewrite Hs.
  unfold bind at 1, gets. cbn [pending setDevice]. rewrite Hfull.
  unfold bind at 1. cbn [negb]. rewrite GASSERT_true.
  unfold bind at 1, ReadN.emplaceBack. cbn [pending setDevice].
  rewrite Hfull. unfold bind at 1, gets. cbn [pending setPending].
  rewrite Hq. cbn [app length Nat.eqb]. unfold bind at 1.
  rewrite GASSERT_true. reflexivity.
Qed.

End Enqueue.

(** C4 (as amended).  A zero-size request completes without the device
    being asked to start a transfer.
    - Single-slot read engine: [asyncRead(buf, 0, h)] posts
      [(Success, 0)], and [asyncReadUntil(buf, 0, pred, h)] with a
      predicate posts [(BufferOverflow, 0)], at once and from event-loop
      context; the device is not touched.
    - Write engine: [asyncWrite(buf, 0, h)] posts [(Success, 0)] at
      once; the device is not touched.
    - Queued read engine, no read in flight: the request is posted at
      once with [(Success, 0)], or [(BufferOverflow, 0)] when it has a
      predicate; of the device only [suspend] is called.
    - Queued read engine, a read in flight: the request is queued and
      nothing is posted by the call; when [startNextRead] finds it at
      the front it posts the same completion, pops it and goes on to
      the next entry, without a call of the device for it. *)
Theorem zero_size_requests_complete_without_device
    {P : Platform} {B : Build} :
  (forall buf func (s : Read1.State) room,
      r_handler_ (pending s) = None ->
      el_room (el_ s) = S room ->
      exists s',
        Read1.asyncRead buf 0 func s = Ret tt s' /\
        el_posted (el_ s') =
          el_posted (el_ s) ++
          [(EventLoopContext, completion func Success 0)] /\
        device_ s' = device_ s /\
        r_handler_ (pending s') = None) /\
  (forall buf pred func (s : Read1.State) room,
      readUntilValid = true ->
      r_handler_ (pending s) = None ->
      el_room (el_ s) = S room ->
      exists s',
        Read1.asyncReadUntil buf 0 (Some pred) func s = Ret tt s' /\
        el_posted (el_ s') =
          el_posted (el_ s) ++
          [(EventLoopContext, completion func BufferOverflow 0)] /\
        device_ s' = device_ s /\
        r_handler_ (pending s') = None) /\
  (forall buf func (s : Write1.State) room,
      w_handler_ (pending s) = None ->
      el_room (el_ s) = S room ->
      exists s',
        Write1.asyncWrite buf 0 func s = Ret tt s' /\
        el_posted (el_ s') =
          el_posted (el_ s) ++
          [(EventLoopContext, completion func Success 0)] /\
        device_ s' = device_ s /\
        w_handler_ (pending s') = None) /\
  (forall buf pred func (s : ReadN.State) d room,
      dev_suspend (device_ s) = (false, d) ->
      pending s = [] ->
      TMaxPendingReads <> 0%nat ->
      el_room (el_ s) = S room ->
      exists s',
        ReadN.asyncReadUntil buf 0 pred func s = Ret tt s' /\
        el_posted (el_ s') =
          el_posted (el_ s) ++
          [(EventLoopContext,
            completion func
              (if readUntilValid && isSet pred then BufferOverflow
               else Success) 0)] /\
        device_ s' = d /\
        pending s' = []) /\
  (forall buf pred func (s : ReadN.State) d,
      dev_suspend (device_ s) = (true, d) ->
      ReadN.full (pending s) = false ->
      exists s',
        ReadN.asyncReadUntil buf 0 pred func s = Ret tt s' /\
        el_ s' = el_ s /\
        device_ s' = dev_resume d /\
        pending s' = pending s ++ [mkReadInfo buf 0 func pred]) /\
  (forall c (s : ReadN.State) info rest h room,
      pending s = info :: rest ->
      r_bufSize_ info = 0 ->
      r_handler_ info = Some h ->
      el_room (el_ s) = S room ->
      r_current_ info = r_start_ info ->
      ReadN.startNextRead c s =
      ReadN.startNextRead c
        (setPending rest
           (setEl (posted (ctxOf c)
                     (completion h
                        (if isSet (r_readUntilPred_ info) then BufferOverflow
                         else Success) 0)
                     (el_ s))
              s))).
Proof.
  repeat match goal with |- _ /\ _ => split end.
  - intros buf func s room Hh Hroom. eexists. split.
    + apply asyncRead1_zero with (room := room); assumption.
    + repeat split.
  - intros buf pred func s room Hv Hh Hroom. eexists. split.
    + apply asyncReadUntil1_zero with (room := room); assumption.
    + repeat split.
  - intros buf func s room Hh Hroom. eexists. split.
    + apply asyncWrite_zero with (room := room); assumption.
    + repeat split.
  - intros buf pred func s d room Hs Hq Hcap Hroom. eexists. split.
    + rewrite (asyncReadUntilN_idle buf 0 pred func s Hs Hq Hcap).
      rewrite (startNextRead_zero false
                 (setPending [mkReadInfo buf 0 func pred] (setDevice d s))
                 (info := mkReadInfo buf 0 func pred) (rest := [])
                 (h := func) (room := room));
        try assumption; try reflexivity.
    + repeat split. simpl. unfold zeroSizeCode, mkReadInfo. simpl.
      destruct readUntilValid, pred; reflexivity.
  - intros buf pred func s d Hs Hfull. eexists. split.
    + apply asyncReadUntilN_running with (d := d); assumption.
    + repeat split.
  - intros c s info rest h room Hq Hsize Hh Hroom Hcur.
    apply startNextRead_zero with (room := room); assumption.
Qed.

Lemma zero_size_requests_complete_without_device_witness :
  (exists s',
      Read1.asyncReadUntil (P:=Inputs.queued) (B:=Sim.checked) 300 0
        (Some (Sim.untilChar 10))
        3%nat Inputs.idleSlot = Ret tt s' /\
      el_posted (el_ s') =
        [(EventLoopContext, Inputs.bound (Some 3%nat) BufferOverflow 0)] /\
      device_ s' = Sim.idle 4) /\
  (exists s',
      Write1.asyncWrite (P:=Inputs.queued) (B:=Sim.checked) 300 0 3%nat
        Inputs.idleWrite =
      Ret tt s' /\
      el_posted (el_ s') =
        [(EventLoopContext, Inputs.bound (Some 3%nat) Success 0)] /\
      device_ s' = Sim.idle 4) /\
  (exists s',
      ReadN.asyncReadUntil (P:=Inputs.queued) (B:=Sim.checked) 300 0 None 3%nat
        Inputs.idleQueued = Ret tt s' /\
      el_posted (el_ s') =
        [(EventLoopContext, Inputs.bound (Some 3%nat) Success 0)] /\
      device_ s' = Sim.idle 4).
Proof.
  destruct (@zero_size_requests_complete_without_device
              Inputs.queued Sim.checked)
    as (_ & Huntil & Hwrite & Hidle & _).
  split; [|split].
  - destruct (Huntil 300 (Sim.untilChar 10) 3%nat Inputs.idleSlot 7%nat)
      as (s' & Hret & Hposted & Hdev & _); try reflexivity.
    exists s'. repeat split; assumption.
  - destruct (Hwrite 300 3%nat Inputs.idleWrite 7%nat)
      as (s' & Hret & Hposted & Hdev & _); try reflexivity.
    exists s'. repeat split; assumption.
  - destruct (Hidle 300 None 3%nat Inputs.idleQueued (Sim.idle 4) 7%nat)
      as (s' & Hret & Hposted & Hdev & _); try reflexivity.
    + discriminate.
    + exists s'. repeat split; assumption.
Defined.

(** C4, the claim as stated fails: it has [asyncRead(buf, 0, h)] post
    the handler with [(Success, 0)].  Submitted to the queued engine
    while a read is in flight, the call returns with nothing posted and
    the request waiting in the queue behind the one in flight. *)
Lemma zero_size_read_waits_behind_read_in_flight :
  Sim.ending
    (ReadN.asyncRead (P:=Inputs.queued) (B:=Sim.checked) 300 0 2%nat
       Inputs.busy) =
  Sim.Returned /\
  Sim.postedOf
    (ReadN.asyncRead (P:=Inputs.queued) (B:=Sim.checked) 300 0 2%nat
       Inputs.busy) =
  [] /\
  queuedHandlers
    (pending
       (finalState
          (ReadN.asyncRead (P:=Inputs.queued) (B:=Sim.checked) 300 0 2%nat
             Inputs.busy))) =
  [1; 2]%nat.
Proof. repeat split; vm_compute; reflexivity. Qed.

(** ** Cancellation *)

Section Cancel.
Context {P : Platform} {B : Build}.

Lemma abortInfo_abortable (el : EventLoop) (info : ReadInfo) room :
  abortable info ->
  el_room el = S room ->
  ReadN.abortInfo (el, info) =
  Ret tt (postedAll [abortedOf info] el, moveHandler info).
Proof.
  intros (Hh & Hcur & Hrange) Hroom.
  destruct (r_handler_ info) as [h|] eqn:Hh'; [|contradiction].
  unfold ReadN.abortInfo. unfold bind at 1, gets. cbn [snd].
  unfold bind at 1. rewrite GASSERT_holds by (apply Z.ltb_lt; lia).
  rewrite (invokeHandler_posted (HI:=ReadInfo_Info) Aborted false el info
             (h := h) (room := room));
    try assumption; [| simpl; lia].
  unfold postedAll, posted, abortedOf, completion. simpl.
  rewrite Hroom, Hh'. simpl. rewrite Nat.sub_0_r. reflexivity.
Qed.

Lemma postedAll_app l1 l2 (el : EventLoop) :
  postedAll l2 (postedAll l1 el) = postedAll (l1 ++ l2) el.
Proof.
  unfold postedAll. simpl. rewrite <- app_assoc, length_app.
  f_equal. lia.
Qed.

Lemma forEach_abortInfo_abortable (q : list ReadInfo) (el : EventLoop) :
  Forall abortable q ->
  (length q <= el_room el)%nat ->
  ReadN.forEach ReadN.abortInfo q el =
  Ret tt (postedAll (map abortedOf q) el, map moveHandler q).
Proof.
  revert el. induction q as [|info rest IH]; intros el Hall Hroom.
  - simpl. unfold postedAll. simpl. rewrite app_nil_r, Nat.sub_0_r.
    destruct el; reflexivity.
  - inversion Hall as [|? ? Hinfo Hrest]; subst. simpl in Hroom.
    destruct (el_room el) as [|room] eqn:Hel; [lia|].
    cbn [ReadN.forEach].
    rewrite (abortInfo_abortable el Hinfo Hel).
    rewrite IH; [| exact Hrest | unfold postedAll; simpl; lia].
    rewrite postedAll_app. reflexivity.
Qed.

Lemma cancelReadN_aborts (s : ReadN.State) d :
  dev_cancelRead EventLoopContext (device_ s) = (true, d) ->
  Forall abortable (pending s) ->
  (length (pending s) <= el_room (el_ s))%nat ->
  ReadN.cancelRead s =
  Ret true
    (setPending []
       (setEl (postedAll (map abortedOf (pending s)) (el_ s))
          (setDevice d s))).
Proof.
  intros Hc Hall Hroom. unfold ReadN.cancelRead.
  unfold bind at 1, callDevice. rewrite Hc. cbn [negb].
  unfold bind at 1, zoom, elAndPending. cbn [el_ pending setDevice fst snd].
  rewrite (forEach_abortInfo_abortable _ Hall Hroom). reflexivity.
Qed.

Lemma cancelReadN_idle (s : ReadN.State) d :
  dev_cancelRead EventLoopContext (device_ s) = (false, d) ->
  pending s = [] ->
  ReadN.cancelRead s = Ret false (setDevice d s).
Proof.
  intros Hc Hq. unfold ReadN.cancelRead.
  unfold bind at 1, callDevice. rewrite Hc. cbn [negb].
  unfold bind at 1, gets. cbn [pending setDevice]. rewrite Hq.
  unfold bind at 1. cbn [ReadN.empty]. rewrite GASSERT_true. reflexivity.
Qed.

Lemma cancelRead1_aborts (s : Read1.State) d h room :
  dev_cancelRead EventLoopContext (device_ s) = (true, d) ->
  r_handler_ (pending s) = Some h ->
  r_start_ (pending s) <= r_current_ (pending s)
    < r_start_ (pending s) + r_bufSize_ (pending s) ->
  r_current_ (pending s) - r_start_ (pending s) < 2 ^ size_t_bits ->
  el_room (el_ s) = S room ->
  Read1.cancelRead s =
  Ret true
    (setPending (moveHandler (pending s))
       (setEl (posted EventLoopContext
                 (completion h Aborted
                    (r_current_ (pending s) - r_start_ (pending s)))
                 (el_ s))
          (setDevice d s))).
Proof.
  intros Hc Hh Hcur Hrange Hroom. unfold Read1.cancelRead.
  unfold bind at 1, callDevice. rewrite Hc. cbn [negb].
  unfold bind at 1, gets. cbn [pending setDevice]. rewrite Hh.
  unfold bind at 1. cbn [isSet]. rewrite GASSERT_true.
  unfold bind at 1. rewrite GASSERT_holds by (apply Z.ltb_lt; lia).
  unfold bind at 1.
  rewrite (withInfo1_invokeHandler Aborted false (setDevice d s)
             (h := h) (room := room));
    try assumption; [reflexivity | simpl; lia].
Qed.

Lemma cancelRead1_idle (s : Read1.State) d :
  dev_cancelRead EventLoopContext (device_ s) = (false, d) ->
  r_handler_ (pending s) = None ->
  Read1.cancelRead s = Ret false (setDevice d s).
Proof.
  intros Hc Hh. unfold Read1.cancelRead.
  unfold bind at 1, callDevice. rewrite Hc. cbn [negb].
  unfold bind at 1, gets. cbn [pending setDevice]. rewrite Hh.
  unfold bind at 1. cbn [isSet negb]. rewrite GASSERT_true. reflexivity.
Qed.

Lemma cancelWrite_aborts (s : Write1.State) d h room :
  dev_cancelWrite (device_ s) = (true, d) ->
  w_handler_ (pending s) = Some h ->
  w_start_ (pending s) <= w_current_ (pending s)
    < w_start_ (pending s) + w_bufSize_ (pending s) ->
  w_current_ (pending s) - w_start_ (pending s) < 2 ^ size_t_bits ->
  el_room (el_ s) = S room ->
  Write1.cancelWrite s =
  Ret true
    (setPending (moveHandler (pending s))
       (setEl (posted EventLoopContext
                 (completion h Aborted
                    (w_current_ (pending s) - w_start_ (pending s)))
                 (el_ s))
          (setDevice d s))).
Proof.
  intros Hc Hh Hcur Hrange Hroom. unfold Write1.cancelWrite.
  unfold bind at 1, callDevice. rewrite Hc. cbn [negb].
  unfold bind at 1, gets. cbn [pending setDevice]. rewrite Hh.
  unfold bind at 1. cbn [isSet]. rewrite GASSERT_true.
  unfold bind at 1. rewrite GASSERT_holds by (apply Z.ltb_lt; lia).
  unfold bind at 1.
  rewrite (withInfoW_invokeHandler Aborted false (setDevice d s)
             (h := h) (room := room));
    try assumption; [reflexivity | simpl; lia].
Qed.

Lemma cancelWrite_idle (s : Write1.State) d :
  dev_cancelWrite (device_ s) = (false, d) ->
  w_handler_ (pending s) = None ->
  Write1.cancelWrite s = Ret false (setDevice d s).
Proof.
  intros Hc Hh. unfold Write1.cancelWrite.
  unfold bind at 1, callDevice. rewrite Hc. cbn [negb].
  unfold bind at 1, gets. cbn [pending setDevice]. rewrite Hh.
  unfold bind at 1. cbn [isSet negb]. rewrite GASSERT_true. reflexivity.
Qed.

End Cancel.

(** C5, the code at the failing input.  A read of four characters is in
    flight in the queued engine with two characters read, and a
    zero-size read waits behind it; [cancelRead] is called and the
    device cancels.  In a build that checks assertions, [(Aborted, 2)]
    is posted for the first request and then the assertion
    [info.current_ < info.start_ + info.bufSize_] fails on the second:
    its handler is not posted, the queue is not emptied, [true] is not
    returned.  In a build without assertions both requests are aborted,
    the second with [(Aborted, 0)], and the queue is emptied. *)
Theorem cancelRead_asserts_on_queued_zero_size_read :
  Sim.ending
    (run (stepReadN (B:=Sim.checked)) Inputs.zeroBehindRead
       (Inputs.engine (Sim.received [97; 98] (Sim.idle 4)) [])) =
  Sim.FailedAssertion /\
  Sim.postedOf
    (run (stepReadN (B:=Sim.checked)) Inputs.zeroBehindRead
       (Inputs.engine (Sim.received [97; 98] (Sim.idle 4)) [])) =
  [(EventLoopContext, (Some 1%nat, Aborted, 2))] /\
  queuedHandlers
    (pending
       (finalState
          (run (stepReadN (B:=Sim.checked)) Inputs.zeroBehindRead
             (Inputs.engine (Sim.received [97; 98] (Sim.idle 4)) [])))) =
  [2%nat] /\
  Sim.ending
    (run (stepReadN (B:=Sim.unchecked)) Inputs.zeroBehindRead
       (Inputs.engine (Sim.received [97; 98] (Sim.idle 4)) [])) =
  Sim.Returned /\
  Sim.postedOf
    (run (stepReadN (B:=Sim.unchecked)) Inputs.zeroBehindRead
       (Inputs.engine (Sim.received [97; 98] (Sim.idle 4)) [])) =
  [(EventLoopContext, (Some 1%nat, Aborted, 2));
   (EventLoopContext, (Some 2%nat, Aborted, 0))] /\
  length
    (pending
       (finalState
          (run (stepReadN (B:=Sim.unchecked)) Inputs.zeroBehindRead
             (Inputs.engine (Sim.received [97; 98] (Sim.idle 4)) [])))) =
  0%nat.
Proof. repeat split; vm_compute; reflexivity. Qed.

(** What [cancelRead] and [cancelWrite] do on the states their
    assertions admit.  With no request outstanding and the device
    reporting that nothing was cancelled, they return [false] and post
    nothing.  With the device reporting a cancelled transfer, every
    pending request abortable and room in the event loop, they post
    [(Aborted, current_ - start_)] for every pending request, from
    event-loop context and in queue order, leave no handler stored (the
    queued engine empties its queue) and return [true]. *)
Theorem cancel_aborts_pending_requests {P : Platform} {B : Build} :
  (forall (s : ReadN.State) d,
      dev_cancelRead EventLoopContext (device_ s) = (false, d) ->
      pending s = [] ->
      ReadN.cancelRead s = Ret false (setDevice d s)) /\
  (forall (s : ReadN.State) d,
      dev_cancelRead EventLoopContext (device_ s) = (true, d) ->
      Forall abortable (pending s) ->
      (length (pending s) <= el_room (el_ s))%nat ->
      ReadN.cancelRead s =
      Ret true
        (setPending []
           (setEl (postedAll (map abortedOf (pending s)) (el_ s))
              (setDevice d s)))) /\
  (forall (s : Read1.State) d,
      dev_cancelRead EventLoopContext (device_ s) = (false, d) ->
      r_handler_ (pending s) = None ->
      Read1.cancelRead s = Ret false (setDevice d s)) /\
  (forall (s : Read1.State) d h room,
      dev_cancelRead EventLoopContext (device_ s) = (true, d) ->
      r_handler_ (pending s) = Some h ->
      abortable (pending s) ->
      el_room (el_ s) = S room ->
      Read1.cancelRead s =
      Ret true
        (setPending (moveHandler (pending s))
           (setEl (posted EventLoopContext
                     (completion h Aborted
                        (r_current_ (pending s) - r_start_ (pending s)))
                     (el_ s))
              (setDevice d s)))) /\
  (forall (s : Write1.State) d,
      dev_cancelWrite (device_ s) = (false, d) ->
      w_handler_ (pending s) = None ->
      Write1.cancelWrite s = Ret false (setDevice d s)) /\
  (forall (s : Write1.State) d h room,
      dev_cancelWrite (device_ s) = (true, d) ->
      w_handler_ (pending s) = Some h ->
      abortableW (pending s) ->
      el_room (el_ s) = S room ->
      Write1.cancelWrite s =
      Ret true
        (setPending (moveHandler (pending s))
           (setEl (posted EventLoopContext
                     (completion h Aborted
                        (w_current_ (pending s) - w_start_ (pending s)))
                     (el_ s))
              (setDevice d s)))).
Proof.
  repeat match goal with |- _ /\ _ => split end.
  - intros. apply cancelReadN_idle; assumption.
  - intros. apply cancelReadN_aborts; assumption.
  - intros. apply cancelRead1_idle; assumption.
  - intros s d h room Hc Hh (_ & Hcur & Hrange) Hroom.
    apply cancelRead1_aborts with (room := room); assumption.
  - intros. apply cancelWrite_idle; assumption.
  - intros s d h room Hc Hh (_ & Hcur & Hrange) Hroom.
    apply cancelWrite_aborts with (room := room); assumption.
Qed.

Lemma cancel_aborts_pending_requests_witness :
  ReadN.cancelRead (B:=Sim.checked) Inputs.busy =
  Ret true
    (setPending []
       (setEl (postedAll
                 [(EventLoopContext, Inputs.bound (Some 1%nat) Aborted 2)]
                 (Sim.emptyLoop 8))
          (setDevice (P:=Inputs.queued) (Sim.idle 4) Inputs.busy))).
Proof.
  destruct (@cancel_aborts_pending_requests Inputs.queued Sim.checked)
    as (_ & Habort & _).
  apply (Habort Inputs.busy (Sim.idle 4)).
  - reflexivity.
  - constructor; [|constructor]. unfold abortable. simpl.
    split; [discriminate|]. split; [lia | reflexivity].
  - simpl. lia.
Defined.

(** ** What a cancel posts where assertions are checked *)

Section Aborted.
Context {P : Platform} {B : Build}.
Hypothesis checked : assertsEnabled = true.



Lemma abortInfo_unfold (el : EventLoop) (info : ReadInfo) :
  ReadN.abortInfo (el, info) =
  if assertsEnabled
     && negb (r_current_ info <? r_start_ info + r_bufSize_ info)
  then AssertFailed (el, info)
  else invokeHandler Aborted false (el, info).
Proof.
  unfold ReadN.abortInfo, bind, gets, GASSERT. simpl.
  destruct (assertsEnabled
            && negb (r_current_ info <? r_start_ info + r_bufSize_ info));
    reflexivity.
Qed.





End Aborted.

Section AbortedSlot.
Context {P : Platform} {B : Build}.



Hypothesis checked : assertsEnabled = true.




End AbortedSlot.



(** ** Invariants that hold in every outcome *)

Lemma preserves_ret {S A} (Inv : S -> Prop) (a : A) : preserves Inv (ret a).
Proof. intros s H. exact H. Qed.

Lemma preserves_gets {S A} (Inv : S -> Prop) (f : S -> A) :
  preserves Inv (gets f).
Proof. intros s H. exact H. Qed.

Lemma preserves_statusStands {P : Platform} {Q} (Inv : Support Q -> Prop)
    es info :
  preserves Inv (statusStands es info).
Proof. intros s H. rewrite statusStands_state. exact H. Qed.

Lemma preserves_undefined {S A} (Inv : S -> Prop) :
  preserves Inv (@undefined S A).
Proof. intros s H. exact H. Qed.

Lemma preserves_outOfFuel {S A} (Inv : S -> Prop) :
  preserves Inv (@outOfFuel S A).
Proof. intros s H. exact H. Qed.

Lemma preserves_GASSERT {B : Build} {S} (Inv : S -> Prop) cond :
  preserves Inv (GASSERT cond).
Proof. intros s H. rewrite GASSERT_state. exact H. Qed.

Lemma preserves_modify {S} (Inv : S -> Prop) (f : S -> S) :
  (forall s, Inv s -> Inv (f s)) -> preserves Inv (modify f).
Proof. intros Hf s H. apply Hf. exact H. Qed.

Lemma preserves_bind {S A B} (Inv : S -> Prop) (m : M S A) (k : A -> M S B) :
  preserves Inv m -> (forall a, preserves Inv (k a)) ->
  preserves Inv (bind m k).
Proof.
  intros Hm Hk s H. unfold bind. specialize (Hm s H).
  destruct (m s) as [a s'| s' | s' | s']; simpl in Hm; try exact Hm.
  apply Hk. exact Hm.
Qed.

Lemma preserves_if {S A} (Inv : S -> Prop) (c : bool) (m1 m2 : M S A) :
  preserves Inv m1 -> preserves Inv m2 ->
  preserves Inv (if c then m1 else m2).
Proof. intros H1 H2. destruct c; assumption. Qed.

Lemma preserves_callDevice {P : Platform} {Q A} (Inv : Support Q -> Prop)
    (f : Device -> A * Device) :
  (forall s d, Inv s -> Inv (setDevice d s)) ->
  preserves Inv (callDevice f).
Proof.
  intros Hd s H. unfold callDevice. destruct (f (device_ s)) as [a d].
  apply Hd. exact H.
Qed.

Lemma preserves_doDevice {P : Platform} {Q} (Inv : Support Q -> Prop)
    (f : Device -> Device) :
  (forall s d, Inv s -> Inv (setDevice d s)) ->
  preserves Inv (doDevice f).
Proof. intros Hd s H. apply Hd. exact H. Qed.

(** ** The cursor stays within the buffer *)

Section Cursor.
Context {P : Platform} {B : Build}.

Lemma cursorBounded_moveHandler (info : ReadInfo) :
  cursorBounded info -> cursorBounded (moveHandler info).
Proof. intros H. exact H. Qed.

Lemma cursorBounded_advanceRead (info : ReadInfo) :
  cursorBounded info ->
  r_current_ info < r_start_ info + r_bufSize_ info ->
  cursorBounded (advanceRead info).
Proof. unfold cursorBounded. simpl. lia. Qed.

Lemma sameOutside_store lo hi m0 m a ch :
  sameOutside lo hi m0 m -> lo <= a < hi ->
  sameOutside lo hi m0 (store a ch m).
Proof.
  intros H Ha x Hx. unfold store.
  destruct (Z.eqb_spec x a) as [-> | Hne]; [contradiction|].
  apply H. exact Hx.
Qed.

(** Whatever [invokeHandler] does, the request block it leaves is the
    one it found, with or without its handler. *)
Lemma invokeHandler_final {I} {HI : Info I} es c (el : EventLoop)
    (info : I) :
  snd (finalState (invokeHandler es c (el, info))) = info \/
  snd (finalState (invokeHandler es c (el, info))) = moveHandler info.
Proof.
  rewrite invokeHandler_unfold.
  destruct (assertsEnabled && negb (isSet (handler_ info)));
    [left; reflexivity|].
  destruct (enqueue (ctxOf c) (boundOf info es) el) as [r el'].
  destruct (assertsEnabled && negb r); right; reflexivity.
Qed.

Section Queued.
Variables (lo hi : Z) (m0 : Memory).

Lemma keptN_setDevice (s : ReadN.State) d :
  keptN lo hi m0 s -> keptN lo hi m0 (setDevice d s).
Proof. intros H. exact H. Qed.

Lemma withFront_invokeHandler_kept es c :
  preserves (keptN lo hi m0) (ReadN.withFront (invokeHandler es c)).
Proof.
  intros s Hk. unfold ReadN.withFront.
  destruct (pending s) as [|info rest] eqn:Hp; [exact Hk|].
  destruct Hk as [Hq Hm]. rewrite Hp in Hq. unfold zoom.
  pose proof (invokeHandler_final (HI:=ReadInfo_Info) es c (el_ s) info)
    as Hfinal.
  inversion Hq as [|? ? Hinfo Hrest]; subst.
  destruct (invokeHandler es c (el_ s, info)) as [u t | t | t | t];
    simpl in Hfinal; (split; [|exact Hm]); simpl;
    (constructor; [|exact Hrest]);
    destruct Hfinal as [-> | ->]; assumption.
Qed.

Lemma popFront_kept : preserves (keptN lo hi m0) ReadN.popFront.
Proof.
  intros s Hk. unfold ReadN.popFront.
  destruct (pending s) as [|info rest] eqn:Hp; [exact Hk|].
  destruct Hk as [Hq Hm]. rewrite Hp in Hq.
  split; [|exact Hm]. simpl. inversion Hq. assumption.
Qed.

Lemma startNextReadLoop_kept fuel c :
  preserves (keptN lo hi m0) (ReadN.startNextReadLoop fuel c).
Proof.
  induction fuel as [|fuel IH]; cbn [ReadN.startNextReadLoop];
    apply preserves_bind; try apply preserves_gets;
    intros [|info rest]; try apply preserves_ret;
    (apply preserves_if;
     [| apply preserves_if; apply preserves_doDevice; intros; assumption]).
  - apply preserves_outOfFuel.
  - apply preserves_bind; [apply withFront_invokeHandler_kept|].
    intros _. apply preserves_bind; [apply popFront_kept|].
    intros _. exact IH.
Qed.

Lemma startNextRead_kept c : preserves (keptN lo hi m0) (ReadN.startNextRead c).
Proof.
  unfold ReadN.startNextRead. apply preserves_bind; [apply preserves_gets|].
  intros q. apply startNextReadLoop_kept.
Qed.

Lemma canReadAfterPop_kept : preserves (keptN lo hi m0) ReadN.canReadAfterPop.
Proof.
  unfold ReadN.canReadAfterPop.
  apply preserves_bind;
    [apply preserves_callDevice; intros; assumption|].
  intros more. apply preserves_if;
    [apply preserves_undefined | apply preserves_ret].
Qed.

End Queued.
End Cursor.

(** ** The loops end within their bound *)

Section Fuel.
Context {P : Platform} {B : Build}.

Lemma invokeHandler_fuel {I} {HI : Info I} es c (t : EventLoop * I) :
  isOutOfFuel (invokeHandler es c t) = false.
Proof.
  destruct t as [el info]. rewrite invokeHandler_unfold.
  destruct (assertsEnabled && negb (isSet (handler_ info)));
    [reflexivity|].
  destruct (enqueue (ctxOf c) (boundOf info es) el) as [r el'].
  destruct (assertsEnabled && negb r); reflexivity.
Qed.

Lemma withFront_invokeHandler_fuel es c (s : ReadN.State) :
  isOutOfFuel (ReadN.withFront (invokeHandler es c) s) = false.
Proof.
  unfold ReadN.withFront. destruct (pending s) as [|info rest];
    [reflexivity|].
  unfold zoom.
  pose proof (invokeHandler_fuel (HI:=ReadInfo_Info) es c (el_ s, info))
    as Hf.
  destruct (invokeHandler es c (el_ s, info)); try reflexivity.
  discriminate Hf.
Qed.

Lemma startNextReadLoop_fuel c fuel :
  forall s : ReadN.State,
    (length (pending s) <= fuel)%nat ->
    isOutOfFuel (ReadN.startNextReadLoop fuel c s) = false.
Proof.
  induction fuel as [|fuel IH]; intros s Hlen;
    (destruct (pending s) as [|info rest] eqn:Hq;
     [rewrite (startNextReadLoop_nil _ _ _ Hq); reflexivity|]);
    simpl in Hlen; [lia|].
  rewrite (startNextReadLoop_cons _ _ _ Hq).
  destruct (r_bufSize_ info =? 0); [|reflexivity].
  unfold bind at 1.
  pose proof (withFront_invokeHandler_fuel (zeroSizeCode info) c s) as Hf.
  destruct (ReadN.withFront (invokeHandler (zeroSizeCode info) c) s)
    as [u s1 | s1 | s1 | s1] eqn:Hw; try reflexivity; [|discriminate Hf].
  apply withFront_Ret_inv in Hw.
  destruct Hw as (info' & rest' & t & Hq' & _ & ->).
  rewrite Hq in Hq'. inversion Hq'. subst info' rest'.
  unfold bind at 1, ReadN.popFront. cbn [pending setPending].
  apply IH. cbn [pending setPending]. lia.
Qed.

Lemma startNextRead_fuel c (s : ReadN.State) :
  isOutOfFuel (ReadN.startNextRead c s) = false.
Proof.
  unfold ReadN.startNextRead, bind at 1, gets.
  apply startNextReadLoop_fuel. lia.
Qed.

Lemma canReadAfterPop_fuel (s : ReadN.State) :
  isOutOfFuel (ReadN.canReadAfterPop s) = false.
Proof.
  unfold ReadN.canReadAfterPop, bind, callDevice.
  destruct (dev_canRead (device_ s)) as [more d]. destruct more; reflexivity.
Qed.

Lemma bind_fuel {S A C} (m : M S A) (k : A -> M S C) s :
  isOutOfFuel (m s) = false ->
  (forall a s', isOutOfFuel (k a s') = false) ->
  isOutOfFuel (bind m k s) = false.
Proof.
  intros Hm Hk. unfold bind. destruct (m s); try reflexivity.
  - apply Hk.
  - discriminate Hm.
Qed.

Lemma GASSERT_fuel {S} cond (s : S) : isOutOfFuel (GASSERT cond s) = false.
Proof. unfold GASSERT. destruct (assertsEnabled && negb cond); reflexivity. Qed.

Lemma popFront_fuel (s : ReadN.State) :
  isOutOfFuel (ReadN.popFront s) = false.
Proof. unfold ReadN.popFront. destruct (pending s); reflexivity. Qed.

(** The remaining cases of a turn of the loop of the queued engine. *)
Lemma canReadLoopN_full fuel (s : ReadN.State) info rest d1 :
  pending s = info :: rest ->
  dev_canRead (device_ s) = (true, d1) ->
  r_start_ info + r_bufSize_ info <= r_current_ info ->
  ReadN.canReadLoop fuel s =
  if assertsEnabled then AssertFailed (setDevice d1 s)
  else Ret tt (setDevice d1 s).
Proof.
  intros Hq Hcan Hfull. apply Z.leb_le in Hfull.
  destruct fuel; cbn [ReadN.canReadLoop];
    unfold bind at 1, callDevice at 1; rewrite Hcan; cbn [negb];
    unfold bind at 1, gets; cbn [pending setDevice]; rewrite Hq, Hfull;
    unfold GASSERT, bind, ret; destruct assertsEnabled; reflexivity.
Qed.

Lemma canReadLoopN_O (s : ReadN.State) info rest d1 :
  pending s = info :: rest ->
  dev_canRead (device_ s) = (true, d1) ->
  r_current_ info < r_start_ info + r_bufSize_ info ->
  ReadN.canReadLoop 0 s = OutOfFuel (setDevice d1 s).
Proof.
  intros Hq Hcan Hroom. apply Z.leb_gt in Hroom.
  cbn [ReadN.canReadLoop].
  unfold bind at 1, callDevice at 1. rewrite Hcan. cbn [negb].
  unfold bind at 1, gets. cbn [pending setDevice]. rewrite Hq, Hroom.
  reflexivity.
Qed.

Lemma canReadLoopN_empty fuel (s : ReadN.State) d1 :
  pending s = [] ->
  dev_canRead (device_ s) = (true, d1) ->
  ReadN.canReadLoop fuel s = Undefined (setDevice d1 s).
Proof.
  intros Hq Hcan.
  destruct fuel; cbn [ReadN.canReadLoop];
    unfold bind at 1, callDevice at 1; rewrite Hcan; cbn [negb];
    unfold bind at 1, gets; cbn [pending setDevice]; rewrite Hq;
    reflexivity.
Qed.

End Fuel.

Section CursorQueued.
Context {P : Platform} {B : Build}.

Variables (lo hi : Z) (m0 : Memory).

(** The loop of the can-read hook of the queued engine, entered with the
    front request occupying [lo, hi): in every outcome the cursors are
    within their buffers and memory outside [lo, hi) is untouched; the
    room left in the buffer is bound enough. *)
Lemma canReadLoopN_kept fuel :
  forall (s : ReadN.State) info rest,
    pending s = info :: rest ->
    r_start_ info = lo ->
    r_start_ info + r_bufSize_ info = hi ->
    keptN lo hi m0 s ->
    keptN lo hi m0 (finalState (ReadN.canReadLoop fuel s)) /\
    ((Z.to_nat (hi - r_current_ info) <= fuel)%nat ->
     isOutOfFuel (ReadN.canReadLoop fuel s) = false).
Proof.
  induction fuel as [|fuel IH]; intros s info rest Hq Hlo Hhi Hk;
    destruct (dev_canRead (device_ s)) as [more d1] eqn:Hcan;
    destruct more.
  - destruct (Z.le_gt_cases (r_start_ info + r_bufSize_ info)
                (r_current_ info)) as [Hfull | Hroom].
    + rewrite (canReadLoopN_full 0 s Hq Hcan Hfull).
      destruct assertsEnabled; (split; [exact Hk | reflexivity]).
    + rewrite (canReadLoopN_O s Hq Hcan Hroom). simpl.
      split; [exact Hk | lia].
  - rewrite (canReadLoopN_done 0 s Hcan). simpl.
    split; [exact Hk | reflexivity].
  - destruct (Z.le_gt_cases (r_start_ info + r_bufSize_ info)
                (r_current_ info)) as [Hfull | Hroom].
    + rewrite (canReadLoopN_full (S fuel) s Hq Hcan Hfull).
      destruct assertsEnabled; (split; [exact Hk | reflexivity]).
    + destruct (dev_read d1) as [ch d2] eqn:Hread.
      rewrite (canReadLoopN_turn fuel s Hq Hcan Hroom Hread).
      destruct Hk as [Hall Hmem]. rewrite Hq in Hall.
      inversion Hall as [|? ? Hinfo Hrest]; subst.
      assert (Hafter : forall d,
                 keptN (r_start_ info) (r_start_ info + r_bufSize_ info) m0
                   (afterRead s info ch d (advanceRead info :: rest))).
      { intros d. split.
        - simpl. constructor; [|exact Hrest].
          apply cursorBounded_advanceRead; assumption.
        - simpl. apply sameOutside_store; [exact Hmem|].
          unfold cursorBounded in Hinfo. lia. }
      destruct (seekedCharFound ch info).
      * destruct (dev_cancelRead InterruptContext d2) as [cancelled d3].
        destruct cancelled.
        -- split.
           ++ assert (Hp : preserves
                             (keptN (r_start_ info)
                                (r_start_ info + r_bufSize_ info) m0)
                             (ReadN.withFront (invokeHandler Success true) ;;
                              ReadN.popFront ;;
                              ReadN.startNextRead true ;;
                              ReadN.canReadAfterPop)).
              { apply preserves_bind;
                  [apply withFront_invokeHandler_kept|].
                intros _. apply preserves_bind; [apply popFront_kept|].
                intros _. apply preserves_bind; [apply startNextRead_kept|].
                intros _. apply canReadAfterPop_kept. }
              apply Hp. apply Hafter.
           ++ intros _. apply bind_fuel;
                [apply withFront_invokeHandler_fuel|].
              intros _ s1. apply bind_fuel; [apply popFront_fuel|].
              intros _ s2. apply bind_fuel; [apply startNextRead_fuel|].
              intros _ s3. apply canReadAfterPop_fuel.
        -- destruct (IH (afterRead s info ch d3 (advanceRead info :: rest))
                       (advanceRead info) rest eq_refl eq_refl eq_refl
                       (Hafter d3)) as [Hkept Hfuel].
           split; [exact Hkept|]. intros Hle. apply Hfuel. simpl. lia.
      * destruct (IH (afterRead s info ch d2 (advanceRead info :: rest))
                    (advanceRead info) rest eq_refl eq_refl eq_refl
                    (Hafter d2)) as [Hkept Hfuel].
        split; [exact Hkept|]. intros Hle. apply Hfuel. simpl. lia.
  - rewrite (canReadLoopN_done (S fuel) s Hcan). simpl.
    split; [exact Hk | reflexivity].
Qed.

End CursorQueued.

Section CursorSlot.
Context {P : Platform} {B : Build}.

Lemma canReadLoop1_full fuel (s : Read1.State) d1 :
  dev_canRead (device_ s) = (true, d1) ->
  r_start_ (pending s) + r_bufSize_ (pending s) <= r_current_ (pending s) ->
  Read1.canReadLoop fuel s =
  if assertsEnabled then AssertFailed (setDevice d1 s)
  else Ret tt (setDevice d1 s).
Proof.
  intros Hcan Hfull. apply Z.leb_le in Hfull.
  destruct fuel; cbn [Read1.canReadLoop];
    unfold bind at 1, callDevice at 1; rewrite Hcan; cbn [negb];
    unfold bind at 1, gets; cbn [pending setDevice]; rewrite Hfull;
    unfold GASSERT, bind, ret; destruct assertsEnabled; reflexivity.
Qed.

Lemma canReadLoop1_O (s : Read1.State) d1 :
  dev_canRead (device_ s) = (true, d1) ->
  r_current_ (pending s) < r_start_ (pending s) + r_bufSize_ (pending s) ->
  Read1.canReadLoop 0 s = OutOfFuel (setDevice d1 s).
Proof.
  intros Hcan Hroom. apply Z.leb_gt in Hroom.
  cbn [Read1.canReadLoop].
  unfold bind at 1, callDevice at 1. rewrite Hcan. cbn [negb].
  unfold bind at 1, gets. cbn [pending setDevice]. rewrite Hroom.
  reflexivity.
Qed.

(** What [invokeHandler] leaves of the single slot, however it ends. *)
Lemma withInfo1_final es c (s : Read1.State) :
  let o := Read1.withInfo (invokeHandler es c) s in
  memory (finalState o) = memory s /\
  device_ (finalState o) = device_ s /\
  (pending (finalState o) = pending s \/
   pending (finalState o) = moveHandler (pending s)) /\
  isOutOfFuel o = false.
Proof.
  unfold Read1.withInfo, zoom, elAndPending.
  pose proof (invokeHandler_final (HI:=ReadInfo_Info) es c (el_ s)
                (pending s)) as Hfinal.
  pose proof (invokeHandler_fuel (HI:=ReadInfo_Info) es c
                (el_ s, pending s)) as Hfuel.
  destruct (invokeHandler es c (el_ s, pending s)) as [u t | t | t | t];
    simpl in *; repeat split; try assumption; discriminate Hfuel.
Qed.

Variables (lo hi : Z) (m0 : Memory).

Lemma canReadLoop1_kept fuel :
  forall (s : Read1.State),
    r_start_ (pending s) = lo ->
    r_start_ (pending s) + r_bufSize_ (pending s) = hi ->
    kept1 lo hi m0 s ->
    kept1 lo hi m0 (finalState (Read1.canReadLoop fuel s)) /\
    ((Z.to_nat (hi - r_current_ (pending s)) <= fuel)%nat ->
     isOutOfFuel (Read1.canReadLoop fuel s) = false).
Proof.
  induction fuel as [|fuel IH]; intros s Hlo Hhi Hk;
    destruct (dev_canRead (device_ s)) as [more d1] eqn:Hcan;
    destruct more.
  - destruct (Z.le_gt_cases (r_start_ (pending s) + r_bufSize_ (pending s))
                (r_current_ (pending s))) as [Hfull | Hroom].
    + rewrite (canReadLoop1_full 0 s Hcan Hfull).
      destruct assertsEnabled; (split; [exact Hk | reflexivity]).
    + rewrite (canReadLoop1_O s Hcan Hroom). simpl.
      split; [exact Hk | lia].
  - rewrite (canReadLoop1_done 0 s Hcan). simpl.
    split; [exact Hk | reflexivity].
  - destruct (Z.le_gt_cases (r_start_ (pending s) + r_bufSize_ (pending s))
                (r_current_ (pending s))) as [Hfull | Hroom].
    + rewrite (canReadLoop1_full (S fuel) s Hcan Hfull).
      destruct assertsEnabled; (split; [exact Hk | reflexivity]).
    + destruct (dev_read d1) as [ch d2] eqn:Hread.
      rewrite (canReadLoop1_turn fuel s Hcan Hroom Hread).
      destruct Hk as [Hinfo Hmem].
      assert (Hafter : forall d q,
                 (q = advanceRead (pending s) \/
                  q = moveHandler (advanceRead (pending s))) ->
                 kept1 lo hi m0 (afterRead s (pending s) ch d q)).
      { intros d q Hq'. split.
        - simpl. destruct Hq' as [-> | ->];
            apply cursorBounded_advanceRead; assumption.
        - simpl. apply sameOutside_store; [exact Hmem|].
          unfold cursorBounded in Hinfo. lia. }
      assert (Hgo : forall d q,
                 (q = advanceRead (pending s) \/
                  q = moveHandler (advanceRead (pending s))) ->
                 forall el,
                 kept1 lo hi m0 (finalState
                          (Read1.canReadLoop fuel
                             (setEl el (afterRead s (pending s) ch d q)))) /\
                 ((Z.to_nat (hi - r_current_ (pending s)) <= S fuel)%nat ->
                  isOutOfFuel
                    (Read1.canReadLoop fuel
                       (setEl el (afterRead s (pending s) ch d q))) = false)).
      { intros d q Hq' el.
        destruct (IH (setEl el (afterRead s (pending s) ch d q)))
          as [Hkept Hfuel].
        - destruct Hq' as [-> | ->]; exact Hlo.
        - destruct Hq' as [-> | ->]; exact Hhi.
        - apply (Hafter d q Hq').
        - split; [exact Hkept|]. intros Hle. apply Hfuel.
          destruct Hq' as [-> | ->]; simpl; lia. }
      destruct (seekedCharFound ch (pending s)).
      * destruct (dev_cancelRead InterruptContext d2) as [cancelled d3].
        destruct cancelled.
        -- unfold bind.
           pose proof (withInfo1_final Success true
                         (afterRead s (pending s) ch d3
                            (advanceRead (pending s))))
             as (Hm & Hd & Hp & Hf).
           destruct (Read1.withInfo (invokeHandler Success true)
                       (afterRead s (pending s) ch d3
                          (advanceRead (pending s))))
             as [u s1 | s1 | s1 | s1] eqn:Hw; simpl in Hm, Hd, Hp, Hf;
             try discriminate Hf.
           ++ replace s1 with
                (setEl (el_ s1)
                   (afterRead s (pending s) ch d3 (pending s1))).
              ** apply Hgo. simpl in Hp. exact Hp.
              ** destruct s1; simpl in *; subst; reflexivity.
           ++ simpl. split; [|reflexivity].
              split; [|rewrite Hm; simpl; apply sameOutside_store;
                        [exact Hmem | unfold cursorBounded in Hinfo; lia]].
              simpl in Hp. destruct Hp as [-> | ->];
                apply cursorBounded_advanceRead; assumption.
           ++ simpl. split; [|reflexivity].
              split; [|rewrite Hm; simpl; apply sameOutside_store;
                        [exact Hmem | unfold cursorBounded in Hinfo; lia]].
              simpl in Hp. destruct Hp as [-> | ->];
                apply cursorBounded_advanceRead; assumption.
        -- apply (Hgo d3 (advanceRead (pending s)) (or_introl eq_refl)
                    (el_ s)).
      * apply (Hgo d2 (advanceRead (pending s)) (or_introl eq_refl) (el_ s)).
  - rewrite (canReadLoop1_done (S fuel) s Hcan). simpl.
    split; [exact Hk | reflexivity].
Qed.

End CursorSlot.

Section CursorWrite.
Context {P : Platform} {B : Build}.

Lemma canWriteLoop_done fuel (s : Write1.State) d :
  dev_canWrite (device_ s) = (false, d) ->
  Write1.canWriteLoop fuel s = Ret tt (setDevice d s).
Proof.
  intros Hcan. destruct fuel; cbn [Write1.canWriteLoop];
    unfold bind, callDevice; rewrite Hcan; reflexivity.
Qed.

Lemma canWriteLoop_full fuel (s : Write1.State) d1 :
  dev_canWrite (device_ s) = (true, d1) ->
  w_start_ (pending s) + w_bufSize_ (pending s) <= w_current_ (pending s) ->
  Write1.canWriteLoop fuel s =
  if assertsEnabled then AssertFailed (setDevice d1 s)
  else Ret tt (setDevice d1 s).
Proof.
  intros Hcan Hfull. apply Z.leb_le in Hfull.
  destruct fuel; cbn [Write1.canWriteLoop];
    unfold bind at 1, callDevice at 1; rewrite Hcan; cbn [negb];
    unfold bind at 1, gets; cbn [pending setDevice]; rewrite Hfull;
    unfold GASSERT, bind, ret; destruct assertsEnabled; reflexivity.
Qed.

Lemma canWriteLoop_O (s : Write1.State) d1 :
  dev_canWrite (device_ s) = (true, d1) ->
  w_current_ (pending s) < w_start_ (pending s) + w_bufSize_ (pending s) ->
  Write1.canWriteLoop 0 s = OutOfFuel (setDevice d1 s).
Proof.
  intros Hcan Hroom. apply Z.leb_gt in Hroom.
  cbn [Write1.canWriteLoop].
  unfold bind at 1, callDevice at 1. rewrite Hcan. cbn [negb].
  unfold bind at 1, gets. cbn [pending setDevice]. rewrite Hroom.
  reflexivity.
Qed.

(** One turn of the loop: the character at the cursor goes to the
    device and the cursor advances. *)
Lemma canWriteLoop_turn fuel (s : Write1.State) d1 :
  dev_canWrite (device_ s) = (true, d1) ->
  w_current_ (pending s) < w_start_ (pending s) + w_bufSize_ (pending s) ->
  Write1.canWriteLoop (S fuel) s =
  Write1.canWriteLoop fuel
    (setPending (Write1.advanceWrite (pending s))
       (setDevice (dev_write (memory s (w_current_ (pending s))) d1) s)).
Proof.
  intros Hcan Hroom. apply Z.leb_gt in Hroom.
  cbn [Write1.canWriteLoop].
  unfold bind at 1, callDevice at 1. rewrite Hcan. cbn [negb].
  unfold bind at 1, gets. cbn [pending setDevice]. rewrite Hroom.
  unfold bind at 1, gets. unfold bind at 1, doDevice, modify.
  unfold bind at 1. reflexivity.
Qed.

Lemma canWriteLoop_kept fuel :
  forall (s : Write1.State),
    cursorBoundedW (pending s) ->
    let o := Write1.canWriteLoop fuel s in
    cursorBoundedW (pending (finalState o)) /\
    memory (finalState o) = memory s /\
    el_ (finalState o) = el_ s /\
    w_start_ (pending (finalState o)) = w_start_ (pending s) /\
    w_bufSize_ (pending (finalState o)) = w_bufSize_ (pending s) /\
    ((Z.to_nat (w_start_ (pending s) + w_bufSize_ (pending s)
                - w_current_ (pending s)) <= fuel)%nat ->
     isOutOfFuel o = false).
Proof.
  induction fuel as [|fuel IH]; intros s Hb;
    destruct (dev_canWrite (device_ s)) as [more d1] eqn:Hcan;
    destruct more; cbv zeta.
  - destruct (Z.le_gt_cases (w_start_ (pending s) + w_bufSize_ (pending s))
                (w_current_ (pending s))) as [Hfull | Hroom].
    + rewrite (canWriteLoop_full 0 s Hcan Hfull).
      destruct assertsEnabled; simpl; (split; [exact Hb|]); repeat split.
    + rewrite (canWriteLoop_O s Hcan Hroom). simpl.
      (split; [exact Hb|]); repeat split. lia.
  - rewrite (canWriteLoop_done 0 s Hcan). simpl.
    (split; [exact Hb|]); repeat split.
  - destruct (Z.le_gt_cases (w_start_ (pending s) + w_bufSize_ (pending s))
                (w_current_ (pending s))) as [Hfull | Hroom].
    + rewrite (canWriteLoop_full (S fuel) s Hcan Hfull).
      destruct assertsEnabled; simpl; (split; [exact Hb|]); repeat split.
    + rewrite (canWriteLoop_turn fuel s Hcan Hroom).
      destruct (IH (setPending (Write1.advanceWrite (pending s))
                      (setDevice
                         (dev_write (memory s (w_current_ (pending s))) d1)
                         s)))
        as (H1 & H2 & H3 & H4 & H5 & H6).
      * unfold cursorBoundedW in *. simpl. lia.
      * split; [exact H1|]. repeat split; try assumption.
        intros Hle. apply H6. simpl. lia.
  - rewrite (canWriteLoop_done (S fuel) s Hcan). simpl.
    (split; [exact Hb|]); repeat split.
Qed.

(** The loop fetches from the buffer only: two runs that differ in what
    memory holds outside [start_, start_ + bufSize_) do the same to the
    device and to the request. *)
Lemma canWriteLoop_reads_buffer_only fuel :
  forall (s : Write1.State) (mem' : Memory),
    cursorBoundedW (pending s) ->
    (forall a,
        w_start_ (pending s) <= a
          < w_start_ (pending s) + w_bufSize_ (pending s) ->
        mem' a = memory s a) ->
    Write1.canWriteLoop fuel (setMemory mem' s) =
    match Write1.canWriteLoop fuel s with
    | Ret u s' => Ret u (setMemory mem' s')
    | AssertFailed s' => AssertFailed (setMemory mem' s')
    | Undefined s' => Undefined (setMemory mem' s')
    | OutOfFuel s' => OutOfFuel (setMemory mem' s')
    end.
Proof.
  induction fuel as [|fuel IH]; intros s mem' Hb Hsame;
    destruct (dev_canWrite (device_ s)) as [more d1] eqn:Hcan;
    destruct more.
  - destruct (Z.le_gt_cases (w_start_ (pending s) + w_bufSize_ (pending s))
                (w_current_ (pending s))) as [Hfull | Hroom].
    + rewrite (canWriteLoop_full 0 s Hcan Hfull).
      rewrite (canWriteLoop_full 0 (setMemory mem' s) (d1 := d1))
        by assumption.
      destruct assertsEnabled; reflexivity.
    + rewrite (canWriteLoop_O s Hcan Hroom).
      rewrite (canWriteLoop_O (setMemory mem' s) (d1 := d1)) by assumption.
      reflexivity.
  - rewrite (canWriteLoop_done 0 s Hcan).
    rewrite (canWriteLoop_done 0 (setMemory mem' s) (d := d1))
      by assumption.
    reflexivity.
  - destruct (Z.le_gt_cases (w_start_ (pending s) + w_bufSize_ (pending s))
                (w_current_ (pending s))) as [Hfull | Hroom].
    + rewrite (canWriteLoop_full (S fuel) s Hcan Hfull).
      rewrite (canWriteLoop_full (S fuel) (setMemory mem' s) (d1 := d1))
        by assumption.
      destruct assertsEnabled; reflexivity.
    + rewrite (canWriteLoop_turn fuel s Hcan Hroom).
      rewrite (canWriteLoop_turn fuel (setMemory mem' s) (d1 := d1))
        by assumption.
      cbn [memory setMemory pending device_].
      rewrite (Hsame (w_current_ (pending s)))
        by (unfold cursorBoundedW in Hb; lia).
      rewrite <- (IH (setPending (Write1.advanceWrite (pending s))
                        (setDevice
                           (dev_write (memory s (w_current_ (pending s))) d1)
                           s)) mem').
      * reflexivity.
      * unfold cursorBoundedW in *. simpl. lia.
      * intros a Ha. apply Hsame. simpl in Ha. exact Ha.
  - rewrite (canWriteLoop_done (S fuel) s Hcan).
    rewrite (canWriteLoop_done (S fuel) (setMemory mem' s) (d := d1))
      by assumption.
    reflexivity.
Qed.

End CursorWrite.

(** ** Every operation keeps the cursors within their buffers *)

Section Bounded.
Context {P : Platform} {B : Build}.

Lemma boundedN_keptN (s : ReadN.State) lo hi :
  boundedN s <-> keptN lo hi (memory s) s.
Proof.
  split.
  - intros H. split; [exact H | intros a _; reflexivity].
  - intros [H _]. exact H.
Qed.

(** An invariant of the queue alone is kept whenever [keptN] is. *)
Lemma boundedN_preserves {A} (m : M ReadN.State A) :
  (forall lo hi m0, preserves (keptN lo hi m0) m) -> preserves boundedN m.
Proof.
  intros Hm s Hb. apply (boundedN_keptN s 0 0) in Hb.
  apply (Hm 0 0 (memory s)) in Hb. destruct Hb as [Hb _]. exact Hb.
Qed.

Lemma forEach_abortInfo_bounded (q : list ReadInfo) (el : EventLoop) :
  Forall cursorBounded q ->
  Forall cursorBounded
    (snd (finalState (ReadN.forEach ReadN.abortInfo q el))).
Proof.
  revert el. induction q as [|info rest IH]; intros el Hq.
  - constructor.
  - inversion Hq as [|? ? Hinfo Hrest]; subst. cbn [ReadN.forEach].
    rewrite abortInfo_unfold.
    destruct (assertsEnabled
              && negb (r_current_ info <? r_start_ info + r_bufSize_ info));
      [exact Hq|].
    pose proof (invokeHandler_final (HI:=ReadInfo_Info) Aborted false el
                  info) as Hfinal.
    destruct (invokeHandler Aborted false (el, info))
      as [u [el1 info1] | [el1 info1] | [el1 info1] | [el1 info1]];
      simpl in Hfinal;
      try (simpl; constructor; [|exact Hrest];
           destruct Hfinal as [-> | ->]; exact Hinfo).
    specialize (IH el1 Hrest).
    destruct (ReadN.forEach ReadN.abortInfo rest el1)
      as [u2 [el2 q2] | [el2 q2] | [el2 q2] | [el2 q2]];
      simpl in *; (constructor; [|exact IH]);
      destruct Hfinal as [-> | ->]; exact Hinfo.
Qed.

Lemma cancelReadN_kept lo hi m0 : preserves (keptN lo hi m0) ReadN.cancelRead.
Proof.
  unfold ReadN.cancelRead.
  apply preserves_bind;
    [apply preserves_callDevice; intros; assumption|].
  intros cancelled. apply preserves_if.
  - apply preserves_bind; [apply preserves_gets|]. intros q.
    apply preserves_bind; [apply preserves_GASSERT|]. intros _.
    apply preserves_ret.
  - apply preserves_bind.
    + intros s [Hq Hm]. unfold zoom, elAndPending. cbn [fst snd].
      pose proof (forEach_abortInfo_bounded (el_ s) Hq) as Hb.
      destruct (ReadN.forEach ReadN.abortInfo (pending s) (el_ s))
        as [u t | t | t | t]; simpl in *; (split; [exact Hb | exact Hm]).
    + intros _. apply preserves_bind; [|intros _; apply preserves_ret].
      apply preserves_modify. intros s [_ Hm]. split; [constructor|exact Hm].
Qed.

Lemma asyncReadUntilN_kept lo hi m0 buf size pred func :
  0 <= size ->
  preserves (keptN lo hi m0) (ReadN.asyncReadUntil buf size pred func).
Proof.
  intros Hsize. unfold ReadN.asyncReadUntil.
  apply preserves_bind;
    [apply preserves_callDevice; intros; assumption|].
  intros suspended. apply preserves_bind; [apply preserves_gets|].
  intros q. apply preserves_bind; [apply preserves_GASSERT|].
  intros _. apply preserves_bind.
  - intros s [Hq Hm]. unfold ReadN.emplaceBack.
    destruct (ReadN.full (pending s)); [split; assumption|].
    split; [|exact Hm]. simpl. apply Forall_app. split; [exact Hq|].
    constructor; [|constructor]. unfold cursorBounded, mkReadInfo. simpl.
    lia.
  - intros _. apply preserves_if.
    + apply preserves_doDevice. intros; assumption.
    + apply preserves_bind; [apply preserves_gets|]. intros q'.
      apply preserves_bind; [apply preserves_GASSERT|]. intros _.
      apply startNextRead_kept.
Qed.

Lemma readCompleteN_kept lo hi m0 es :
  preserves (keptN lo hi m0) (ReadN.readCompleteInterruptHandler es).
Proof.
  unfold ReadN.readCompleteInterruptHandler.
  apply preserves_bind; [apply preserves_gets|]. intros q.
  apply preserves_bind; [apply preserves_GASSERT|]. intros _.
  destruct q as [|info rest]; [apply preserves_undefined|].
  apply preserves_bind; [apply preserves_GASSERT|]. intros _.
  apply preserves_bind; [apply preserves_statusStands|]. intros stands.
  apply preserves_bind.
  - apply preserves_if; apply withFront_invokeHandler_kept.
  - intros _. apply preserves_bind; [apply popFront_kept|].
    intros _. apply startNextRead_kept.
Qed.

Lemma canReadInterruptHandlerN_kept (s : ReadN.State) info rest :
  pending s = info :: rest ->
  boundedN s ->
  keptN (r_start_ info) (r_start_ info + r_bufSize_ info) (memory s)
    (finalState (ReadN.canReadInterruptHandler s)) /\
  isOutOfFuel (ReadN.canReadInterruptHandler s) = false.
Proof.
  intros Hq Hb. rewrite (canReadInterruptHandlerN_loop s Hq).
  destruct (canReadLoopN_kept (m0 := memory s)
              (Z.to_nat (r_start_ info + r_bufSize_ info - r_current_ info))
              Hq eq_refl eq_refl) as [Hk Hf].
  - apply boundedN_keptN. exact Hb.
  - split; [exact Hk | apply Hf; lia].
Qed.

Lemma canReadInterruptHandlerN_empty (s : ReadN.State) :
  pending s = [] ->
  pending (finalState (ReadN.canReadInterruptHandler s)) = [] /\
  memory (finalState (ReadN.canReadInterruptHandler s)) = memory s /\
  isOutOfFuel (ReadN.canReadInterruptHandler s) = false.
Proof.
  intros Hq. unfold ReadN.canReadInterruptHandler, bind, gets, GASSERT,
    callDevice, undefined, ret.
  rewrite Hq. cbn [ReadN.empty negb].
  destruct (assertsEnabled && true); simpl;
    [repeat split; assumption|].
  destruct (dev_canRead (device_ s)) as [more d].
  destruct more; simpl; repeat split; assumption.
Qed.

End Bounded.

Section BoundedSteps.
Context {P : Platform} {B : Build}.

Lemma stepReadN_bounded e (s : ReadN.State) :
  sizeIsNatural e -> boundedN s -> boundedN (finalState (stepReadN e s)).
Proof.
  intros Hsize Hb. destruct e as [buf size func | buf size pred func | | | es];
    cbn [stepReadN].
  - revert s Hb. apply boundedN_preserves. intros lo hi m0.
    apply asyncReadUntilN_kept. exact Hsize.
  - revert s Hb. apply boundedN_preserves. intros lo hi m0.
    apply asyncReadUntilN_kept. exact Hsize.
  - revert s Hb. apply boundedN_preserves. intros lo hi m0.
    apply preserves_bind; [apply cancelReadN_kept|].
    intros _. apply preserves_ret.
  - destruct (pending s) as [|info rest] eqn:Hq.
    + destruct (canReadInterruptHandlerN_empty s Hq) as (Hp & _ & _).
      unfold boundedN. rewrite Hp. constructor.
    + destruct (canReadInterruptHandlerN_kept Hq Hb) as [[Hk _] _].
      exact Hk.
  - revert s Hb. apply boundedN_preserves. intros lo hi m0.
    apply readCompleteN_kept.
Qed.

Lemma withInfo1_bounded es c :
  preserves bounded1 (Read1.withInfo (invokeHandler es c)).
Proof.
  intros s Hb. destruct (withInfo1_final es c s) as (_ & _ & Hp & _).
  unfold bounded1. destruct Hp as [-> | ->]; exact Hb.
Qed.

Lemma bounded1_setDevice (s : Read1.State) d :
  bounded1 s -> bounded1 (setDevice d s).
Proof. intros H. exact H. Qed.

Lemma initRead_bounded buf size :
  0 <= size -> preserves bounded1 (Read1.initRead buf size).
Proof.
  intros Hsize s _. unfold Read1.initRead. unfold bind at 1, modify.
  assert (Hb : bounded1
                 (setPending (Read1.setBuffer buf size (pending s)) s)).
  { unfold bounded1, cursorBounded. simpl. lia. }
  revert Hb. generalize (setPending (Read1.setBuffer buf size (pending s)) s).
  intros s1 Hb.
  assert (Hp : preserves bounded1
                 (if size =? 0
                  then info <- gets (@pending _ _) ;;
                       Read1.withInfo (invokeHandler (zeroSizeCode info) false)
                  else doDevice (dev_startRead size EventLoopContext))).
  { apply preserves_if.
    - apply preserves_bind; [apply preserves_gets|]. intros info.
      apply withInfo1_bounded.
    - apply preserves_doDevice. intros; assumption. }
  apply Hp. exact Hb.
Qed.

Lemma asyncReadUntil1_bounded buf size pred func :
  0 <= size ->
  preserves bounded1 (Read1.asyncReadUntil buf size pred func).
Proof.
  intros Hsize. unfold Read1.asyncReadUntil.
  apply preserves_bind; [apply preserves_gets|]. intros info.
  apply preserves_bind; [apply preserves_GASSERT|]. intros _.
  apply preserves_bind; [apply preserves_modify; intros s H; exact H|].
  intros _.
  apply preserves_bind; [apply preserves_modify; intros s H; exact H|].
  intros _. apply initRead_bounded. exact Hsize.
Qed.

Lemma asyncRead1_bounded buf size func :
  0 <= size -> preserves bounded1 (Read1.asyncRead buf size func).
Proof.
  intros Hsize. unfold Read1.asyncRead.
  apply preserves_bind; [apply preserves_gets|]. intros info.
  apply preserves_bind; [apply preserves_GASSERT|]. intros _.
  apply preserves_bind; [apply preserves_modify; intros s H; exact H|].
  intros _.
  apply preserves_bind; [apply preserves_modify; intros s H; exact H|].
  intros _. apply initRead_bounded. exact Hsize.
Qed.

Lemma cancelRead1_bounded : preserves bounded1 Read1.cancelRead.
Proof.
  unfold Read1.cancelRead.
  apply preserves_bind;
    [apply preserves_callDevice; intros; assumption|].
  intros cancelled. apply preserves_if;
    (apply preserves_bind; [apply preserves_gets|]; intros info;
     apply preserves_bind; [apply preserves_GASSERT|]; intros _).
  - apply preserves_ret.
  - apply preserves_bind; [apply preserves_GASSERT|]. intros _.
    apply preserves_bind; [apply withInfo1_bounded|]. intros _.
    apply preserves_ret.
Qed.

Lemma readComplete1_bounded es :
  preserves bounded1 (Read1.readCompleteInterruptHandler es).
Proof.
  unfold Read1.readCompleteInterruptHandler.
  apply preserves_bind; [apply preserves_gets|]. intros info.
  apply preserves_bind; [apply preserves_statusStands|]. intros stands.
  apply preserves_if; apply withInfo1_bounded.
Qed.

Lemma canReadInterruptHandler1_kept (s : Read1.State) :
  bounded1 s ->
  kept1 (r_start_ (pending s))
    (r_start_ (pending s) + r_bufSize_ (pending s)) (memory s)
    (finalState (Read1.canReadInterruptHandler s)) /\
  isOutOfFuel (Read1.canReadInterruptHandler s) = false.
Proof.
  intros Hb. rewrite canReadInterruptHandler1_loop.
  destruct (canReadLoop1_kept (m0 := memory s) (s := s)
              (Z.to_nat (r_start_ (pending s) + r_bufSize_ (pending s)
                         - r_current_ (pending s)))
              eq_refl eq_refl) as [Hk Hf].
  - split; [exact Hb | intros a _; reflexivity].
  - split; [exact Hk | apply Hf; lia].
Qed.

Lemma stepRead1_bounded e (s : Read1.State) :
  sizeIsNatural e -> bounded1 s -> bounded1 (finalState (stepRead1 e s)).
Proof.
  intros Hsize Hb. destruct e as [buf size func | buf size pred func | | | es];
    cbn [stepRead1].
  - apply asyncRead1_bounded; assumption.
  - apply asyncReadUntil1_bounded; assumption.
  - revert s Hb. apply preserves_bind; [apply cancelRead1_bounded|].
    intros _. apply preserves_ret.
  - destruct (canReadInterruptHandler1_kept Hb) as [[Hk _] _]. exact Hk.
  - apply readComplete1_bounded. exact Hb.
Qed.

End BoundedSteps.

Section BoundedWrite.
Context {P : Platform} {B : Build}.

Lemma withInfoW_bounded es c :
  preserves boundedW (Write1.withInfo (invokeHandler es c)).
Proof.
  intros s Hb. unfold Write1.withInfo, zoom, elAndPending.
  pose proof (invokeHandler_final (HI:=WriteInfo_Info) es c (el_ s)
                (pending s)) as Hfinal.
  destruct (invokeHandler es c (el_ s, pending s)) as [u t | t | t | t];
    simpl in *; unfold boundedW; simpl;
    destruct Hfinal as [-> | ->]; exact Hb.
Qed.

Lemma initWrite_bounded buf size :
  0 <= size -> preserves boundedW (Write1.initWrite buf size).
Proof.
  intros Hsize s _. unfold Write1.initWrite. unfold bind at 1, modify.
  assert (Hb : boundedW
                 (setPending (Write1.setBuffer buf size (pending s)) s)).
  { unfold boundedW, cursorBoundedW. simpl. lia. }
  revert Hb.
  generalize (setPending (Write1.setBuffer buf size (pending s)) s).
  intros s1 Hb.
  assert (Hp : preserves boundedW
                 (if size =? 0
                  then Write1.withInfo (invokeHandler Success false)
                  else doDevice (dev_startWrite size))).
  { apply preserves_if.
    - apply withInfoW_bounded.
    - apply preserves_doDevice. intros; assumption. }
  apply Hp. exact Hb.
Qed.

Lemma asyncWrite_bounded buf size func :
  0 <= size -> preserves boundedW (Write1.asyncWrite buf size func).
Proof.
  intros Hsize. unfold Write1.asyncWrite.
  apply preserves_bind; [apply preserves_gets|]. intros info.
  apply preserves_bind; [apply preserves_GASSERT|]. intros _.
  apply preserves_bind; [apply preserves_modify; intros s H; exact H|].
  intros _. apply initWrite_bounded. exact Hsize.
Qed.

Lemma cancelWrite_bounded : preserves boundedW Write1.cancelWrite.
Proof.
  unfold Write1.cancelWrite.
  apply preserves_bind;
    [apply preserves_callDevice; intros; assumption|].
  intros cancelled. apply preserves_if;
    (apply preserves_bind; [apply preserves_gets|]; intros info;
     apply preserves_bind; [apply preserves_GASSERT|]; intros _).
  - apply preserves_ret.
  - apply preserves_bind; [apply preserves_GASSERT|]. intros _.
    apply preserves_bind; [apply withInfoW_bounded|]. intros _.
    apply preserves_ret.
Qed.

Lemma canWriteInterruptHandler_kept (s : Write1.State) :
  boundedW s ->
  boundedW (finalState (Write1.canWriteInterruptHandler s)) /\
  memory (finalState (Write1.canWriteInterruptHandler s)) = memory s /\
  isOutOfFuel (Write1.canWriteInterruptHandler s) = false.
Proof.
  intros Hb.
  destruct (canWriteLoop_kept
              (Z.to_nat (w_start_ (pending s) + w_bufSize_ (pending s)
                         - w_current_ (pending s))) s Hb)
    as (H1 & H2 & _ & _ & _ & H6).
  unfold Write1.canWriteInterruptHandler, bind at 1 2 3, gets.
  split; [exact H1|]. split; [exact H2|]. apply H6. lia.
Qed.

Lemma stepWrite1_bounded e (s : Write1.State) :
  sizeIsNaturalW e -> boundedW s -> boundedW (finalState (stepWrite1 e s)).
Proof.
  intros Hsize Hb. destruct e as [buf size func | | | es]; cbn [stepWrite1].
  - apply asyncWrite_bounded; assumption.
  - revert s Hb. apply preserves_bind; [apply cancelWrite_bounded|].
    intros _. apply preserves_ret.
  - destruct (canWriteInterruptHandler_kept Hb) as [Hk _]. exact Hk.
  - apply withInfoW_bounded. exact Hb.
Qed.

Lemma run_preserves {S E} (step : E -> M S unit) (ok : E -> Prop)
    (Inv : S -> Prop) :
  (forall e s, ok e -> Inv s -> Inv (finalState (step e s))) ->
  forall events s,
    Forall ok events -> Inv s -> Inv (finalState (run step events s)).
Proof.
  intros Hstep events. induction events as [|e rest IH]; intros s Hok Hs.
  - exact Hs.
  - inversion Hok as [|? ? He Hrest]; subst. cbn [run]. unfold bind.
    specialize (Hstep e s He Hs).
    destruct (step e s) as [u s1 | s1 | s1 | s1]; simpl in Hstep;
      try exact Hstep.
    apply IH; assumption.
Qed.

End BoundedWrite.

(** C6.  The cursor stays within the buffer.
    - Over any sequence of operations of an engine (public calls with
      sizes that are not negative, and interrupt hooks), starting from
      pending requests with [start_ <= current_ <= start_ + bufSize_],
      every pending request satisfies the same in the state the sequence
      ends in, however it ends.
    - The can-read hook stores only within the buffer of the front
      request: memory outside [start_, start_ + bufSize_) is as it was.
      The can-write hook stores nothing and fetches only within the
      buffer: changing memory outside [start_, start_ + bufSize_)
      changes nothing of what the hook does.
    - The loops end within the room the buffer has left.
    - When the cursor is at [start_ + bufSize_] and the device reports
      readiness, the loop stops there: a fatal assertion in a build that
      checks assertions, a [break] otherwise; no character is read or
      written, memory and cursor are as they were. *)
Theorem cursor_stays_within_buffer {P : Platform} {B : Build} :
  ((forall events (s : ReadN.State),
       Forall sizeIsNatural events -> boundedN s ->
       boundedN (finalState (run stepReadN events s))) /\
   (forall events (s : Read1.State),
       Forall sizeIsNatural events -> bounded1 s ->
       bounded1 (finalState (run stepRead1 events s))) /\
   (forall events (s : Write1.State),
       Forall sizeIsNaturalW events -> boundedW s ->
       boundedW (finalState (run stepWrite1 events s))))
  /\
  ((forall (s : ReadN.State) info rest,
       pending s = info :: rest -> boundedN s ->
       sameOutside (r_start_ info) (r_start_ info + r_bufSize_ info)
         (memory s) (memory (finalState (ReadN.canReadInterruptHandler s)))
       /\ isOutOfFuel (ReadN.canReadInterruptHandler s) = false) /\
   (forall (s : Read1.State),
       bounded1 s ->
       sameOutside (r_start_ (pending s))
         (r_start_ (pending s) + r_bufSize_ (pending s))
         (memory s) (memory (finalState (Read1.canReadInterruptHandler s)))
       /\ isOutOfFuel (Read1.canReadInterruptHandler s) = false) /\
   (forall (s : Write1.State),
       boundedW s ->
       memory (finalState (Write1.canWriteInterruptHandler s)) = memory s /\
       isOutOfFuel (Write1.canWriteInterruptHandler s) = false /\
       forall mem' : Memory,
         (forall a,
             w_start_ (pending s) <= a
               < w_start_ (pending s) + w_bufSize_ (pending s) ->
             mem' a = memory s a) ->
         Write1.canWriteInterruptHandler (setMemory mem' s) =
         match Write1.canWriteInterruptHandler s with
         | Ret u s' => Ret u (setMemory mem' s')
         | AssertFailed s' => AssertFailed (setMemory mem' s')
         | Undefined s' => Undefined (setMemory mem' s')
         | OutOfFuel s' => OutOfFuel (setMemory mem' s')
         end))
  /\
  ((forall fuel (s : ReadN.State) info rest d,
       pending s = info :: rest ->
       dev_canRead (device_ s) = (true, d) ->
       r_start_ info + r_bufSize_ info <= r_current_ info ->
       ReadN.canReadLoop fuel s =
       if assertsEnabled then AssertFailed (setDevice d s)
       else Ret tt (setDevice d s)) /\
   (forall fuel (s : Read1.State) d,
       dev_canRead (device_ s) = (true, d) ->
       r_start_ (pending s) + r_bufSize_ (pending s)
         <= r_current_ (pending s) ->
       Read1.canReadLoop fuel s =
       if assertsEnabled then AssertFailed (setDevice d s)
       else Ret tt (setDevice d s)) /\
   (forall fuel (s : Write1.State) d,
       dev_canWrite (device_ s) = (true, d) ->
       w_start_ (pending s) + w_bufSize_ (pending s)
         <= w_current_ (pending s) ->
       Write1.canWriteLoop fuel s =
       if assertsEnabled then AssertFailed (setDevice d s)
       else Ret tt (setDevice d s))).
Proof.
  split; [|split].
  - split; [|split].
    + apply run_preserves. apply stepReadN_bounded.
    + apply run_preserves. apply stepRead1_bounded.
    + apply run_preserves. apply stepWrite1_bounded.
  - split; [|split].
    + intros s info rest Hq Hb.
      destruct (canReadInterruptHandlerN_kept Hq Hb) as [[_ Hm] Hf].
      split; assumption.
    + intros s Hb.
      destruct (canReadInterruptHandler1_kept Hb) as [[_ Hm] Hf].
      split; assumption.
    + intros s Hb.
      destruct (canWriteInterruptHandler_kept Hb) as (_ & Hm & Hf).
      split; [exact Hm|]. split; [exact Hf|].
      intros mem' Hsame.
      unfold Write1.canWriteInterruptHandler, bind, gets.
      cbn [pending setMemory].
      apply canWriteLoop_reads_buffer_only; assumption.
  - split; [|split].
    + intros fuel s info rest d Hq Hcan Hfull.
      apply canReadLoopN_full with (info := info) (rest := rest); assumption.
    + intros fuel s d Hcan Hfull. apply canReadLoop1_full; assumption.
    + intros fuel s d Hcan Hfull. apply canWriteLoop_full; assumption.
Qed.

Lemma cursor_stays_within_buffer_witness :
  boundedN
    (finalState
       (run (stepReadN (B:=Sim.checked)) Inputs.queuedReads
          (Inputs.engine (Sim.received [72; 105] (Sim.idle 4)) []))) /\
  sameOutside 100 104 (memory Inputs.oneQueued)
    (memory (finalState (ReadN.canReadInterruptHandler (B:=Sim.checked)
                           Inputs.oneQueued))) /\
  ReadN.canReadLoop (B:=Sim.checked) 3 Inputs.fullBuffer =
  AssertFailed
    (setDevice (P:=Inputs.queued)
       (Sim.reading 3 (Sim.received [120] (Sim.idle 4))) Inputs.fullBuffer).
Proof.
  destruct (@cursor_stays_within_buffer Inputs.queued Sim.checked)
    as ((Hruns & _) & (Hhook & _) & (Hfull & _)).
  split; [|split].
  - apply Hruns.
    + repeat constructor; simpl; lia.
    + constructor.
  - destruct (Hhook Inputs.oneQueued
                (Inputs.readInfo 100 4 0 (Some 1%nat)
                   (Some (Sim.untilChar 10))) [])
      as [Hsame _].
    + reflexivity.
    + constructor; [|constructor]. unfold cursorBounded. simpl. lia.
    + exact Hsame.
  - apply (Hfull 3%nat Inputs.fullBuffer
             (Inputs.readInfo 100 2 2 (Some 1%nat) None) []).
    + reflexivity.
    + reflexivity.
    + simpl. lia.
Defined.


(** ** The enqueue protocol of the queued engine *)

Section EnqueueProtocol.
Context {P : Platform} {B : Build}.

Lemma asyncReadUntilN_full buf size pred func (s : ReadN.State) running d :
  dev_suspend (device_ s) = (running, d) ->
  ReadN.full (pending s) = true ->
  ReadN.asyncReadUntil buf size pred func s =
  if assertsEnabled then AssertFailed (setDevice d s)
  else Undefined (setDevice d s).
Proof.
  intros Hs Hfull. unfold ReadN.asyncReadUntil.
  unfold bind at 1, callDevice. rewrite Hs.
  unfold bind at 1, gets. cbn [pending setDevice]. rewrite Hfull.
  unfold bind at 1, GASSERT. cbn [negb]. rewrite andb_true_r.
  destruct assertsEnabled; [reflexivity|].
  unfold bind at 1, ReadN.emplaceBack. cbn [pending setDevice].
  rewrite Hfull. reflexivity.
Qed.

Lemma asyncReadUntilN_not_alone buf size pred func (s : ReadN.State) d
    info rest :
  dev_suspend (device_ s) = (false, d) ->
  pending s = info :: rest ->
  ReadN.full (pending s) = false ->
  assertsEnabled = true ->
  ReadN.asyncReadUntil buf size pred func s =
  AssertFailed
    (setPending (pending s ++ [mkReadInfo buf size func pred])
       (setDevice d s)).
Proof.
  intros Hs Hq Hfull Hchecked. unfold ReadN.asyncReadUntil.
  unfold bind at 1, callDevice. rewrite Hs.
  unfold bind at 1, gets. cbn [pending setDevice]. rewrite Hfull.
  unfold bind at 1. cbn [negb]. rewrite GASSERT_true.
  unfold bind at 1, ReadN.emplaceBack. cbn [pending setDevice].
  rewrite Hfull. unfold bind at 1, gets. cbn [pending setPending].
  rewrite Hq. cbn [app length]. unfold bind at 1, GASSERT.
  rewrite Hchecked. rewrite length_app. cbn [length].
  replace (Nat.eqb (S (length rest + 1)) 1) with false; [reflexivity|].
  symmetry. apply Nat.eqb_neq. lia.
Qed.

End EnqueueProtocol.

(** C8.  [asyncRead] and [asyncReadUntil] of the queued engine, the
    queue not being full: the device is suspended and the new request
    block, cursor at the start of the buffer, is placed at the back of
    the queue.
    - If the device was running it is resumed and the call returns:
      nothing is posted and no read is started at the device.
    - Otherwise, the queue having been empty, the queue holds exactly
      the new entry and [startNextRead] runs in event-loop context; for
      a size other than zero that starts the read at the device with the
      event-loop context.
    The two preconditions are asserted: a full queue, or a device found
    not running while requests are queued, stop a checking build. *)
Theorem enqueue_protocol_of_queued_reads {P : Platform} {B : Build} :
  (forall buf size func, 
      ReadN.asyncRead buf size func =
      ReadN.asyncReadUntil buf size None func) /\
  (forall buf size pred func (s : ReadN.State) d,
      dev_suspend (device_ s) = (true, d) ->
      ReadN.full (pending s) = false ->
      ReadN.asyncReadUntil buf size pred func s =
      Ret tt
        (setDevice (dev_resume d)
           (setPending (pending s ++ [mkReadInfo buf size func pred]) s))) /\
  (forall buf size pred func (s : ReadN.State) d,
      dev_suspend (device_ s) = (false, d) ->
      pending s = [] ->
      TMaxPendingReads <> 0%nat ->
      ReadN.asyncReadUntil buf size pred func s =
      ReadN.startNextRead false
        (setPending [mkReadInfo buf size func pred] (setDevice d s)) /\
      (size <> 0 ->
       ReadN.asyncReadUntil buf size pred func s =
       Ret tt
         (setDevice (dev_startRead size EventLoopContext d)
            (setPending [mkReadInfo buf size func pred] s)))) /\
  (forall buf size pred func (s : ReadN.State) running d,
      dev_suspend (device_ s) = (running, d) ->
      ReadN.full (pending s) = true ->
      assertsEnabled = true ->
      ReadN.asyncReadUntil buf size pred func s =
      AssertFailed (setDevice d s)) /\
  (forall buf size pred func (s : ReadN.State) d info rest,
      dev_suspend (device_ s) = (false, d) ->
      pending s = info :: rest ->
      ReadN.full (pending s) = false ->
      assertsEnabled = true ->
      ReadN.asyncReadUntil buf size pred func s =
      AssertFailed
        (setPending (pending s ++ [mkReadInfo buf size func pred])
           (setDevice d s))).
Proof.
  split; [reflexivity|].
  split; [intros; apply asyncReadUntilN_running; assumption|].
  split.
  { intros buf size pred func s d Hs Hq Hcap.
    pose proof (asyncReadUntilN_idle buf size pred func s Hs Hq Hcap) as Hidle.
    split; [exact Hidle|].
    intros Hsize. rewrite Hidle.
    rewrite (startNextRead_start false
               (setPending [mkReadInfo buf size func pred] (setDevice d s))
               (info := mkReadInfo buf size func pred) (rest := []));
      [reflexivity | reflexivity | exact Hsize]. }
  split.
  { intros buf size pred func s running d Hs Hfull Hchecked.
    rewrite (asyncReadUntilN_full buf size pred func s Hs Hfull), Hchecked.
    reflexivity. }
  intros buf size pred func s d info rest Hs Hq Hfull Hchecked.
  apply asyncReadUntilN_not_alone with (info := info) (rest := rest);
    assumption.
Qed.

Lemma enqueue_protocol_of_queued_reads_witness :
  ReadN.asyncReadUntil (P:=Inputs.queued) (B:=Sim.checked) 200 2
    (Some (Sim.untilChar 10)) 2%nat Inputs.busy =
  Ret tt
    (Inputs.engine (Sim.reading 2 (Sim.idle 4))
       [Inputs.readInfo 100 4 2 (Some 1%nat) None;
        Inputs.readInfo 200 2 0 (Some 2%nat) (Some (Sim.untilChar 10))]) /\
  ReadN.asyncRead (P:=Inputs.queued) (B:=Sim.checked) 100 4 1%nat
    Inputs.idleQueued =
  Ret tt
    (Inputs.engine (Sim.reading 4 (Sim.idle 4))
       [Inputs.readInfo 100 4 0 (Some 1%nat) None]) /\
  ReadN.asyncReadUntil (P:=Inputs.queued) (B:=Sim.checked) 400 1 None 4%nat
    (Inputs.engine (Sim.reading 2 (Sim.idle 4))
       [Inputs.readInfo 100 4 2 (Some 1%nat) None;
        Inputs.readInfo 200 2 0 (Some 2%nat) None;
        Inputs.readInfo 300 2 0 (Some 3%nat) None]) =
  AssertFailed
    (Inputs.engine (Sim.reading 2 (Sim.idle 4))
       [Inputs.readInfo 100 4 2 (Some 1%nat) None;
        Inputs.readInfo 200 2 0 (Some 2%nat) None;
        Inputs.readInfo 300 2 0 (Some 3%nat) None]) /\
  ReadN.asyncReadUntil (P:=Inputs.queued) (B:=Sim.checked) 200 2 None 2%nat
    (Inputs.engine (Sim.idle 4) [Inputs.readInfo 100 4 2 (Some 1%nat) None]) =
  AssertFailed
    (Inputs.engine (Sim.idle 4)
       [Inputs.readInfo 100 4 2 (Some 1%nat) None;
        Inputs.readInfo 200 2 0 (Some 2%nat) None]).
Proof.
  destruct (@enqueue_protocol_of_queued_reads Inputs.queued Sim.checked)
    as (Hread & Hrunning & Hidle & Hfull & Halone).
  split; [|split; [|split]].
  - apply (Hrunning 200 2 (Some (Sim.untilChar 10)) 2%nat Inputs.busy
             (Sim.reading 2 (Sim.idle 4))); reflexivity.
  - rewrite Hread.
    destruct (Hidle 100 4 None 1%nat Inputs.idleQueued (Sim.idle 4))
      as (_ & Hstart); [reflexivity | reflexivity | discriminate |].
    rewrite Hstart; [reflexivity | discriminate].
  - match goal with
    | |- ReadN.asyncReadUntil _ _ _ _ ?s = _ =>
        apply (Hfull 400 1 None 4%nat s true (Sim.reading 2 (Sim.idle 4)));
          reflexivity
    end.
  - match goal with
    | |- ReadN.asyncReadUntil _ _ _ _ ?s = _ =>
        apply (Halone 200 2 None 2%nat s (Sim.idle 4)
                 (Inputs.readInfo 100 4 2 (Some 1%nat) None) []);
          reflexivity
    end.
Defined.

(** ** Reads that seek no character *)

Section Plain.
Context {P : Platform} {B : Build}.

Lemma seekedCharFound_plain ch info :
  noPredicate info -> seekedCharFound ch info = false.
Proof.
  intros [Hd | Hn];
    [apply seekedCharFound_disabled | apply seekedCharFound_no_pred];
    assumption.
Qed.

Lemma cursorMoved_refl info : cursorMoved info info.
Proof. unfold cursorMoved. repeat split; lia. Qed.

Lemma cursorMoved_advanceRead info info' :
  cursorMoved (advanceRead info) info' -> cursorMoved info info'.
Proof.
  unfold cursorMoved. cbn [advanceRead r_start_ r_bufSize_ r_handler_
                             r_readUntilPred_ r_current_].
  intros (H1 & H2 & H3 & H4 & H5). repeat split; try assumption. lia.
Qed.

Lemma noPredicate_advanceRead info :
  noPredicate info -> noPredicate (advanceRead info).
Proof. intros H. exact H. Qed.

(** The loop of the can-read hook of the queued engine, the front
    request seeking no character: however it ends, nothing was posted
    and the request is still at the front with its handler. *)
Lemma canReadLoopN_plain fuel :
  forall (s : ReadN.State) info rest,
    pending s = info :: rest ->
    noPredicate info ->
    el_ (finalState (ReadN.canReadLoop fuel s)) = el_ s /\
    exists info',
      pending (finalState (ReadN.canReadLoop fuel s)) = info' :: rest /\
      cursorMoved info info'.
Proof.
  induction fuel as [|fuel IH]; intros s info rest Hq Hplain;
    destruct (dev_canRead (device_ s)) as [more d1] eqn:Hcan;
    destruct more.
  - destruct (Z.le_gt_cases (r_start_ info + r_bufSize_ info)
                (r_current_ info)) as [Hfull | Hroom].
    + rewrite (canReadLoopN_full 0 s Hq Hcan Hfull).
      destruct assertsEnabled; (split; [reflexivity|]);
        exists info; (split; [exact Hq | apply cursorMoved_refl]).
    + rewrite (canReadLoopN_O s Hq Hcan Hroom).
      split; [reflexivity|].
      exists info. split; [exact Hq | apply cursorMoved_refl].
  - rewrite (canReadLoopN_done 0 s Hcan).
    split; [reflexivity|].
    exists info. split; [exact Hq | apply cursorMoved_refl].
  - destruct (Z.le_gt_cases (r_start_ info + r_bufSize_ info)
                (r_current_ info)) as [Hfull | Hroom].
    + rewrite (canReadLoopN_full (S fuel) s Hq Hcan Hfull).
      destruct assertsEnabled; (split; [reflexivity|]);
        exists info; (split; [exact Hq | apply cursorMoved_refl]).
    + destruct (dev_read d1) as [ch d2] eqn:Hread.
      rewrite (canReadLoopN_turn fuel s Hq Hcan Hroom Hread).
      rewrite (seekedCharFound_plain ch Hplain).
      destruct (IH (afterRead s info ch d2 (advanceRead info :: rest))
                  (advanceRead info) rest eq_refl
                  (noPredicate_advanceRead Hplain))
        as (Hel & info' & Hq' & Hmoved).
      split; [exact Hel|].
      exists info'. split; [exact Hq'|].
      apply cursorMoved_advanceRead. exact Hmoved.
  - rewrite (canReadLoopN_done (S fuel) s Hcan).
    split; [reflexivity|].
    exists info. split; [exact Hq | apply cursorMoved_refl].
Qed.

(** The same for the single-slot engine. *)
Lemma canReadLoop1_plain fuel :
  forall (s : Read1.State),
    noPredicate (pending s) ->
    el_ (finalState (Read1.canReadLoop fuel s)) = el_ s /\
    cursorMoved (pending s) (pending (finalState (Read1.canReadLoop fuel s))).
Proof.
  induction fuel as [|fuel IH]; intros s Hplain;
    destruct (dev_canRead (device_ s)) as [more d1] eqn:Hcan;
    destruct more.
  - destruct (Z.le_gt_cases (r_start_ (pending s) + r_bufSize_ (pending s))
                (r_current_ (pending s))) as [Hfull | Hroom].
    + rewrite (canReadLoop1_full 0 s Hcan Hfull).
      destruct assertsEnabled;
        (split; [reflexivity | apply cursorMoved_refl]).
    + rewrite (canReadLoop1_O s Hcan Hroom).
      split; [reflexivity | apply cursorMoved_refl].
  - rewrite (canReadLoop1_done 0 s Hcan).
    split; [reflexivity | apply cursorMoved_refl].
  - destruct (Z.le_gt_cases (r_start_ (pending s) + r_bufSize_ (pending s))
                (r_current_ (pending s))) as [Hfull | Hroom].
    + rewrite (canReadLoop1_full (S fuel) s Hcan Hfull).
      destruct assertsEnabled;
        (split; [reflexivity | apply cursorMoved_refl]).
    + destruct (dev_read d1) as [ch d2] eqn:Hread.
      rewrite (canReadLoop1_turn fuel s Hcan Hroom Hread).
      rewrite (seekedCharFound_plain ch Hplain).
      destruct (IH (afterRead s (pending s) ch d2 (advanceRead (pending s)))
                  (noPredicate_advanceRead Hplain))
        as (Hel & Hmoved).
      split; [exact Hel|].
      apply cursorMoved_advanceRead. exact Hmoved.
  - rewrite (canReadLoop1_done (S fuel) s Hcan).
    split; [reflexivity | apply cursorMoved_refl].
Qed.

End Plain.

Section PlainRequests.
Context {P : Platform} {B : Build}.

Lemma noPredicate_mkReadInfo buf size func :
  r_readUntilPred_ (mkReadInfo buf size func None) = None.
Proof. unfold mkReadInfo. simpl. destruct readUntilValid; reflexivity. Qed.

Lemma mkReadInfo_disabled buf size func pred :
  readUntilValid = false ->
  mkReadInfo buf size func pred = mkReadInfo buf size func None.
Proof. intros H. unfold mkReadInfo. rewrite H. reflexivity. Qed.

Lemma setPred_disabled pred :
  readUntilValid = false -> Read1.setPred pred = Read1.setPred None.
Proof. intros H. unfold Read1.setPred. rewrite H. reflexivity. Qed.

Lemma zeroSizeCode_plain info :
  r_readUntilPred_ info = None -> zeroSizeCode info = Success.
Proof. intros H. unfold zeroSizeCode. rewrite H. reflexivity. Qed.

(** A read of the single-slot engine, the slot free and the size not
    zero: the slot holds the request block the queued engine would
    queue, and the read is started at the device. *)
Lemma asyncRead1_start buf size func (s : Read1.State) :
  r_handler_ (pending s) = None ->
  size <> 0 ->
  Read1.asyncRead buf size func s =
  Ret tt
    (setDevice (dev_startRead size EventLoopContext (device_ s))
       (setPending (mkReadInfo buf size func None) s)).
Proof.
  intros Hh Hsize. apply Z.eqb_neq in Hsize. unfold Read1.asyncRead.
  unfold bind at 1, gets. rewrite Hh. cbn [isSet negb].
  unfold bind at 1. rewrite GASSERT_true.
  unfold bind at 1, modify at 1. unfold bind at 1, modify at 1.
  unfold Read1.initRead. unfold bind at 1, modify at 1.
  rewrite Hsize. reflexivity.
Qed.

Lemma canReadInterruptHandlerN_plain (s : ReadN.State) info rest :
  pending s = info :: rest ->
  noPredicate info ->
  el_ (finalState (ReadN.canReadInterruptHandler s)) = el_ s /\
  exists info',
    pending (finalState (ReadN.canReadInterruptHandler s)) = info' :: rest /\
    cursorMoved info info'.
Proof.
  intros Hq Hplain. rewrite (canReadInterruptHandlerN_loop s Hq).
  apply canReadLoopN_plain; assumption.
Qed.

Lemma canReadInterruptHandler1_plain (s : Read1.State) :
  noPredicate (pending s) ->
  el_ (finalState (Read1.canReadInterruptHandler s)) = el_ s /\
  cursorMoved (pending s)
    (pending (finalState (Read1.canReadInterruptHandler s))).
Proof.
  intros Hplain. rewrite canReadInterruptHandler1_loop.
  apply canReadLoop1_plain. exact Hplain.
Qed.

Lemma readCompleteStatus_plain es mem info :
  noPredicate info -> readCompleteStatus es mem info = es.
Proof.
  intros Hplain. apply readCompleteStatus_not_found.
  apply seekedCharFound_plain. exact Hplain.
Qed.

End PlainRequests.

(** C9.  [asyncRead(buf, size, h)] is [asyncReadUntil(buf, size, p, h)]
    with a null predicate [p], in the queued and in the single-slot
    engine; with the read-until facility compiled out every
    [asyncReadUntil] is an [asyncRead].  The request it stores holds no
    predicate, and for such a request:
    - [seekedCharFound] is false for every character;
    - the can-read hook, however it ends, posts nothing and leaves the
      request in place with its handler, only the cursor moved;
    - the zero-size path completes it with [Success];
    - the read-complete hook posts its handler with the status the
      device reported (for a status without error it first loads the
      character before the cursor, which the buffer then has to hold). *)
Theorem asyncRead_is_asyncReadUntil_without_predicate
    {P : Platform} {B : Build} :
  (forall buf size func,
      ReadN.asyncRead buf size func =
      ReadN.asyncReadUntil buf size None func) /\
  (forall buf size func,
      Read1.asyncRead buf size func =
      Read1.asyncReadUntil buf size None func) /\
  (readUntilValid = false ->
   forall buf size pred func,
     ReadN.asyncReadUntil buf size pred func = ReadN.asyncRead buf size func /\
     Read1.asyncReadUntil buf size pred func =
     Read1.asyncRead buf size func) /\
  (forall buf size func,
      r_readUntilPred_ (mkReadInfo buf size func None) = None /\
      forall s : Read1.State,
        r_handler_ (pending s) = None ->
        size <> 0 ->
        Read1.asyncRead buf size func s =
        Ret tt
          (setDevice (dev_startRead size EventLoopContext (device_ s))
             (setPending (mkReadInfo buf size func None) s))) /\
  (forall ch info, noPredicate info -> seekedCharFound ch info = false) /\
  (forall (s : ReadN.State) info rest,
      pending s = info :: rest ->
      noPredicate info ->
      el_ (finalState (ReadN.canReadInterruptHandler s)) = el_ s /\
      exists info',
        pending (finalState (ReadN.canReadInterruptHandler s)) =
        info' :: rest /\
        cursorMoved info info') /\
  (forall s : Read1.State,
      noPredicate (pending s) ->
      el_ (finalState (Read1.canReadInterruptHandler s)) = el_ s /\
      cursorMoved (pending s)
        (pending (finalState (Read1.canReadInterruptHandler s)))) /\
  (forall info, r_readUntilPred_ info = None -> zeroSizeCode info = Success) /\
  (forall buf func (s : Read1.State) room,
      r_handler_ (pending s) = None ->
      el_room (el_ s) = S room ->
      Read1.asyncRead buf 0 func s =
      Ret tt
        (setPending (doneRead buf None)
           (setEl (posted EventLoopContext (completion func Success 0)
                     (el_ s)) s))) /\
  (forall c (s : ReadN.State) info rest h room,
      pending s = info :: rest ->
      r_readUntilPred_ info = None ->
      r_bufSize_ info = 0 ->
      r_handler_ info = Some h ->
      el_room (el_ s) = S room ->
      r_current_ info = r_start_ info ->
      ReadN.startNextRead c s =
      ReadN.startNextRead c
        (setPending rest
           (setEl (posted (ctxOf c) (completion h Success 0) (el_ s)) s))) /\
  (forall es (s : ReadN.State) info rest h room,
      pending s = info :: rest ->
      noPredicate info ->
      r_handler_ info = Some h ->
      el_room (el_ s) = S room ->
      r_start_ info < r_current_ info ->
      r_current_ info - r_start_ info < 2 ^ size_t_bits ->
      isError es = true \/
      r_current_ info <= r_start_ info + r_bufSize_ info ->
      ReadN.readCompleteInterruptHandler es s =
      ReadN.startNextRead true
        (setPending rest
           (setEl (posted InterruptContext
                     (completion h es (r_current_ info - r_start_ info))
                     (el_ s)) s))) /\
  (forall es (s : Read1.State) h room,
      noPredicate (pending s) ->
      r_handler_ (pending s) = Some h ->
      el_room (el_ s) = S room ->
      0 <= r_current_ (pending s) - r_start_ (pending s) < 2 ^ size_t_bits ->
      isError es = true \/
      r_start_ (pending s) < r_current_ (pending s) <=
      r_start_ (pending s) + r_bufSize_ (pending s) ->
      Read1.readCompleteInterruptHandler es s =
      Ret tt
        (setPending (moveHandler (pending s))
           (setEl (posted InterruptContext
                     (completion h es
                        (r_current_ (pending s) - r_start_ (pending s)))
                     (el_ s)) s))).
Proof.
  split; [reflexivity|].
  split; [reflexivity|].
  split.
  { intros Hdisabled buf size pred func. split.
    - unfold ReadN.asyncRead, ReadN.asyncReadUntil.
      rewrite (mkReadInfo_disabled buf size func pred Hdisabled).
      reflexivity.
    - unfold Read1.asyncRead, Read1.asyncReadUntil.
      rewrite (setPred_disabled pred Hdisabled). reflexivity. }
  split.
  { intros buf size func. split; [apply noPredicate_mkReadInfo|].
    intros s Hh Hsize. apply asyncRead1_start; assumption. }
  split; [intros ch info; apply seekedCharFound_plain|].
  split; [intros s info rest; apply canReadInterruptHandlerN_plain|].
  split; [intros s; apply canReadInterruptHandler1_plain|].
  split; [intros info; apply zeroSizeCode_plain|].
  split.
  { intros buf func s room Hh Hroom.
    apply asyncRead1_zero with (room := room); assumption. }
  split.
  { intros c s info rest h room Hq Hnone Hsize Hh Hroom Hcur.
    rewrite (startNextRead_zero c s Hq Hsize Hh Hroom Hcur).
    rewrite (zeroSizeCode_plain info Hnone). reflexivity. }
  split.
  { intros es s info rest h room Hq Hplain Hh Hroom Hlt Hrange Hload.
    rewrite (readCompleteN_closed es s Hq Hh Hroom Hlt Hrange).
    - rewrite (readCompleteStatus_plain es (memory s) Hplain).
      reflexivity.
    - destruct Hload as [He | Hhi]; [left; exact He | right].
      apply lastCharInBuffer_true. split; assumption. }
  intros es s h room Hplain Hh Hroom Hrange Hload.
  rewrite (readComplete1_closed es s Hh Hroom Hrange).
  - rewrite (readCompleteStatus_plain es (memory s) Hplain). reflexivity.
  - destruct Hload as [He | Hin]; [left; exact He | right].
    apply lastCharInBuffer_true. exact Hin.
Qed.

Lemma asyncRead_is_asyncReadUntil_without_predicate_witness :
  ReadN.asyncReadUntil (P:=Sim.platform false 3) (B:=Sim.checked) 100 4
    (Some (Sim.untilChar 10)) 1%nat =
  ReadN.asyncRead (P:=Sim.platform false 3) (B:=Sim.checked) 100 4 1%nat /\
  Read1.asyncRead (P:=Inputs.queued) (B:=Sim.checked) 100 4 1%nat
    Inputs.idleSlot =
  Ret tt
    (Inputs.engine (Sim.reading 4 (Sim.idle 4))
       (Inputs.readInfo 100 4 0 (Some 1%nat) None)) /\
  Sim.postedOf
    (ReadN.canReadInterruptHandler (P:=Inputs.queued) (B:=Sim.checked)
       (Inputs.engine (Sim.reading 2 (Sim.received [10; 120] (Sim.idle 4)))
          [Inputs.readInfo 100 4 2 (Some 1%nat) None])) = [] /\
  Sim.postedOf
    (ReadN.readCompleteInterruptHandler (P:=Inputs.queued) (B:=Sim.checked)
       Success Inputs.fullBuffer) =
  [(InterruptContext, (Some 1%nat, Success, 2))].
Proof.
  destruct (@asyncRead_is_asyncReadUntil_without_predicate
              (Sim.platform false 3) Sim.checked)
    as (_ & _ & Hdisabled & _).
  destruct (@asyncRead_is_asyncReadUntil_without_predicate
              Inputs.queued Sim.checked)
    as (_ & _ & _ & Hstored & _ & HhookN & _ & _ & _ & _ & HcompleteN & _).
  split; [|split; [|split]].
  - apply (Hdisabled eq_refl 100 4 (Some (Sim.untilChar 10)) 1%nat).
  - destruct (Hstored 100 4 1%nat) as (_ & Hstart).
    rewrite (Hstart Inputs.idleSlot);
      [reflexivity | reflexivity | discriminate].
  - unfold Sim.postedOf.
    match goal with
    | |- context [ReadN.canReadInterruptHandler ?s] =>
        destruct (HhookN s (Inputs.readInfo 100 4 2 (Some 1%nat) None) [])
          as (Hel & _); [reflexivity | right; reflexivity |];
          unfold ReadN.State in Hel; rewrite Hel; reflexivity
    end.
  - rewrite (HcompleteN Success Inputs.fullBuffer
               (Inputs.readInfo 100 2 2 (Some 1%nat) None) [] 1%nat 7%nat);
      try reflexivity; right; first [reflexivity | simpl; lia].
Defined.


(** ** The bounds of the loops are enough *)

Section Ends.
Context {P : Platform} {B : Build}.

Lemma ends_ret {S A} (a : A) : ends (@ret S A a).
Proof. intros s. reflexivity. Qed.

Lemma ends_gets {S A} (f : S -> A) : ends (gets f).
Proof. intros s. reflexivity. Qed.

Lemma ends_statusStands {Q} es info : ends (@statusStands _ Q es info).
Proof.
  intros s. unfold statusStands.
  destruct (isError es); [reflexivity|].
  destruct (lastCharInBuffer info); reflexivity.
Qed.

Lemma ends_modify {S} (f : S -> S) : ends (modify f).
Proof. intros s. reflexivity. Qed.

Lemma ends_GASSERT {S} cond : ends (@GASSERT _ S cond).
Proof. intros s. apply GASSERT_fuel. Qed.

Lemma ends_callDevice {Q A} (f : Device -> A * Device) :
  ends (@callDevice _ Q A f).
Proof. intros s. unfold callDevice. destruct (f (device_ s)). reflexivity. Qed.

Lemma ends_doDevice {Q} (f : Device -> Device) : ends (@doDevice _ Q f).
Proof. intros s. reflexivity. Qed.

Lemma ends_bind {S A C} (m : M S A) (k : A -> M S C) :
  ends m -> (forall a, ends (k a)) -> ends (bind m k).
Proof.
  intros Hm Hk s. apply bind_fuel; [apply Hm|]. intros a s'. apply Hk.
Qed.

Lemma ends_if {S A} (c : bool) (m1 m2 : M S A) :
  ends m1 -> ends m2 -> ends (if c then m1 else m2).
Proof. destruct c; intros H1 H2; assumption. Qed.

Lemma ends_zoom {S T A} (get : S -> T) (set : T -> S -> S) (m : M T A) :
  ends m -> ends (zoom get set m).
Proof.
  intros Hm s. unfold zoom. specialize (Hm (get s)).
  destruct (m (get s)); try reflexivity. discriminate Hm.
Qed.

Lemma ends_invokeHandler {I} {HI : Info I} es c :
  ends (invokeHandler (HI:=HI) es c).
Proof. intros t. apply invokeHandler_fuel. Qed.

Lemma ends_startNextRead c : ends (ReadN.startNextRead c).
Proof. intros s. apply startNextRead_fuel. Qed.

Lemma ends_popFront : ends ReadN.popFront.
Proof. intros s. apply popFront_fuel. Qed.

Lemma ends_withFront_invokeHandler es c :
  ends (ReadN.withFront (invokeHandler es c)).
Proof. intros s. apply withFront_invokeHandler_fuel. Qed.

Lemma ends_emplaceBack info : ends (ReadN.emplaceBack info).
Proof.
  intros s. unfold ReadN.emplaceBack.
  destruct (ReadN.full (pending s)); reflexivity.
Qed.

Lemma ends_asyncReadUntilN buf size pred func :
  ends (ReadN.asyncReadUntil buf size pred func).
Proof.
  unfold ReadN.asyncReadUntil.
  apply ends_bind; [apply ends_callDevice|]. intros suspended.
  apply ends_bind; [apply ends_gets|]. intros q.
  apply ends_bind; [apply ends_GASSERT|]. intros _.
  apply ends_bind; [apply ends_emplaceBack|]. intros _.
  apply ends_if; [apply ends_doDevice|].
  apply ends_bind; [apply ends_gets|]. intros q'.
  apply ends_bind; [apply ends_GASSERT|]. intros _.
  apply ends_startNextRead.
Qed.

Lemma ends_abortInfo : ends ReadN.abortInfo.
Proof.
  unfold ReadN.abortInfo.
  apply ends_bind; [apply ends_gets|]. intros info.
  apply ends_bind; [apply ends_GASSERT|]. intros _.
  apply ends_invokeHandler.
Qed.

Lemma forEach_fuel (f : M (EventLoop * ReadInfo) unit) :
  ends f ->
  forall q el, isOutOfFuel (ReadN.forEach f q el) = false.
Proof.
  intros Hf q. induction q as [|info rest IH]; intros el; [reflexivity|].
  cbn [ReadN.forEach]. specialize (Hf (el, info)).
  destruct (f (el, info)) as [u [el' info'] | [el' info'] | [el' info']
                             | [el' info']];
    try reflexivity; [|discriminate Hf].
  specialize (IH el').
  destruct (ReadN.forEach f rest el')
    as [u' [el2 rest'] | [el2 rest'] | [el2 rest'] | [el2 rest']];
    try reflexivity. discriminate IH.
Qed.

Lemma ends_cancelReadN : ends ReadN.cancelRead.
Proof.
  unfold ReadN.cancelRead.
  apply ends_bind; [apply ends_callDevice|]. intros cancelled.
  apply ends_if.
  - apply ends_bind; [apply ends_gets|]. intros q.
    apply ends_bind; [apply ends_GASSERT|]. intros _. apply ends_ret.
  - apply ends_bind.
    + apply ends_zoom. intros t. apply forEach_fuel. apply ends_abortInfo.
    + intros _. apply ends_bind; [apply ends_modify|]. intros _.
      apply ends_ret.
Qed.

Lemma ends_readCompleteN es : ends (ReadN.readCompleteInterruptHandler es).
Proof.
  unfold ReadN.readCompleteInterruptHandler.
  apply ends_bind; [apply ends_gets|]. intros q.
  apply ends_bind; [apply ends_GASSERT|]. intros _.
  destruct q as [|info rest]; [intros s; reflexivity|].
  apply ends_bind; [apply ends_GASSERT|]. intros _.
  apply ends_bind; [apply ends_statusStands|]. intros stands.
  apply ends_bind.
  - apply ends_if; apply ends_withFront_invokeHandler.
  - intros _. apply ends_bind; [apply ends_popFront|]. intros _.
    apply ends_startNextRead.
Qed.

Lemma ends_initRead buf size : ends (Read1.initRead buf size).
Proof.
  unfold Read1.initRead.
  apply ends_bind; [apply ends_modify|]. intros _.
  apply ends_if; [|apply ends_doDevice].
  apply ends_bind; [apply ends_gets|]. intros info.
  apply ends_zoom. apply ends_invokeHandler.
Qed.

Lemma ends_asyncReadUntil1 buf size pred func :
  ends (Read1.asyncReadUntil buf size pred func).
Proof.
  unfold Read1.asyncReadUntil.
  apply ends_bind; [apply ends_gets|]. intros info.
  apply ends_bind; [apply ends_GASSERT|]. intros _.
  apply ends_bind; [apply ends_modify|]. intros _.
  apply ends_bind; [apply ends_modify|]. intros _.
  apply ends_initRead.
Qed.

Lemma ends_cancelRead1 : ends Read1.cancelRead.
Proof.
  unfold Read1.cancelRead.
  apply ends_bind; [apply ends_callDevice|]. intros cancelled.
  apply ends_if; (apply ends_bind; [apply ends_gets|]; intros info).
  - apply ends_bind; [apply ends_GASSERT|]. intros _. apply ends_ret.
  - apply ends_bind; [apply ends_GASSERT|]. intros _.
    apply ends_bind; [apply ends_GASSERT|]. intros _.
    apply ends_bind; [apply ends_zoom, ends_invokeHandler|]. intros _.
    apply ends_ret.
Qed.

Lemma ends_readComplete1 es : ends (Read1.readCompleteInterruptHandler es).
Proof.
  unfold Read1.readCompleteInterruptHandler.
  apply ends_bind; [apply ends_gets|]. intros info.
  apply ends_bind; [apply ends_statusStands|]. intros stands.
  apply ends_if; apply ends_zoom, ends_invokeHandler.
Qed.

Lemma ends_asyncWrite buf size func : ends (Write1.asyncWrite buf size func).
Proof.
  unfold Write1.asyncWrite, Write1.initWrite.
  apply ends_bind; [apply ends_gets|]. intros info.
  apply ends_bind; [apply ends_GASSERT|]. intros _.
  apply ends_bind; [apply ends_modify|]. intros _.
  apply ends_bind; [apply ends_modify|]. intros _.
  apply ends_if; [apply ends_zoom, ends_invokeHandler | apply ends_doDevice].
Qed.

Lemma ends_cancelWrite : ends Write1.cancelWrite.
Proof.
  unfold Write1.cancelWrite.
  apply ends_bind; [apply ends_callDevice|]. intros cancelled.
  apply ends_if; (apply ends_bind; [apply ends_gets|]; intros info).
  - apply ends_bind; [apply ends_GASSERT|]. intros _. apply ends_ret.
  - apply ends_bind; [apply ends_GASSERT|]. intros _.
    apply ends_bind; [apply ends_GASSERT|]. intros _.
    apply ends_bind; [apply ends_zoom, ends_invokeHandler|]. intros _.
    apply ends_ret.
Qed.

Lemma stepReadN_fuel e (s : ReadN.State) :
  boundedN s -> isOutOfFuel (stepReadN e s) = false.
Proof.
  intros Hb. destruct e as [buf size func | buf size pred func | | | es];
    cbn [stepReadN].
  - apply ends_asyncReadUntilN.
  - apply ends_asyncReadUntilN.
  - apply ends_bind; [apply ends_cancelReadN | intros _; apply ends_ret].
  - destruct (pending s) as [|info rest] eqn:Hq.
    + apply (canReadInterruptHandlerN_empty s Hq).
    + apply (canReadInterruptHandlerN_kept Hq Hb).
  - apply ends_readCompleteN.
Qed.

Lemma stepRead1_fuel e (s : Read1.State) :
  bounded1 s -> isOutOfFuel (stepRead1 e s) = false.
Proof.
  intros Hb. destruct e as [buf size func | buf size pred func | | | es];
    cbn [stepRead1].
  - apply (ends_asyncReadUntil1 buf size None func).
  - apply ends_asyncReadUntil1.
  - apply ends_bind; [apply ends_cancelRead1 | intros _; apply ends_ret].
  - apply (canReadInterruptHandler1_kept Hb).
  - apply ends_readComplete1.
Qed.

Lemma stepWrite1_fuel e (s : Write1.State) :
  boundedW s -> isOutOfFuel (stepWrite1 e s) = false.
Proof.
  intros Hb. destruct e as [buf size func | | | es]; cbn [stepWrite1].
  - apply ends_asyncWrite.
  - apply ends_bind; [apply ends_cancelWrite | intros _; apply ends_ret].
  - apply (canWriteInterruptHandler_kept Hb).
  - unfold Write1.writeCompleteInterruptHandler.
    apply ends_zoom, ends_invokeHandler.
Qed.

Lemma run_fuel {S E} (step : E -> M S unit) (ok : E -> Prop)
    (Inv : S -> Prop) :
  (forall e s, ok e -> Inv s -> Inv (finalState (step e s))) ->
  (forall e s, Inv s -> isOutOfFuel (step e s) = false) ->
  forall events s,
    Forall ok events -> Inv s -> isOutOfFuel (run step events s) = false.
Proof.
  intros Hstep Hfuel events.
  induction events as [|e rest IH]; intros s Hok Hs; [reflexivity|].
  inversion Hok as [|? ? He Hrest]; subst. cbn [run]. unfold bind.
  specialize (Hstep e s He Hs). specialize (Hfuel e s Hs).
  destruct (step e s) as [u s1 | s1 | s1 | s1]; try reflexivity.
  - apply IH; assumption.
  - discriminate Hfuel.
Qed.

End Ends.

(** ** Runs the assertions accept *)

Section Transfer.
Context {P : Platform}.
Variables B1 B2 : Build.
Hypothesis checked : @assertsEnabled B1 = true.

Lemma transfers_refl {S A} (m : M S A) : transfers m m.
Proof. intros s a s' H. exact H. Qed.

Lemma transfers_bind {S A C} (m1 m2 : M S A) (k1 k2 : A -> M S C) :
  transfers m1 m2 ->
  (forall a, transfers (k1 a) (k2 a)) ->
  transfers (bind m1 k1) (bind m2 k2).
Proof.
  intros Hm Hk s c s'' H. apply bind_Ret_inv in H.
  destruct H as (a & s' & H1 & H2).
  unfold bind. rewrite (Hm _ _ _ H1). apply Hk. exact H2.
Qed.

Lemma transfers_if {S A} (c : bool) (m1 m2 n1 n2 : M S A) :
  transfers m1 m2 -> transfers n1 n2 ->
  transfers (if c then m1 else n1) (if c then m2 else n2).
Proof. destruct c; intros H1 H2; assumption. Qed.

Lemma transfers_zoom {S T A} (get : S -> T) (set : T -> S -> S)
    (m1 m2 : M T A) :
  transfers m1 m2 -> transfers (zoom get set m1) (zoom get set m2).
Proof.
  intros Hm s a s' H. apply zoom_Ret_inv in H. destruct H as (t & H & ->).
  unfold zoom. rewrite (Hm _ _ _ H). reflexivity.
Qed.

Lemma transfers_GASSERT {S} cond :
  transfers (@GASSERT B1 S cond) (@GASSERT B2 S cond).
Proof.
  intros s u s' H. apply (GASSERT_checked (B:=B1)) in H; [|exact checked].
  destruct H as [-> ->]. destruct u. apply GASSERT_true.
Qed.

Lemma transfers_invokeHandler {I} {HI : Info I} es c :
  transfers (invokeHandler (B:=B1) (HI:=HI) es c)
            (invokeHandler (B:=B2) (HI:=HI) es c).
Proof.
  unfold invokeHandler.
  apply transfers_bind; [apply transfers_refl|]. intros info.
  apply transfers_bind; [apply transfers_GASSERT|]. intros _.
  apply transfers_bind; [apply transfers_refl|]. intros _.
  apply transfers_bind; [apply transfers_refl|]. intros postResult.
  apply transfers_bind; [apply transfers_GASSERT|]. intros _.
  apply transfers_bind; [apply transfers_refl|]. intros info'.
  apply transfers_GASSERT.
Qed.

Lemma transfers_withFront {A} (m1 m2 : M (EventLoop * ReadInfo) A) :
  transfers m1 m2 -> transfers (ReadN.withFront m1) (ReadN.withFront m2).
Proof.
  intros Hm s a s' H. unfold ReadN.withFront in *.
  destruct (pending s) as [|info rest]; [discriminate H|].
  revert H. apply transfers_zoom. exact Hm.
Qed.

Lemma transfers_startNextReadLoop fuel c :
  transfers (ReadN.startNextReadLoop (B:=B1) fuel c)
            (ReadN.startNextReadLoop (B:=B2) fuel c).
Proof.
  induction fuel as [|fuel IH]; cbn [ReadN.startNextReadLoop];
    (apply transfers_bind; [apply transfers_refl|]);
    intros [|info rest]; try apply transfers_refl;
    (apply transfers_if; [|apply transfers_refl]).
  apply transfers_bind;
    [apply transfers_withFront, transfers_invokeHandler|]. intros _.
  apply transfers_bind; [apply transfers_refl|]. intros _.
  exact IH.
Qed.

Lemma transfers_startNextRead c :
  transfers (ReadN.startNextRead (B:=B1) c) (ReadN.startNextRead (B:=B2) c).
Proof.
  unfold ReadN.startNextRead.
  apply transfers_bind; [apply transfers_refl|]. intros q.
  apply transfers_startNextReadLoop.
Qed.

Lemma transfers_asyncReadUntilN buf size pred func :
  transfers (ReadN.asyncReadUntil (B:=B1) buf size pred func)
            (ReadN.asyncReadUntil (B:=B2) buf size pred func).
Proof.
  unfold ReadN.asyncReadUntil.
  apply transfers_bind; [apply transfers_refl|]. intros suspended.
  apply transfers_bind; [apply transfers_refl|]. intros q.
  apply transfers_bind; [apply transfers_GASSERT|]. intros _.
  apply transfers_bind; [apply transfers_refl|]. intros _.
  apply transfers_if; [apply transfers_refl|].
  apply transfers_bind; [apply transfers_refl|]. intros q'.
  apply transfers_bind; [apply transfers_GASSERT|]. intros _.
  apply transfers_startNextRead.
Qed.

Lemma transfers_abortInfo :
  transfers (ReadN.abortInfo (B:=B1)) (ReadN.abortInfo (B:=B2)).
Proof.
  unfold ReadN.abortInfo.
  apply transfers_bind; [apply transfers_refl|]. intros info.
  apply transfers_bind; [apply transfers_GASSERT|]. intros _.
  apply transfers_invokeHandler.
Qed.

Lemma transfers_forEach (f1 f2 : M (EventLoop * ReadInfo) unit) :
  transfers f1 f2 ->
  forall q el u t,
    ReadN.forEach f1 q el = Ret u t -> ReadN.forEach f2 q el = Ret u t.
Proof.
  intros Hf q. induction q as [|info rest IH]; intros el u t H;
    [exact H|].
  cbn [ReadN.forEach] in *.
  destruct (f1 (el, info)) as [u1 [el' info'] | [el' info'] | [el' info']
                              | [el' info']] eqn:H1;
    try discriminate H.
  rewrite (Hf _ _ _ H1).
  destruct (ReadN.forEach f1 rest el')
    as [u2 [el2 rest'] | [el2 rest'] | [el2 rest'] | [el2 rest']] eqn:H2;
    try discriminate H.
  rewrite (IH _ _ _ H2). exact H.
Qed.

Lemma transfers_cancelReadN :
  transfers (ReadN.cancelRead (B:=B1)) (ReadN.cancelRead (B:=B2)).
Proof.
  unfold ReadN.cancelRead.
  apply transfers_bind; [apply transfers_refl|]. intros cancelled.
  apply transfers_if.
  - apply transfers_bind; [apply transfers_refl|]. intros q.
    apply transfers_bind; [apply transfers_GASSERT|]. intros _.
    apply transfers_refl.
  - apply transfers_bind; [|intros _; apply transfers_refl].
    apply transfers_zoom. intros t u t' H.
    apply (transfers_forEach transfers_abortInfo). exact H.
Qed.

Lemma transfers_canReadLoopN fuel :
  transfers (ReadN.canReadLoop (B:=B1) fuel) (ReadN.canReadLoop (B:=B2) fuel).
Proof.
  induction fuel as [|fuel IH]; cbn [ReadN.canReadLoop];
    (apply transfers_bind; [apply transfers_refl|]); intros more;
    (apply transfers_if; [apply transfers_refl|]);
    (apply transfers_bind; [apply transfers_refl|]);
    intros [|info rest]; try apply transfers_refl;
    (apply transfers_if;
     [apply transfers_bind;
      [apply transfers_GASSERT | intros _; apply transfers_refl]|]).
  - apply transfers_refl.
  - apply transfers_bind; [apply transfers_refl|]. intros ch.
    apply transfers_bind; [apply transfers_refl|]. intros _.
    apply transfers_bind; [apply transfers_refl|]. intros _.
    apply transfers_if; [|exact IH].
    apply transfers_bind; [apply transfers_refl|]. intros cancelled.
    apply transfers_if; [|exact IH].
    apply transfers_bind;
      [apply transfers_withFront, transfers_invokeHandler|]. intros _.
    apply transfers_bind; [apply transfers_refl|]. intros _.
    apply transfers_bind; [apply transfers_startNextRead|]. intros _.
    apply transfers_refl.
Qed.

Lemma transfers_canReadInterruptHandlerN :
  transfers (ReadN.canReadInterruptHandler (B:=B1))
            (ReadN.canReadInterruptHandler (B:=B2)).
Proof.
  unfold ReadN.canReadInterruptHandler.
  apply transfers_bind; [apply transfers_refl|]. intros q.
  apply transfers_bind; [apply transfers_GASSERT|]. intros _.
  destruct q as [|info rest]; [apply transfers_refl|].
  apply transfers_canReadLoopN.
Qed.

Lemma transfers_readCompleteN es :
  transfers (ReadN.readCompleteInterruptHandler (B:=B1) es)
            (ReadN.readCompleteInterruptHandler (B:=B2) es).
Proof.
  unfold ReadN.readCompleteInterruptHandler.
  apply transfers_bind; [apply transfers_refl|]. intros q.
  apply transfers_bind; [apply transfers_GASSERT|]. intros _.
  destruct q as [|info rest]; [apply transfers_refl|].
  apply transfers_bind; [apply transfers_GASSERT|]. intros _.
  apply transfers_bind; [apply transfers_refl|]. intros stands.
  apply transfers_bind.
  - apply transfers_if; apply transfers_withFront, transfers_invokeHandler.
  - intros _. apply transfers_bind; [apply transfers_refl|]. intros _.
    apply transfers_startNextRead.
Qed.

Lemma transfers_stepReadN e :
  transfers (stepReadN (B:=B1) e) (stepReadN (B:=B2) e).
Proof.
  destruct e as [buf size func | buf size pred func | | | es];
    cbn [stepReadN].
  - apply transfers_asyncReadUntilN.
  - apply transfers_asyncReadUntilN.
  - apply transfers_bind; [apply transfers_cancelReadN|].
    intros _. apply transfers_refl.
  - apply transfers_canReadInterruptHandlerN.
  - apply transfers_readCompleteN.
Qed.

Lemma transfers_initRead buf size :
  transfers (Read1.initRead (B:=B1) buf size)
            (Read1.initRead (B:=B2) buf size).
Proof.
  unfold Read1.initRead.
  apply transfers_bind; [apply transfers_refl|]. intros _.
  apply transfers_if; [|apply transfers_refl].
  apply transfers_bind; [apply transfers_refl|]. intros info.
  apply transfers_zoom, transfers_invokeHandler.
Qed.

Lemma transfers_asyncReadUntil1 buf size pred func :
  transfers (Read1.asyncReadUntil (B:=B1) buf size pred func)
            (Read1.asyncReadUntil (B:=B2) buf size pred func).
Proof.
  unfold Read1.asyncReadUntil.
  apply transfers_bind; [apply transfers_refl|]. intros info.
  apply transfers_bind; [apply transfers_GASSERT|]. intros _.
  apply transfers_bind; [apply transfers_refl|]. intros _.
  apply transfers_bind; [apply transfers_refl|]. intros _.
  apply transfers_initRead.
Qed.

Lemma transfers_cancelRead1 :
  transfers (Read1.cancelRead (B:=B1)) (Read1.cancelRead (B:=B2)).
Proof.
  unfold Read1.cancelRead.
  apply transfers_bind; [apply transfers_refl|]. intros cancelled.
  apply transfers_if;
    (apply transfers_bind; [apply transfers_refl|]; intros info);
    (apply transfers_bind; [apply transfers_GASSERT|]; intros _);
    [apply transfers_refl|].
  apply transfers_bind; [apply transfers_GASSERT|]. intros _.
  apply transfers_bind; [|intros _; apply transfers_refl].
  apply transfers_zoom, transfers_invokeHandler.
Qed.

Lemma transfers_canReadLoop1 fuel :
  transfers (Read1.canReadLoop (B:=B1) fuel) (Read1.canReadLoop (B:=B2) fuel).
Proof.
  induction fuel as [|fuel IH]; cbn [Read1.canReadLoop];
    (apply transfers_bind; [apply transfers_refl|]); intros more;
    (apply transfers_if; [apply transfers_refl|]);
    (apply transfers_bind; [apply transfers_refl|]); intros info;
    (apply transfers_if;
     [apply transfers_bind;
      [apply transfers_GASSERT | intros _; apply transfers_refl]|]).
  - apply transfers_refl.
  - apply transfers_bind; [apply transfers_refl|]. intros ch.
    apply transfers_bind; [apply transfers_refl|]. intros _.
    apply transfers_bind; [apply transfers_refl|]. intros _.
    apply transfers_bind; [|intros _; exact IH].
    apply transfers_if; [|apply transfers_refl].
    apply transfers_bind; [apply transfers_refl|]. intros cancelled.
    apply transfers_if; [|apply transfers_refl].
    apply transfers_zoom, transfers_invokeHandler.
Qed.

Lemma transfers_readComplete1 es :
  transfers (Read1.readCompleteInterruptHandler (B:=B1) es)
            (Read1.readCompleteInterruptHandler (B:=B2) es).
Proof.
  unfold Read1.readCompleteInterruptHandler.
  apply transfers_bind; [apply transfers_refl|]. intros info.
  apply transfers_bind; [apply transfers_refl|]. intros stands.
  apply transfers_if; apply transfers_zoom, transfers_invokeHandler.
Qed.

Lemma transfers_stepRead1 e :
  transfers (stepRead1 (B:=B1) e) (stepRead1 (B:=B2) e).
Proof.
  destruct e as [buf size func | buf size pred func | | | es];
    cbn [stepRead1].
  - apply (transfers_asyncReadUntil1 buf size None func).
  - apply transfers_asyncReadUntil1.
  - apply transfers_bind; [apply transfers_cancelRead1|].
    intros _. apply transfers_refl.
  - unfold Read1.canReadInterruptHandler.
    apply transfers_bind; [apply transfers_refl|]. intros info.
    apply transfers_canReadLoop1.
  - apply transfers_readComplete1.
Qed.

Lemma transfers_asyncWrite buf size func :
  transfers (Write1.asyncWrite (B:=B1) buf size func)
            (Write1.asyncWrite (B:=B2) buf size func).
Proof.
  unfold Write1.asyncWrite, Write1.initWrite.
  apply transfers_bind; [apply transfers_refl|]. intros info.
  apply transfers_bind; [apply transfers_GASSERT|]. intros _.
  apply transfers_bind; [apply transfers_refl|]. intros _.
  apply transfers_bind; [apply transfers_refl|]. intros _.
  apply transfers_if; [|apply transfers_refl].
  apply transfers_zoom, transfers_invokeHandler.
Qed.

Lemma transfers_cancelWrite :
  transfers (Write1.cancelWrite (B:=B1)) (Write1.cancelWrite (B:=B2)).
Proof.
  unfold Write1.cancelWrite.
  apply transfers_bind; [apply transfers_refl|]. intros cancelled.
  apply transfers_if;
    (apply transfers_bind; [apply transfers_refl|]; intros info);
    (apply transfers_bind; [apply transfers_GASSERT|]; intros _);
    [apply transfers_refl|].
  apply transfers_bind; [apply transfers_GASSERT|]. intros _.
  apply transfers_bind; [|intros _; apply transfers_refl].
  apply transfers_zoom, transfers_invokeHandler.
Qed.

Lemma transfers_canWriteLoop fuel :
  transfers (Write1.canWriteLoop (B:=B1) fuel)
            (Write1.canWriteLoop (B:=B2) fuel).
Proof.
  induction fuel as [|fuel IH]; cbn [Write1.canWriteLoop];
    (apply transfers_bind; [apply transfers_refl|]); intros more;
    (apply transfers_if; [apply transfers_refl|]);
    (apply transfers_bind; [apply transfers_refl|]); intros info;
    (apply transfers_if;
     [apply transfers_bind;
      [apply transfers_GASSERT | intros _; apply transfers_refl]|]).
  - apply transfers_refl.
  - apply transfers_bind; [apply transfers_refl|]. intros mem.
    apply transfers_bind; [apply transfers_refl|]. intros _.
    apply transfers_bind; [apply transfers_refl|]. intros _.
    exact IH.
Qed.

Lemma transfers_stepWrite1 e :
  transfers (stepWrite1 (B:=B1) e) (stepWrite1 (B:=B2) e).
Proof.
  destruct e as [buf size func | | | es]; cbn [stepWrite1].
  - apply transfers_asyncWrite.
  - apply transfers_bind; [apply transfers_cancelWrite|].
    intros _. apply transfers_refl.
  - unfold Write1.canWriteInterruptHandler.
    apply transfers_bind; [apply transfers_refl|]. intros info.
    apply transfers_canWriteLoop.
  - unfold Write1.writeCompleteInterruptHandler.
    apply transfers_zoom, transfers_invokeHandler.
Qed.

Lemma transfers_run {S E} (step1 step2 : E -> M S unit) :
  (forall e, transfers (step1 e) (step2 e)) ->
  forall events, transfers (run step1 events) (run step2 events).
Proof.
  intros Hstep events. induction events as [|e rest IH]; cbn [run].
  - apply transfers_refl.
  - apply transfers_bind; [apply Hstep | intros _; exact IH].
Qed.

End Transfer.

(** The bounds of the loops are enough.  Over any sequence of operations
    of an engine (public calls with sizes that are not negative, and
    interrupt hooks) that starts with the cursors of the pending
    requests within their buffers, no loop of the driver needs more
    turns than its bound allows: the room left in the buffer for the
    loops of the can-read and can-write hooks, the length of the queue
    for [startNextRead]. *)
Theorem runs_end_within_loop_bounds {P : Platform} {B : Build} :
  (forall events (s : ReadN.State),
      Forall sizeIsNatural events -> boundedN s ->
      isOutOfFuel (run stepReadN events s) = false) /\
  (forall events (s : Read1.State),
      Forall sizeIsNatural events -> bounded1 s ->
      isOutOfFuel (run stepRead1 events s) = false) /\
  (forall events (s : Write1.State),
      Forall sizeIsNaturalW events -> boundedW s ->
      isOutOfFuel (run stepWrite1 events s) = false).
Proof.
  split; [|split].
  - apply run_fuel.
    + apply stepReadN_bounded.
    + apply stepReadN_fuel.
  - apply run_fuel.
    + apply stepRead1_bounded.
    + apply stepRead1_fuel.
  - apply run_fuel.
    + apply stepWrite1_bounded.
    + apply stepWrite1_fuel.
Qed.

Lemma runs_end_within_loop_bounds_witness :
  isOutOfFuel
    (run (stepReadN (P:=Inputs.queued) (B:=Sim.checked)) Inputs.queuedReads
       (Inputs.engine (Sim.received [72; 105; 33] (Sim.idle 4)) [])) =
  false /\
  isOutOfFuel
    (run (stepWrite1 (P:=Inputs.queued) (B:=Sim.unchecked))
       Inputs.cancelledWrite Inputs.idleWrite) = false.
Proof.
  destruct (@runs_end_within_loop_bounds Inputs.queued Sim.checked)
    as (HreadN & _ & _).
  destruct (@runs_end_within_loop_bounds Inputs.queued Sim.unchecked)
    as (_ & _ & Hwrite).
  split.
  - apply HreadN.
    + repeat constructor; simpl; lia.
    + constructor.
  - apply Hwrite.
    + repeat constructor; simpl; lia.
    + unfold boundedW, cursorBoundedW. simpl. lia.
Defined.

(** A sequence of operations that a build checking its assertions runs
    to its end is run to the same end, in the same states, by every
    build of the driver: the assertions decide only whether a call is
    accepted.  In particular the handlers posted so far followed by the
    handlers still stored are, in a build without assertions as well,
    those that were there before followed by those submitted since. *)
Theorem accepted_runs_do_not_depend_on_assertions
    {P : Platform} (B1 B2 : Build) :
  @assertsEnabled B1 = true ->
  (forall events (s s' : ReadN.State) u,
      run (stepReadN (B:=B1)) events s = Ret u s' ->
      run (stepReadN (B:=B2)) events s = Ret u s' /\
      handlersN s' = handlersN s ++ flat_map submittedRead events) /\
  (forall events (s s' : Read1.State) u,
      run (stepRead1 (B:=B1)) events s = Ret u s' ->
      run (stepRead1 (B:=B2)) events s = Ret u s' /\
      handlers1 s' = handlers1 s ++ flat_map submittedRead events) /\
  (forall events (s s' : Write1.State) u,
      run (stepWrite1 (B:=B1)) events s = Ret u s' ->
      run (stepWrite1 (B:=B2)) events s = Ret u s' /\
      handlersW s' = handlersW s ++ flat_map submittedWrite events).
Proof.
  intros Hchecked. split; [|split]; intros events s s' u Hrun; split.
  - revert Hrun. apply transfers_run. intros e.
    apply transfers_stepReadN. exact Hchecked.
  - revert Hrun. apply run_conserves. intros e s0 u0 s0'.
    apply (stepReadN_conserves (B:=B1) Hchecked).
  - revert Hrun. apply transfers_run. intros e.
    apply transfers_stepRead1. exact Hchecked.
  - revert Hrun. apply run_conserves. intros e s0 u0 s0'.
    apply (stepRead1_conserves (B:=B1) Hchecked).
  - revert Hrun. apply transfers_run. intros e.
    apply transfers_stepWrite1. exact Hchecked.
  - revert Hrun. apply run_conserves. intros e s0 u0 s0'.
    apply (stepWrite1_conserves (B:=B1) Hchecked).
Qed.

Lemma accepted_runs_do_not_depend_on_assertions_witness :
  Sim.postedOf
    (run (stepReadN (P:=Inputs.queued) (B:=Sim.unchecked)) Inputs.queuedReads
       (Inputs.engine (Sim.received [72; 105; 33] (Sim.idle 4)) [])) =
  [(InterruptContext, (Some 1%nat, Success, 1));
   (InterruptContext, (Some 2%nat, Success, 2));
   (InterruptContext, (Some 3%nat, BufferOverflow, 0))].
Proof.
  destruct (@accepted_runs_do_not_depend_on_assertions Inputs.queued
              Sim.checked Sim.unchecked eq_refl) as (HreadN & _ & _).
  destruct (run (stepReadN (P:=Inputs.queued) (B:=Sim.checked))
              Inputs.queuedReads
              (Inputs.engine (Sim.received [72; 105; 33] (Sim.idle 4)) []))
    as [u s' | s' | s' | s'] eqn:Hrun; try (vm_compute in Hrun; discriminate).
  destruct (HreadN _ _ _ _ Hrun) as [Hsame _].
  rewrite Hsame. vm_compute in Hrun. inversion Hrun. reflexivity.
Defined.


(** ** Invariants of the interrupt loops *)

(** To show that the loop of a hook keeps an invariant in every outcome
    it is enough to show that each of its steps does. *)
Section LoopRules.
Context {P : Platform} {B : Build}.

Lemma canReadLoopN_preserves (Inv : ReadN.State -> Prop) :
  (forall s more d,
      Inv s -> dev_canRead (device_ s) = (more, d) -> Inv (setDevice d s)) ->
  (forall s info rest d1 ch d2,
      Inv s ->
      pending s = info :: rest ->
      r_current_ info < r_start_ info + r_bufSize_ info ->
      dev_canRead (device_ s) = (true, d1) ->
      dev_read d1 = (ch, d2) ->
      Inv (afterRead s info ch d2 (advanceRead info :: rest))) ->
  (forall s cancelled d,
      Inv s ->
      dev_cancelRead InterruptContext (device_ s) = (cancelled, d) ->
      Inv (setDevice d s)) ->
  preserves Inv
    (ReadN.withFront (invokeHandler Success true) ;;
     ReadN.popFront ;;
     ReadN.startNextRead true ;;
     ReadN.canReadAfterPop) ->
  forall fuel, preserves Inv (ReadN.canReadLoop fuel).
Proof.
  intros HcanRead Hturn Hcancel Hfinish.
  induction fuel as [|fuel IH]; intros s Hs;
    destruct (dev_canRead (device_ s)) as [more d1] eqn:Hcan;
    pose proof (HcanRead s more d1 Hs Hcan) as Hs1;
    destruct more;
    try (rewrite (canReadLoopN_done _ s Hcan); exact Hs1);
    (destruct (pending s) as [|info rest] eqn:Hq;
     [rewrite (canReadLoopN_empty _ s Hq Hcan); exact Hs1|]);
    (destruct (Z.le_gt_cases (r_start_ info + r_bufSize_ info)
                 (r_current_ info)) as [Hfull | Hroom];
     [rewrite (canReadLoopN_full _ s Hq Hcan Hfull);
      destruct assertsEnabled; exact Hs1|]).
  - rewrite (canReadLoopN_O s Hq Hcan Hroom). exact Hs1.
  - destruct (dev_read d1) as [ch d2] eqn:Hread.
    rewrite (canReadLoopN_turn fuel s Hq Hcan Hroom Hread).
    pose proof (Hturn s info rest d1 ch d2 Hs Hq Hroom Hcan Hread) as Hs2.
    destruct (seekedCharFound ch info); [|apply IH; exact Hs2].
    destruct (dev_cancelRead InterruptContext d2) as [cancelled d3] eqn:Hc.
    pose proof (Hcancel _ cancelled d3 Hs2 Hc) as Hs3.
    destruct cancelled; [apply Hfinish | apply IH]; exact Hs3.
Qed.

Lemma canReadLoop1_preserves (Inv : Read1.State -> Prop) :
  (forall s more d,
      Inv s -> dev_canRead (device_ s) = (more, d) -> Inv (setDevice d s)) ->
  (forall s d1 ch d2,
      Inv s ->
      r_current_ (pending s) < r_start_ (pending s) + r_bufSize_ (pending s) ->
      dev_canRead (device_ s) = (true, d1) ->
      dev_read d1 = (ch, d2) ->
      Inv (afterRead s (pending s) ch d2 (advanceRead (pending s)))) ->
  (forall s cancelled d,
      Inv s ->
      dev_cancelRead InterruptContext (device_ s) = (cancelled, d) ->
      Inv (setDevice d s)) ->
  preserves Inv (Read1.withInfo (invokeHandler Success true)) ->
  forall fuel, preserves Inv (Read1.canReadLoop fuel).
Proof.
  intros HcanRead Hturn Hcancel Hinvoke.
  induction fuel as [|fuel IH]; intros s Hs;
    destruct (dev_canRead (device_ s)) as [more d1] eqn:Hcan;
    pose proof (HcanRead s more d1 Hs Hcan) as Hs1;
    destruct more;
    try (rewrite (canReadLoop1_done _ s Hcan); exact Hs1);
    (destruct (Z.le_gt_cases (r_start_ (pending s) + r_bufSize_ (pending s))
                 (r_current_ (pending s))) as [Hfull | Hroom];
     [rewrite (canReadLoop1_full _ s Hcan Hfull);
      destruct assertsEnabled; exact Hs1|]).
  - rewrite (canReadLoop1_O s Hcan Hroom). exact Hs1.
  - destruct (dev_read d1) as [ch d2] eqn:Hread.
    rewrite (canReadLoop1_turn fuel s Hcan Hroom Hread).
    pose proof (Hturn s d1 ch d2 Hs Hroom Hcan Hread) as Hs2.
    destruct (seekedCharFound ch (pending s)); [|apply IH; exact Hs2].
    destruct (dev_cancelRead InterruptContext d2) as [cancelled d3] eqn:Hc.
    pose proof (Hcancel _ cancelled d3 Hs2 Hc) as Hs3.
    destruct cancelled; [|apply IH; exact Hs3].
    apply preserves_bind; [exact Hinvoke | intros _; exact IH | exact Hs3].
Qed.

Lemma canWriteLoop_preserves (Inv : Write1.State -> Prop) :
  (forall s more d,
      Inv s -> dev_canWrite (device_ s) = (more, d) -> Inv (setDevice d s)) ->
  (forall s d1,
      Inv s ->
      w_current_ (pending s) < w_start_ (pending s) + w_bufSize_ (pending s) ->
      dev_canWrite (device_ s) = (true, d1) ->
      Inv (setPending (Write1.advanceWrite (pending s))
             (setDevice (dev_write (memory s (w_current_ (pending s))) d1)
                s))) ->
  forall fuel, preserves Inv (Write1.canWriteLoop fuel).
Proof.
  intros HcanWrite Hturn.
  induction fuel as [|fuel IH]; intros s Hs;
    destruct (dev_canWrite (device_ s)) as [more d1] eqn:Hcan;
    pose proof (HcanWrite s more d1 Hs Hcan) as Hs1;
    destruct more;
    try (rewrite (canWriteLoop_done _ s Hcan); exact Hs1);
    (destruct (Z.le_gt_cases (w_start_ (pending s) + w_bufSize_ (pending s))
                 (w_current_ (pending s))) as [Hfull | Hroom];
     [rewrite (canWriteLoop_full _ s Hcan Hfull);
      destruct assertsEnabled; exact Hs1|]).
  - rewrite (canWriteLoop_O s Hcan Hroom). exact Hs1.
  - rewrite (canWriteLoop_turn fuel s Hcan Hroom). apply IH.
    apply Hturn; assumption.
Qed.

End LoopRules.

(** ** The calls made on the device *)

Section Calls.
Context (U : Platform).

Lemma lastCall_app (l : list (Recorded.Call U)) c :
  Recorded.lastCall (l ++ [c]) = Some c.
Proof. unfold Recorded.lastCall. rewrite rev_app_distr. reflexivity. Qed.

Lemma orderlyFrom_app before (l : list (Recorded.Call U)) c :
  Recorded.orderlyFrom before (l ++ [c]) =
  Recorded.orderlyFrom before l &&
  Recorded.allowedAfter
    (match Recorded.lastCall l with
     | Some c' => Some c'
     | None => before
     end) c.
Proof.
  revert before. induction l as [|c0 l IH]; intros before.
  - simpl. rewrite andb_true_r. reflexivity.
  - cbn [app Recorded.orderlyFrom]. rewrite IH, andb_assoc.
    f_equal. f_equal.
    destruct l as [|c1 l']; [reflexivity|].
    destruct (Recorded.lastCall (c1 :: l')) as [c'|] eqn:H1.
    + unfold Recorded.lastCall in *. cbn [rev] in *.
      destruct (rev l' ++ [c1]) as [|x xs] eqn:Hr;
        [destruct (rev l'); discriminate Hr|].
      cbn [app]. inversion H1. reflexivity.
    + unfold Recorded.lastCall in H1. cbn [rev] in H1.
      destruct (rev l' ++ [c1]) eqn:Hr; [|discriminate H1].
      destruct (rev l'); discriminate Hr.
Qed.

Lemma orderly_app (l : list (Recorded.Call U)) c :
  Recorded.orderly (l ++ [c]) =
  Recorded.orderly l && Recorded.allowedAfter (Recorded.lastCall l) c.
Proof.
  unfold Recorded.orderly. rewrite orderlyFrom_app.
  destruct (Recorded.lastCall l); reflexivity.
Qed.

Lemma readSinceStart_app (l : list (Recorded.Call U)) c :
  Recorded.readSinceStart (l ++ [c]) =
  Recorded.readStep (Recorded.readSinceStart l) c.
Proof. unfold Recorded.readSinceStart. rewrite fold_left_app. reflexivity. Qed.

Lemma writtenSinceStart_app (l : list (Recorded.Call U)) c :
  Recorded.writtenSinceStart (l ++ [c]) =
  Recorded.writeStep (Recorded.writtenSinceStart l) c.
Proof.
  unfold Recorded.writtenSinceStart. rewrite fold_left_app. reflexivity.
Qed.

Lemma orderlyFrom_prefix before (l l' : list (Recorded.Call U)) :
  Recorded.orderlyFrom before (l ++ l') = true ->
  Recorded.orderlyFrom before l = true.
Proof.
  revert before. induction l as [|c l IH]; intros before H; [reflexivity|].
  cbn [app Recorded.orderlyFrom] in *. apply andb_prop in H.
  destruct H as [H1 H2]. rewrite H1, (IH _ H2). reflexivity.
Qed.

(** What [orderly] says of each call of a list. *)
Lemma orderly_split (l1 : list (Recorded.Call U)) c l2 :
  Recorded.orderly (l1 ++ c :: l2) = true ->
  Recorded.allowedAfter (Recorded.lastCall l1) c = true.
Proof.
  intros H. unfold Recorded.orderly in H.
  replace (l1 ++ c :: l2) with ((l1 ++ [c]) ++ l2) in H
    by (rewrite <- app_assoc; reflexivity).
  apply orderlyFrom_prefix in H. rewrite orderlyFrom_app in H.
  apply andb_prop in H. destruct H as [_ H].
  destruct (Recorded.lastCall l1); exact H.
Qed.

Lemma returning_inv {A} (f : Device -> A * Device)
    (call : A -> Recorded.Call U) d a d' :
  Recorded.returning f call d = (a, d') ->
  exists x, f (fst d) = (a, x) /\ d' = (x, snd d ++ [call a]).
Proof.
  unfold Recorded.returning. destruct (f (fst d)) as [a0 x].
  intros H. inversion H. subst. exists x. split; reflexivity.
Qed.

End Calls.

Section During.
Context (U : Platform) {B : Build}.
Local Notation "'REC'" := (Recorded.platform U).
Variable ctx : context.
Variable Q : Type.
Variable s0 : Support (P:=REC) Q.

Lemma during_refl : Recorded.during ctx s0 s0.
Proof.
  exists [], []. rewrite !app_nil_r.
  repeat split; try constructor. intros H. exact H.
Qed.

(** A step that leaves the device and the event loop alone. *)
Lemma during_frame (s s' : Support (P:=REC) Q) :
  Recorded.during ctx s0 s ->
  device_ s' = device_ s -> el_ s' = el_ s ->
  Recorded.during ctx s0 s'.
Proof.
  intros (l & p & Hl & Hp & Ho & Hc & Hx) Hd He.
  exists l, p. unfold Recorded.calls in *. rewrite Hd, He.
  repeat split; assumption.
Qed.

(** A call on the device. *)
Lemma during_call (s : Support (P:=REC) Q) (d : @Device U) c :
  Recorded.during ctx s0 s ->
  Recorded.allowedAfter (Recorded.lastCall (Recorded.calls s)) c = true ->
  Recorded.callContext c = None \/ Recorded.callContext c = Some ctx ->
  Recorded.during ctx s0
    (setDevice (P:=REC) (d, Recorded.calls s ++ [c]) s).
Proof.
  intros (l & p & Hl & Hp & Ho & Hc & Hx) Hallowed Hctx.
  exists (l ++ [c]), p. unfold Recorded.calls in *.
  cbn [device_ setDevice snd el_].
  rewrite Hl, app_assoc. repeat split; try assumption.
  - intros H0. rewrite <- Hl, orderly_app, (Ho H0). exact Hallowed.
  - apply Forall_app.
    split; [exact Hc | constructor; [exact Hctx | constructor]].
Qed.

(** A callable posted from [ctx]. *)
Lemma during_post (s s' : Support (P:=REC) Q) b :
  Recorded.during ctx s0 s ->
  device_ s' = device_ s ->
  el_posted (el_ s') = el_posted (el_ s) ++ [(ctx, b)] ->
  Recorded.during ctx s0 s'.
Proof.
  intros (l & p & Hl & Hp & Ho & Hc & Hx) Hd He.
  exists l, (p ++ [(ctx, b)]). unfold Recorded.calls in *.
  rewrite Hd, He, Hp, app_assoc. repeat split; try assumption.
  apply Forall_app.
  split; [exact Hx | constructor; [reflexivity | constructor]].
Qed.

(** Callables posted from [ctx]. *)
Lemma during_posts (s s' : Support (P:=REC) Q) p :
  Recorded.during ctx s0 s ->
  device_ s' = device_ s ->
  el_posted (el_ s') = el_posted (el_ s) ++ p ->
  Forall (fun x => fst x = ctx) p ->
  Recorded.during ctx s0 s'.
Proof.
  intros (l & p0 & Hl & Hp & Ho & Hc & Hx) Hd He Hall.
  exists l, (p0 ++ p). unfold Recorded.calls in *.
  rewrite Hd, He, Hp, app_assoc. repeat split; try assumption.
  apply Forall_app. split; assumption.
Qed.

Lemma during_returning {A} (f : Device -> A * Device)
    (call : A -> Recorded.Call U) :
  (forall a before, Recorded.allowedAfter before (call a) = true) ->
  (forall a, Recorded.callContext (call a) = None \/
             Recorded.callContext (call a) = Some ctx) ->
  preserves (Recorded.during ctx s0)
    (callDevice (P:=REC) (Q:=Q) (Recorded.returning f call)).
Proof.
  intros Hallowed Hctx s Hs. unfold callDevice, Recorded.returning.
  destruct (f (fst (device_ s))) as [a d]. cbn [finalState].
  apply during_call; [exact Hs | apply Hallowed | apply Hctx].
Qed.

Lemma during_plain (f : Device -> Device) (c : Recorded.Call U) :
  (forall before, Recorded.allowedAfter before c = true) ->
  Recorded.callContext c = None \/ Recorded.callContext c = Some ctx ->
  preserves (Recorded.during ctx s0)
    (doDevice (P:=REC) (Q:=Q) (Recorded.plain f c)).
Proof.
  intros Hallowed Hctx s Hs. unfold doDevice, modify, Recorded.plain.
  cbn [finalState]. apply during_call; [exact Hs | apply Hallowed | exact Hctx].
Qed.

Lemma during_modify (f : Support (P:=REC) Q -> Support (P:=REC) Q) :
  (forall s, device_ (f s) = device_ s) ->
  (forall s, el_ (f s) = el_ s) ->
  preserves (Recorded.during ctx s0) (modify f).
Proof.
  intros Hd He s Hs. cbn [modify finalState].
  apply during_frame with (s := s); [exact Hs | apply Hd | apply He].
Qed.

End During.

Section Effect.
Context {P : Platform} {B : Build}.

(** What [invokeHandler] leaves behind, however it ends: the request
    with or without its handler, and the event loop as it was or with
    the one callable posted from the context of the call. *)
Lemma invokeHandler_effect {I} {HI : Info I} es c (el : EventLoop)
    (info : I) :
  (snd (finalState (invokeHandler es c (el, info))) = info \/
   snd (finalState (invokeHandler es c (el, info))) = moveHandler info) /\
  (fst (finalState (invokeHandler es c (el, info))) = el \/
   el_posted (fst (finalState (invokeHandler es c (el, info)))) =
   el_posted el ++ [(ctxOf c, boundOf info es)]).
Proof.
  rewrite invokeHandler_unfold.
  destruct (assertsEnabled && negb (isSet (handler_ info)));
    [split; left; reflexivity|].
  unfold enqueue. destruct (el_room el) as [|room].
  - destruct (assertsEnabled && negb false);
      (split; [right | left]; reflexivity).
  - destruct (assertsEnabled && negb true);
      (split; right; reflexivity).
Qed.

Lemma forEach_abortInfo_posts (q : list ReadInfo) (el : EventLoop) :
  exists p,
    el_posted (fst (finalState (ReadN.forEach ReadN.abortInfo q el))) =
    el_posted el ++ p /\
    Forall (fun x => fst x = EventLoopContext) p.
Proof.
  revert el. induction q as [|info rest IH]; intros el.
  - exists []. rewrite app_nil_r. split; [reflexivity | constructor].
  - cbn [ReadN.forEach]. rewrite abortInfo_unfold.
    destruct (assertsEnabled
              && negb (r_current_ info <? r_start_ info + r_bufSize_ info)).
    { exists []. rewrite app_nil_r. split; [reflexivity | constructor]. }
    destruct (invokeHandler_effect (HI:=ReadInfo_Info) Aborted false el info)
      as [_ Hel].
    assert (Hone : exists p,
               el_posted
                 (fst (finalState (invokeHandler Aborted false (el, info)))) =
               el_posted el ++ p /\
               Forall (fun x => fst x = EventLoopContext) p).
    { destruct Hel as [-> | ->].
      - exists []. rewrite app_nil_r. split; [reflexivity | constructor].
      - eexists. split; [reflexivity|].
        constructor; [reflexivity | constructor]. }
    destruct (invokeHandler Aborted false (el, info))
      as [u [el1 info1] | [el1 info1] | [el1 info1] | [el1 info1]];
      cbn [finalState fst] in *; try exact Hone.
    destruct Hone as (p1 & Hp1 & Hall1).
    destruct (IH el1) as (p2 & Hp2 & Hall2).
    exists (p1 ++ p2). split; [|apply Forall_app; split; assumption].
    destruct (ReadN.forEach ReadN.abortInfo rest el1)
      as [u2 [el2 q2] | [el2 q2] | [el2 q2] | [el2 q2]];
      cbn [finalState fst] in *; rewrite Hp2, Hp1, app_assoc; reflexivity.
Qed.

End Effect.

Section DuringEngines.
Context (U : Platform) {B : Build}.
Local Notation "'REC'" := (Recorded.platform U).

Lemma during_withFront es c (s0 : ReadN.State (P:=REC)) :
  preserves (Recorded.during (ctxOf c) s0)
    (ReadN.withFront (invokeHandler es c)).
Proof.
  intros s Hs. unfold ReadN.withFront.
  destruct (pending s) as [|info rest]; [exact Hs|]. unfold zoom.
  destruct (invokeHandler_effect (HI:=ReadInfo_Info) es c (el_ s) info)
    as [_ Hel].
  destruct (invokeHandler es c (el_ s, info)) as [u t | t | t | t];
    cbn [finalState] in *;
    (destruct Hel as [Hel | Hel];
     [apply during_frame with (s := s); [exact Hs | reflexivity |];
      cbn [el_ setPending setEl]; exact Hel
     |apply during_post with (s := s) (b := boundOf info es);
      [exact Hs | reflexivity | cbn [el_ setPending setEl]; exact Hel]]).
Qed.

Lemma during_invoke {I} {HI : Info (P:=REC) I} es c
    (s0 : Support (P:=REC) I) :
  preserves (Recorded.during (ctxOf c) s0)
    (zoom (@elAndPending _ _) (@setElAndPending _ _)
       (invokeHandler (HI:=HI) es c)).
Proof.
  intros s Hs. unfold zoom, elAndPending.
  destruct (invokeHandler_effect (HI:=HI) es c (el_ s) (pending s))
    as [_ Hel].
  destruct (invokeHandler es c (el_ s, pending s)) as [u t | t | t | t];
    cbn [finalState] in *;
    (destruct Hel as [Hel | Hel];
     [apply during_frame with (s := s); [exact Hs | reflexivity |];
      cbn [el_ setElAndPending setPending setEl]; exact Hel
     |apply during_post with (s := s) (b := boundOf (pending s) es);
      [exact Hs | reflexivity
      | cbn [el_ setElAndPending setPending setEl]; exact Hel]]).
Qed.

Lemma during_popFront ctx (s0 : ReadN.State (P:=REC)) :
  preserves (Recorded.during ctx s0) ReadN.popFront.
Proof.
  intros s Hs. unfold ReadN.popFront.
  destruct (pending s); [exact Hs|].
  apply during_frame with (s := s); [exact Hs | reflexivity | reflexivity].
Qed.

Lemma during_emplaceBack ctx (s0 : ReadN.State (P:=REC)) info :
  preserves (Recorded.during ctx s0) (ReadN.emplaceBack info).
Proof.
  intros s Hs. unfold ReadN.emplaceBack.
  destruct (ReadN.full (pending s)); [exact Hs|].
  apply during_frame with (s := s); [exact Hs | reflexivity | reflexivity].
Qed.

Lemma during_startNextReadLoop fuel c (s0 : ReadN.State (P:=REC)) :
  preserves (Recorded.during (ctxOf c) s0) (ReadN.startNextReadLoop fuel c).
Proof.
  induction fuel as [|fuel IH]; cbn [ReadN.startNextReadLoop];
    (apply preserves_bind; [apply preserves_gets|]);
    intros [|info rest]; try apply preserves_ret;
    (destruct (r_bufSize_ info =? 0) eqn:Hz;
     [|destruct c;
       (apply during_plain;
        [intros before; cbn [Recorded.allowedAfter]; rewrite Hz; reflexivity
        |right; reflexivity])]).
  - apply preserves_outOfFuel.
  - apply preserves_bind; [apply during_withFront|]. intros _.
    apply preserves_bind; [apply during_popFront|]. intros _.
    exact IH.
Qed.

Lemma during_startNextRead c (s0 : ReadN.State (P:=REC)) :
  preserves (Recorded.during (ctxOf c) s0) (ReadN.startNextRead c).
Proof.
  unfold ReadN.startNextRead. apply preserves_bind; [apply preserves_gets|].
  intros q. apply during_startNextReadLoop.
Qed.

Lemma during_asyncReadUntilN buf size pred func (s0 : ReadN.State (P:=REC)) :
  preserves (Recorded.during EventLoopContext s0)
    (ReadN.asyncReadUntil buf size pred func).
Proof.
  unfold ReadN.asyncReadUntil.
  apply preserves_bind.
  { apply during_returning; intros; [reflexivity | left; reflexivity]. }
  intros suspended.
  apply preserves_bind; [apply preserves_gets|]. intros q.
  apply preserves_bind; [apply preserves_GASSERT|]. intros _.
  apply preserves_bind; [apply during_emplaceBack|]. intros _.
  apply preserves_if.
  - apply during_plain; [intros; reflexivity | left; reflexivity].
  - apply preserves_bind; [apply preserves_gets|]. intros q'.
    apply preserves_bind; [apply preserves_GASSERT|]. intros _.
    apply (during_startNextRead false).
Qed.

Lemma during_cancelReadN (s0 : ReadN.State (P:=REC)) :
  preserves (Recorded.during EventLoopContext s0) ReadN.cancelRead.
Proof.
  unfold ReadN.cancelRead.
  apply preserves_bind.
  { apply during_returning; intros; [reflexivity | right; reflexivity]. }
  intros cancelled. apply preserves_if.
  - apply preserves_bind; [apply preserves_gets|]. intros q.
    apply preserves_bind; [apply preserves_GASSERT|]. intros _.
    apply preserves_ret.
  - apply preserves_bind.
    + intros s Hs. unfold zoom, elAndPending. cbn [fst snd].
      destruct (forEach_abortInfo_posts (pending s) (el_ s))
        as (p & Hp & Hall).
      destruct (ReadN.forEach ReadN.abortInfo (pending s) (el_ s))
        as [u t | t | t | t]; cbn [finalState] in *;
        (apply during_posts with (s := s) (p := p);
         [exact Hs | reflexivity | exact Hp | exact Hall]).
    + intros _. apply preserves_bind; [|intros _; apply preserves_ret].
      apply during_modify; intros; reflexivity.
Qed.

Lemma during_canRead ctx {Q} (s0 s : Support (P:=REC) Q) more d :
  Recorded.during ctx s0 s ->
  dev_canRead (device_ s) = (more, d) ->
  Recorded.during ctx s0 (setDevice d s).
Proof.
  intros Hs Hcan.
  apply (returning_inv (U:=U) dev_canRead (@Recorded.CanRead U)) in Hcan.
  destruct Hcan as (x & _ & ->).
  apply during_call; [exact Hs | reflexivity | left; reflexivity].
Qed.

Lemma during_cancelRead ctx {Q} (s0 s : Support (P:=REC) Q) cancelled d :
  Recorded.during ctx s0 s ->
  dev_cancelRead ctx (device_ s) = (cancelled, d) ->
  Recorded.during ctx s0 (setDevice d s).
Proof.
  intros Hs Hc.
  apply (returning_inv (U:=U) (dev_cancelRead ctx)
           (@Recorded.CancelRead U ctx)) in Hc.
  destruct Hc as (x & _ & ->).
  apply during_call; [exact Hs | reflexivity | right; reflexivity].
Qed.

(** A character read after [canRead] returned [true], and stored. *)
Lemma during_read ctx {Q} (s0 s : Support (P:=REC) Q) d1 ch d2
    (info : ReadInfo (P:=REC)) (q : Q) :
  Recorded.during ctx s0 s ->
  dev_canRead (device_ s) = (true, d1) ->
  dev_read d1 = (ch, d2) ->
  Recorded.during ctx s0 (afterRead s info ch d2 q).
Proof.
  intros Hs Hcan Hread.
  apply (returning_inv (U:=U) dev_canRead (@Recorded.CanRead U)) in Hcan.
  destruct Hcan as (x & _ & ->).
  apply (returning_inv (U:=U) dev_read (@Recorded.Read U)) in Hread.
  destruct Hread as (y & _ & ->). cbn [fst snd].
  apply during_frame
    with (s := setDevice (P:=REC)
                 (y, Recorded.calls
                       (setDevice (P:=REC)
                          (x, Recorded.calls s ++ [Recorded.CanRead U true])
                          s) ++ [Recorded.Read U ch])
                 (setDevice (P:=REC)
                    (x, Recorded.calls s ++ [Recorded.CanRead U true]) s));
    [|reflexivity | reflexivity].
  apply during_call; [| |left; reflexivity].
  - apply during_call; [exact Hs | reflexivity | left; reflexivity].
  - unfold Recorded.calls. cbn [device_ setDevice snd].
    rewrite lastCall_app. reflexivity.
Qed.

Lemma during_canReadAfterPop (s0 : ReadN.State (P:=REC)) :
  preserves (Recorded.during InterruptContext s0) ReadN.canReadAfterPop.
Proof.
  unfold ReadN.canReadAfterPop.
  apply preserves_bind.
  { apply during_returning; intros; [reflexivity | left; reflexivity]. }
  intros more. apply preserves_if;
    [apply preserves_undefined | apply preserves_ret].
Qed.

Lemma during_canReadLoopN fuel (s0 : ReadN.State (P:=REC)) :
  preserves (Recorded.during InterruptContext s0) (ReadN.canReadLoop fuel).
Proof.
  apply canReadLoopN_preserves.
  - intros s more d. apply during_canRead.
  - intros s info rest d1 ch d2 Hs _ _. apply during_read. exact Hs.
  - intros s cancelled d. apply during_cancelRead.
  - apply preserves_bind; [apply (during_withFront Success true)|].
    intros _. apply preserves_bind; [apply during_popFront|].
    intros _. apply preserves_bind; [apply (during_startNextRead true)|].
    intros _. apply during_canReadAfterPop.
Qed.

Lemma during_canReadInterruptHandlerN (s0 : ReadN.State (P:=REC)) :
  preserves (Recorded.during InterruptContext s0)
    ReadN.canReadInterruptHandler.
Proof.
  unfold ReadN.canReadInterruptHandler.
  apply preserves_bind; [apply preserves_gets|]. intros q.
  apply preserves_bind; [apply preserves_GASSERT|]. intros _.
  destruct q as [|info rest]; [|apply during_canReadLoopN].
  apply preserves_bind.
  { apply during_returning; intros; [reflexivity | left; reflexivity]. }
  intros more. apply preserves_if;
    [apply preserves_undefined | apply preserves_ret].
Qed.

Lemma during_readCompleteN es (s0 : ReadN.State (P:=REC)) :
  preserves (Recorded.during InterruptContext s0)
    (ReadN.readCompleteInterruptHandler es).
Proof.
  unfold ReadN.readCompleteInterruptHandler.
  apply preserves_bind; [apply preserves_gets|]. intros q.
  apply preserves_bind; [apply preserves_GASSERT|]. intros _.
  destruct q as [|info rest]; [apply preserves_undefined|].
  apply preserves_bind; [apply preserves_GASSERT|]. intros _.
  apply preserves_bind; [apply preserves_statusStands|]. intros stands.
  apply preserves_bind.
  - apply preserves_if; apply (during_withFront _ true).
  - intros _. apply preserves_bind; [apply during_popFront|].
    intros _. apply (during_startNextRead true).
Qed.

Lemma stepReadN_during e (s : ReadN.State (P:=REC)) :
  Recorded.during (eventContext e) s (finalState (stepReadN e s)).
Proof.
  assert (Hp : preserves (Recorded.during (eventContext e) s) (stepReadN e)).
  { destruct e as [buf size func | buf size pred func | | | es];
      cbn [stepReadN eventContext].
    - apply during_asyncReadUntilN.
    - apply during_asyncReadUntilN.
    - apply preserves_bind; [apply during_cancelReadN|].
      intros _. apply preserves_ret.
    - apply during_canReadInterruptHandlerN.
    - apply during_readCompleteN. }
  apply Hp. apply during_refl.
Qed.

Lemma during_initRead buf size (s0 : Read1.State (P:=REC)) :
  preserves (Recorded.during EventLoopContext s0) (Read1.initRead buf size).
Proof.
  unfold Read1.initRead.
  apply preserves_bind; [apply during_modify; intros; reflexivity|].
  intros _. destruct (size =? 0) eqn:Hz.
  - apply preserves_bind; [apply preserves_gets|]. intros info.
    apply (during_invoke (HI:=ReadInfo_Info) _ false).
  - apply during_plain;
      [intros before; cbn [Recorded.allowedAfter]; rewrite Hz; reflexivity
      |right; reflexivity].
Qed.

Lemma during_asyncReadUntil1 buf size pred func (s0 : Read1.State (P:=REC)) :
  preserves (Recorded.during EventLoopContext s0)
    (Read1.asyncReadUntil buf size pred func).
Proof.
  unfold Read1.asyncReadUntil.
  apply preserves_bind; [apply preserves_gets|]. intros info.
  apply preserves_bind; [apply preserves_GASSERT|]. intros _.
  apply preserves_bind; [apply during_modify; intros; reflexivity|].
  intros _.
  apply preserves_bind; [apply during_modify; intros; reflexivity|].
  intros _. apply during_initRead.
Qed.

Lemma during_cancelRead1 (s0 : Read1.State (P:=REC)) :
  preserves (Recorded.during EventLoopContext s0) Read1.cancelRead.
Proof.
  unfold Read1.cancelRead.
  apply preserves_bind.
  { apply during_returning; intros; [reflexivity | right; reflexivity]. }
  intros cancelled.
  apply preserves_if;
    (apply preserves_bind; [apply preserves_gets|]; intros info);
    (apply preserves_bind; [apply preserves_GASSERT|]; intros _);
    [apply preserves_ret|].
  apply preserves_bind; [apply preserves_GASSERT|]. intros _.
  apply preserves_bind; [|intros _; apply preserves_ret].
  apply (during_invoke (HI:=ReadInfo_Info) Aborted false).
Qed.

Lemma during_canReadInterruptHandler1 (s0 : Read1.State (P:=REC)) :
  preserves (Recorded.during InterruptContext s0)
    Read1.canReadInterruptHandler.
Proof.
  unfold Read1.canReadInterruptHandler.
  apply preserves_bind; [apply preserves_gets|]. intros info.
  apply canReadLoop1_preserves.
  - intros s more d. apply during_canRead.
  - intros s d1 ch d2 Hs _. apply during_read. exact Hs.
  - intros s cancelled d. apply during_cancelRead.
  - apply (during_invoke (HI:=ReadInfo_Info) Success true).
Qed.

Lemma during_readComplete1 es (s0 : Read1.State (P:=REC)) :
  preserves (Recorded.during InterruptContext s0)
    (Read1.readCompleteInterruptHandler es).
Proof.
  unfold Read1.readCompleteInterruptHandler.
  apply preserves_bind; [apply preserves_gets|]. intros info.
  apply preserves_bind; [apply preserves_statusStands|]. intros stands.
  apply preserves_if; apply (during_invoke (HI:=ReadInfo_Info) _ true).
Qed.

Lemma stepRead1_during e (s : Read1.State (P:=REC)) :
  Recorded.during (eventContext e) s (finalState (stepRead1 e s)).
Proof.
  assert (Hp : preserves (Recorded.during (eventContext e) s) (stepRead1 e)).
  { destruct e as [buf size func | buf size pred func | | | es];
      cbn [stepRead1 eventContext].
    - apply (during_asyncReadUntil1 buf size None func).
    - apply during_asyncReadUntil1.
    - apply preserves_bind; [apply during_cancelRead1|].
      intros _. apply preserves_ret.
    - apply during_canReadInterruptHandler1.
    - apply during_readComplete1. }
  apply Hp. apply during_refl.
Qed.

Lemma during_asyncWrite buf size func (s0 : Write1.State (P:=REC)) :
  preserves (Recorded.during EventLoopContext s0)
    (Write1.asyncWrite buf size func).
Proof.
  unfold Write1.asyncWrite, Write1.initWrite.
  apply preserves_bind; [apply preserves_gets|]. intros info.
  apply preserves_bind; [apply preserves_GASSERT|]. intros _.
  apply preserves_bind; [apply during_modify; intros; reflexivity|].
  intros _.
  apply preserves_bind; [apply during_modify; intros; reflexivity|].
  intros _. destruct (size =? 0) eqn:Hz.
  - apply (during_invoke (HI:=WriteInfo_Info) Success false).
  - apply during_plain;
      [intros before; cbn [Recorded.allowedAfter]; rewrite Hz; reflexivity
      |left; reflexivity].
Qed.

Lemma during_cancelWrite (s0 : Write1.State (P:=REC)) :
  preserves (Recorded.during EventLoopContext s0) Write1.cancelWrite.
Proof.
  unfold Write1.cancelWrite.
  apply preserves_bind.
  { apply during_returning; intros; [reflexivity | left; reflexivity]. }
  intros cancelled.
  apply preserves_if;
    (apply preserves_bind; [apply preserves_gets|]; intros info);
    (apply preserves_bind; [apply preserves_GASSERT|]; intros _);
    [apply preserves_ret|].
  apply preserves_bind; [apply preserves_GASSERT|]. intros _.
  apply preserves_bind; [|intros _; apply preserves_ret].
  apply (during_invoke (HI:=WriteInfo_Info) Aborted false).
Qed.

Lemma during_canWrite ctx (s0 s : Write1.State (P:=REC)) more d :
  Recorded.during ctx s0 s ->
  dev_canWrite (device_ s) = (more, d) ->
  Recorded.during ctx s0 (setDevice d s).
Proof.
  intros Hs Hcan.
  apply (returning_inv (U:=U) dev_canWrite (@Recorded.CanWrite U)) in Hcan.
  destruct Hcan as (x & _ & ->).
  apply during_call; [exact Hs | reflexivity | left; reflexivity].
Qed.

(** A character written after [canWrite] returned [true]. *)
Lemma during_write ctx (s0 s : Write1.State (P:=REC)) d1 ch
    (info : WriteInfo (P:=REC)) :
  Recorded.during ctx s0 s ->
  dev_canWrite (device_ s) = (true, d1) ->
  Recorded.during ctx s0 (setPending info (setDevice (dev_write ch d1) s)).
Proof.
  intros Hs Hcan.
  apply (returning_inv (U:=U) dev_canWrite (@Recorded.CanWrite U)) in Hcan.
  destruct Hcan as (x & _ & ->).
  apply during_frame
    with (s := setDevice (P:=REC)
                 (@dev_write U ch x,
                  Recorded.calls
                    (setDevice (P:=REC)
                       (x, Recorded.calls s ++ [Recorded.CanWrite U true])
                       s) ++ [Recorded.Write U ch])
                 (setDevice (P:=REC)
                    (x, Recorded.calls s ++ [Recorded.CanWrite U true]) s));
    [|reflexivity | reflexivity].
  apply during_call; [| |left; reflexivity].
  - apply during_call; [exact Hs | reflexivity | left; reflexivity].
  - unfold Recorded.calls. cbn [device_ setDevice snd].
    rewrite lastCall_app. reflexivity.
Qed.

Lemma during_canWriteInterruptHandler (s0 : Write1.State (P:=REC)) :
  preserves (Recorded.during InterruptContext s0)
    Write1.canWriteInterruptHandler.
Proof.
  unfold Write1.canWriteInterruptHandler.
  apply preserves_bind; [apply preserves_gets|]. intros info.
  apply canWriteLoop_preserves.
  - intros s more d. apply during_canWrite.
  - intros s d1 Hs _. apply during_write. exact Hs.
Qed.

Lemma stepWrite1_during e (s : Write1.State (P:=REC)) :
  Recorded.during (eventContextW e) s (finalState (stepWrite1 e s)).
Proof.
  assert (Hp : preserves (Recorded.during (eventContextW e) s)
                 (stepWrite1 e)).
  { destruct e as [buf size func | | | es]; cbn [stepWrite1 eventContextW].
    - apply during_asyncWrite.
    - apply preserves_bind; [apply during_cancelWrite|].
      intros _. apply preserves_ret.
    - apply during_canWriteInterruptHandler.
    - apply (during_invoke (HI:=WriteInfo_Info) es true). }
  apply Hp. apply during_refl.
Qed.

End DuringEngines.


Lemma Forall_always {A} (l : list A) : Forall (fun _ => True) l.
Proof. induction l; constructor; [exact I | assumption]. Qed.

(** The driver calls its device as the documentation of [TDevice]
    requires, whatever the device answers and however the operations
    end.  The calls a device has received from any sequence of
    operations of an engine are [orderly]: a [read] follows directly a
    [canRead] that returned [true], a [write] follows directly a
    [canWrite] that returned [true], and no read or write of length
    zero is started. *)
Theorem device_is_called_as_documented (U : Platform) {B : Build} :
  (forall (l1 : list (Recorded.Call U)) c l2,
      Recorded.orderly (l1 ++ c :: l2) = true ->
      match c with
      | Recorded.Read _ _ =>
          Recorded.lastCall l1 = Some (Recorded.CanRead U true)
      | Recorded.Write _ _ =>
          Recorded.lastCall l1 = Some (Recorded.CanWrite U true)
      | Recorded.StartRead _ n _ | Recorded.StartWrite _ n => n <> 0
      | _ => True
      end) /\
  (forall events (s : ReadN.State (P:=Recorded.platform U)),
      Recorded.orderly (Recorded.calls s) = true ->
      Recorded.orderly
        (Recorded.calls (finalState (run stepReadN events s))) = true) /\
  (forall events (s : Read1.State (P:=Recorded.platform U)),
      Recorded.orderly (Recorded.calls s) = true ->
      Recorded.orderly
        (Recorded.calls (finalState (run stepRead1 events s))) = true) /\
  (forall events (s : Write1.State (P:=Recorded.platform U)),
      Recorded.orderly (Recorded.calls s) = true ->
      Recorded.orderly
        (Recorded.calls (finalState (run stepWrite1 events s))) = true).
Proof.
  split; [|split; [|split]].
  - intros l1 c l2 H. apply orderly_split in H.
    destruct c as [r | | n ctx | ctx r | r | ch | n | r | r | ch];
      try exact I; cbn [Recorded.allowedAfter] in H.
    + intros Hn. rewrite Hn in H. discriminate H.
    + destruct (Recorded.lastCall l1) as [[| | | | [|] | | | | |]|];
        try discriminate H. reflexivity.
    + intros Hn. rewrite Hn in H. discriminate H.
    + destruct (Recorded.lastCall l1) as [[| | | | | | | | [|] |]|];
        try discriminate H. reflexivity.
  - intros events s H.
    apply (run_preserves stepReadN (ok := fun _ => True)
             (fun s => Recorded.orderly (Recorded.calls s) = true));
      [|apply Forall_always | exact H].
    intros e s1 _ H1.
    destruct (stepReadN_during e s1) as (l & p & _ & _ & Ho & _).
    exact (Ho H1).
  - intros events s H.
    apply (run_preserves stepRead1 (ok := fun _ => True)
             (fun s => Recorded.orderly (Recorded.calls s) = true));
      [|apply Forall_always | exact H].
    intros e s1 _ H1.
    destruct (stepRead1_during e s1) as (l & p & _ & _ & Ho & _).
    exact (Ho H1).
  - intros events s H.
    apply (run_preserves stepWrite1 (ok := fun _ => True)
             (fun s => Recorded.orderly (Recorded.calls s) = true));
      [|apply Forall_always | exact H].
    intros e s1 _ H1.
    destruct (stepWrite1_during e s1) as (l & p & _ & _ & Ho & _).
    exact (Ho H1).
Qed.

(** ** The characters that pass through a buffer *)

Section Contents.
Context {P : Platform}.

Lemma contents_snoc (mem : Memory) from n :
  contents mem from (S n) =
  contents mem from n ++ [mem (from + Z.of_nat n)].
Proof.
  unfold contents. rewrite seq_S, map_app. reflexivity.
Qed.

Lemma contents_ext (mem mem' : Memory) from n :
  (forall a, from <= a < from + Z.of_nat n -> mem' a = mem a) ->
  contents mem' from n = contents mem from n.
Proof.
  intros H. unfold contents. apply map_ext_in. intros i Hi.
  apply in_seq in Hi. apply H. lia.
Qed.

(** Storing at the cursor leaves what lies before the cursor. *)
Lemma contents_store (mem : Memory) from n ch :
  contents (store (from + Z.of_nat n) ch mem) from (S n) =
  contents mem from n ++ [ch].
Proof.
  rewrite contents_snoc. f_equal.
  - apply contents_ext. intros a Ha. unfold store.
    destruct (Z.eqb_spec a (from + Z.of_nat n)); [lia | reflexivity].
  - unfold store. rewrite Z.eqb_refl. reflexivity.
Qed.

(** What [invokeHandler] leaves of a single slot, however it ends. *)
Lemma invoke_final {B : Build} {I} {HI : Info I} es c (s : Support I) :
  memory
    (finalState
       (zoom (@elAndPending _ _) (@setElAndPending _ _)
          (invokeHandler es c) s)) = memory s /\
  device_
    (finalState
       (zoom (@elAndPending _ _) (@setElAndPending _ _)
          (invokeHandler es c) s)) = device_ s /\
  (pending
     (finalState
        (zoom (@elAndPending _ _) (@setElAndPending _ _)
           (invokeHandler es c) s)) = pending s \/
   pending
     (finalState
        (zoom (@elAndPending _ _) (@setElAndPending _ _)
           (invokeHandler es c) s)) = moveHandler (pending s)).
Proof.
  unfold zoom, elAndPending.
  destruct (invokeHandler_effect es c (el_ s) (pending s)) as [Hinfo _].
  destruct (invokeHandler es c (el_ s, pending s)) as [u t | t | t | t];
    cbn [finalState setElAndPending setPending setEl memory device_ pending]
      in *;
    repeat split; exact Hinfo.
Qed.

End Contents.

Section Sent.
Context (U : Platform) {B : Build}.
Local Notation "'REC'" := (Recorded.platform U).

(** A step that leaves memory, the buffer, the cursor and the calls. *)
Lemma bufferSent_frame (s s' : Write1.State (P:=REC)) :
  bufferSent s ->
  memory s' = memory s ->
  Recorded.calls s' = Recorded.calls s ->
  w_start_ (pending s') = w_start_ (pending s) ->
  w_current_ (pending s') = w_current_ (pending s) ->
  w_bufSize_ (pending s') = w_bufSize_ (pending s) ->
  bufferSent s'.
Proof.
  unfold bufferSent, cursorBoundedW.
  intros [Hb Hc] -> -> -> -> ->. split; assumption.
Qed.

(** A call other than [write] and [startWrite]. *)
Lemma bufferSent_call (s : Write1.State (P:=REC)) (d : @Device U) c :
  bufferSent s ->
  (forall acc, Recorded.writeStep acc c = acc) ->
  bufferSent (setDevice (P:=REC) (d, Recorded.calls s ++ [c]) s).
Proof.
  unfold bufferSent. intros [Hb Hc] Hstep. split; [exact Hb|].
  intros Hsize. unfold Recorded.calls in *.
  cbn [device_ setDevice snd pending memory] in *.
  rewrite writtenSinceStart_app, Hstep. apply Hc. exact Hsize.
Qed.

Lemma bufferSent_invoke es c :
  preserves (bufferSent (U:=U))
    (Write1.withInfo (invokeHandler es c)).
Proof.
  intros s Hs. unfold Write1.withInfo.
  destruct (invoke_final (HI:=WriteInfo_Info) es c s) as (Hm & Hd & Hp).
  apply bufferSent_frame with (s := s); try assumption.
  - exact (f_equal snd Hd).
  - destruct Hp as [Hp | Hp]; exact (f_equal w_start_ Hp).
  - destruct Hp as [Hp | Hp]; exact (f_equal w_current_ Hp).
  - destruct Hp as [Hp | Hp]; exact (f_equal w_bufSize_ Hp).
Qed.

Lemma bufferSent_asyncWrite buf size func :
  0 <= size ->
  preserves (bufferSent (U:=U)) (Write1.asyncWrite buf size func).
Proof.
  intros Hsize. unfold Write1.asyncWrite.
  apply preserves_bind; [apply preserves_gets|]. intros info.
  apply preserves_bind; [apply preserves_GASSERT|]. intros _.
  intros s Hs. unfold bind at 1, modify at 1. unfold Write1.initWrite.
  unfold bind at 1, modify at 1.
  destruct (size =? 0) eqn:Hz.
  - apply bufferSent_invoke. apply Z.eqb_eq in Hz. subst size.
    split; [unfold cursorBoundedW; simpl; lia|].
    intros Hn. exfalso. apply Hn. reflexivity.
  - cbn [doDevice modify finalState]. split.
    + unfold cursorBoundedW. simpl. lia.
    + intros _. cbn [pending setPending setDevice Write1.setBuffer
                       w_start_ w_current_ memory].
      rewrite Z.sub_diag. unfold Recorded.calls.
      cbn [device_ setDevice setPending dev_startWrite Recorded.platform
             Recorded.plain snd].
      rewrite writtenSinceStart_app. reflexivity.
Qed.

Lemma bufferSent_cancelWrite :
  preserves (bufferSent (U:=U)) Write1.cancelWrite.
Proof.
  unfold Write1.cancelWrite.
  apply preserves_bind.
  { intros s Hs. unfold callDevice.
    cbn [dev_cancelWrite Recorded.platform]. unfold Recorded.returning.
    destruct (dev_cancelWrite (fst (device_ s))) as [a d].
    cbn [finalState]. apply bufferSent_call; [exact Hs | reflexivity]. }
  intros cancelled.
  apply preserves_if;
    (apply preserves_bind; [apply preserves_gets|]; intros info);
    (apply preserves_bind; [apply preserves_GASSERT|]; intros _);
    [apply preserves_ret|].
  apply preserves_bind; [apply preserves_GASSERT|]. intros _.
  apply preserves_bind; [|intros _; apply preserves_ret].
  apply bufferSent_invoke.
Qed.

Lemma bufferSent_canWriteInterruptHandler :
  preserves (bufferSent (U:=U)) Write1.canWriteInterruptHandler.
Proof.
  unfold Write1.canWriteInterruptHandler.
  apply preserves_bind; [apply preserves_gets|]. intros info.
  apply canWriteLoop_preserves.
  - intros s more d Hs Hcan.
    apply (returning_inv (U:=U) dev_canWrite (@Recorded.CanWrite U)) in Hcan.
    destruct Hcan as (x & _ & ->).
    apply bufferSent_call; [exact Hs | reflexivity].
  - intros s d1 [Hb Hc] Hroom Hcan.
    apply (returning_inv (U:=U) dev_canWrite (@Recorded.CanWrite U)) in Hcan.
    destruct Hcan as (x & _ & ->).
    unfold cursorBoundedW in Hb. split.
    + unfold cursorBoundedW. simpl. lia.
    + intros _. unfold Recorded.calls in *.
      cbn [pending setPending Write1.advanceWrite w_start_ w_current_
             memory device_ setDevice dev_write Recorded.platform
             Recorded.plain snd fst] in *.
      rewrite !writtenSinceStart_app. cbn [Recorded.writeStep].
      rewrite <- Hc by lia.
      replace (Z.to_nat (w_current_ (pending s) + 1 - w_start_ (pending s)))
        with (S (Z.to_nat (w_current_ (pending s) - w_start_ (pending s))))
        by lia.
      rewrite contents_snoc. do 3 f_equal. lia.
Qed.

Lemma stepWrite1_bufferSent e (s : Write1.State (P:=REC)) :
  sizeIsNaturalW e -> bufferSent s -> bufferSent (finalState (stepWrite1 e s)).
Proof.
  intros Hsize Hs. destruct e as [buf size func | | | es]; cbn [stepWrite1].
  - apply bufferSent_asyncWrite; assumption.
  - revert s Hs. apply preserves_bind; [apply bufferSent_cancelWrite|].
    intros _. apply preserves_ret.
  - apply bufferSent_canWriteInterruptHandler. exact Hs.
  - apply (bufferSent_invoke es true). exact Hs.
Qed.

End Sent.

Section Filled.
Context (U : Platform) {B : Build}.
Local Notation "'REC'" := (Recorded.platform U).

(** A step that leaves memory, the buffer, the cursor and the calls. *)
Lemma bufferFilled_frame (s s' : Read1.State (P:=REC)) :
  bufferFilled s ->
  memory s' = memory s ->
  Recorded.calls s' = Recorded.calls s ->
  r_start_ (pending s') = r_start_ (pending s) ->
  r_current_ (pending s') = r_current_ (pending s) ->
  r_bufSize_ (pending s') = r_bufSize_ (pending s) ->
  bufferFilled s'.
Proof.
  unfold bufferFilled, cursorBounded.
  intros [Hb Hc] -> -> -> -> ->. split; assumption.
Qed.

(** A call other than [read] and [startRead]. *)
Lemma bufferFilled_call (s : Read1.State (P:=REC)) (d : @Device U) c :
  bufferFilled s ->
  (forall acc, Recorded.readStep acc c = acc) ->
  bufferFilled (setDevice (P:=REC) (d, Recorded.calls s ++ [c]) s).
Proof.
  unfold bufferFilled. intros [Hb Hc] Hstep. split; [exact Hb|].
  intros Hsize. unfold Recorded.calls in *.
  cbn [device_ setDevice snd pending memory] in *.
  rewrite readSinceStart_app, Hstep. apply Hc. exact Hsize.
Qed.

Lemma bufferFilled_invoke es c :
  preserves (bufferFilled (U:=U)) (Read1.withInfo (invokeHandler es c)).
Proof.
  intros s Hs. unfold Read1.withInfo.
  destruct (invoke_final (HI:=ReadInfo_Info) es c s) as (Hm & Hd & Hp).
  apply bufferFilled_frame with (s := s); try assumption.
  - exact (f_equal snd Hd).
  - destruct Hp as [Hp | Hp]; exact (f_equal r_start_ Hp).
  - destruct Hp as [Hp | Hp]; exact (f_equal r_current_ Hp).
  - destruct Hp as [Hp | Hp]; exact (f_equal r_bufSize_ Hp).
Qed.

Lemma bufferFilled_asyncReadUntil buf size pred func :
  0 <= size ->
  preserves (bufferFilled (U:=U)) (Read1.asyncReadUntil buf size pred func).
Proof.
  intros Hsize. unfold Read1.asyncReadUntil.
  apply preserves_bind; [apply preserves_gets|]. intros info.
  apply preserves_bind; [apply preserves_GASSERT|]. intros _.
  intros s Hs. unfold bind at 1, modify at 1. unfold bind at 1, modify at 1.
  unfold Read1.initRead. unfold bind at 1, modify at 1.
  destruct (size =? 0) eqn:Hz.
  - unfold bind at 1, gets. apply bufferFilled_invoke.
    apply Z.eqb_eq in Hz. subst size.
    split; [unfold cursorBounded; simpl; lia|].
    intros Hn. exfalso. apply Hn. reflexivity.
  - cbn [doDevice modify finalState]. split.
    + unfold cursorBounded. simpl. lia.
    + intros _. unfold Recorded.calls.
      cbn [pending setPending setDevice Read1.setBuffer r_start_ r_current_
             memory device_ dev_startRead Recorded.platform Recorded.plain
             snd].
      rewrite Z.sub_diag, readSinceStart_app. reflexivity.
Qed.

Lemma bufferFilled_cancelRead :
  preserves (bufferFilled (U:=U)) Read1.cancelRead.
Proof.
  unfold Read1.cancelRead.
  apply preserves_bind.
  { intros s Hs. unfold callDevice.
    cbn [dev_cancelRead Recorded.platform]. unfold Recorded.returning.
    destruct (dev_cancelRead EventLoopContext (fst (device_ s))) as [a d].
    cbn [finalState]. apply bufferFilled_call; [exact Hs | reflexivity]. }
  intros cancelled.
  apply preserves_if;
    (apply preserves_bind; [apply preserves_gets|]; intros info);
    (apply preserves_bind; [apply preserves_GASSERT|]; intros _);
    [apply preserves_ret|].
  apply preserves_bind; [apply preserves_GASSERT|]. intros _.
  apply preserves_bind; [|intros _; apply preserves_ret].
  apply bufferFilled_invoke.
Qed.

Lemma bufferFilled_canReadInterruptHandler :
  preserves (bufferFilled (U:=U)) Read1.canReadInterruptHandler.
Proof.
  unfold Read1.canReadInterruptHandler.
  apply preserves_bind; [apply preserves_gets|]. intros info.
  apply canReadLoop1_preserves.
  - intros s more d Hs Hcan.
    apply (returning_inv (U:=U) dev_canRead (@Recorded.CanRead U)) in Hcan.
    destruct Hcan as (x & _ & ->).
    apply bufferFilled_call; [exact Hs | reflexivity].
  - intros s d1 ch d2 [Hb Hc] Hroom Hcan Hread.
    apply (returning_inv (U:=U) dev_canRead (@Recorded.CanRead U)) in Hcan.
    destruct Hcan as (x & _ & ->).
    apply (returning_inv (U:=U) dev_read (@Recorded.Read U)) in Hread.
    destruct Hread as (y & _ & ->).
    unfold cursorBounded in Hb. split.
    + unfold cursorBounded. simpl. lia.
    + intros _. unfold afterRead, Recorded.calls in *.
      cbn [pending setPending advanceRead r_start_ r_current_ memory
             setMemory device_ setDevice snd fst] in *.
      rewrite !readSinceStart_app. cbn [Recorded.readStep].
      rewrite <- Hc by lia.
      replace (Z.to_nat (r_current_ (pending s) + 1 - r_start_ (pending s)))
        with (S (Z.to_nat (r_current_ (pending s) - r_start_ (pending s))))
        by lia.
      replace (r_current_ (pending s))
        with (r_start_ (pending s)
              + Z.of_nat (Z.to_nat (r_current_ (pending s)
                                    - r_start_ (pending s)))) at 1
        by lia.
      apply (contents_store (P:=REC)).
  - intros s cancelled d Hs Hc.
    apply (returning_inv (U:=U) (dev_cancelRead InterruptContext)
             (@Recorded.CancelRead U InterruptContext)) in Hc.
    destruct Hc as (x & _ & ->).
    apply bufferFilled_call; [exact Hs | reflexivity].
  - apply bufferFilled_invoke.
Qed.

Lemma bufferFilled_readComplete es :
  preserves (bufferFilled (U:=U)) (Read1.readCompleteInterruptHandler es).
Proof.
  unfold Read1.readCompleteInterruptHandler.
  apply preserves_bind; [apply preserves_gets|]. intros info.
  apply preserves_bind; [apply preserves_statusStands|]. intros stands.
  apply preserves_if; apply bufferFilled_invoke.
Qed.

Lemma stepRead1_bufferFilled e (s : Read1.State (P:=REC)) :
  sizeIsNatural e -> bufferFilled s ->
  bufferFilled (finalState (stepRead1 e s)).
Proof.
  intros Hsize Hs.
  destruct e as [buf size func | buf size pred func | | | es];
    cbn [stepRead1].
  - apply (bufferFilled_asyncReadUntil buf None func Hsize). exact Hs.
  - apply bufferFilled_asyncReadUntil; assumption.
  - revert s Hs. apply preserves_bind; [apply bufferFilled_cancelRead|].
    intros _. apply preserves_ret.
  - apply bufferFilled_canReadInterruptHandler. exact Hs.
  - apply bufferFilled_readComplete. exact Hs.
Qed.

End Filled.

Section WriteMemory.
Context {P : Platform} {B : Build}.

(** The write engine never stores to memory. *)
Lemma stepWrite1_memory e (m0 : Memory) :
  preserves (fun s : Write1.State => memory s = m0) (stepWrite1 e).
Proof.
  assert (Hinvoke : forall es c,
             preserves (fun s : Write1.State => memory s = m0)
               (Write1.withInfo (invokeHandler es c))).
  { intros es c s Hs. unfold Write1.withInfo.
    destruct (invoke_final (HI:=WriteInfo_Info) es c s) as (Hm & _).
    rewrite <- Hs. exact Hm. }
  destruct e as [buf size func | | | es]; cbn [stepWrite1].
  - unfold Write1.asyncWrite, Write1.initWrite.
    apply preserves_bind; [apply preserves_gets|]. intros info.
    apply preserves_bind; [apply preserves_GASSERT|]. intros _.
    apply preserves_bind; [apply preserves_modify; intros s H; exact H|].
    intros _.
    apply preserves_bind; [apply preserves_modify; intros s H; exact H|].
    intros _. apply preserves_if; [apply Hinvoke|].
    apply preserves_doDevice. intros; assumption.
  - apply preserves_bind; [|intros _; apply preserves_ret].
    unfold Write1.cancelWrite.
    apply preserves_bind;
      [apply preserves_callDevice; intros; assumption|].
    intros cancelled.
    apply preserves_if;
      (apply preserves_bind; [apply preserves_gets|]; intros info);
      (apply preserves_bind; [apply preserves_GASSERT|]; intros _);
      [apply preserves_ret|].
    apply preserves_bind; [apply preserves_GASSERT|]. intros _.
    apply preserves_bind; [apply Hinvoke | intros _; apply preserves_ret].
  - unfold Write1.canWriteInterruptHandler.
    apply preserves_bind; [apply preserves_gets|]. intros info.
    apply canWriteLoop_preserves; intros; assumption.
  - apply Hinvoke.
Qed.

End WriteMemory.

Lemma device_is_called_as_documented_witness :
  Recorded.orderly
    (Recorded.calls
       (finalState
          (run (stepReadN (B:=Sim.checked)) Observed.queuedReads
             (Observed.engine (Sim.received [72; 105; 33] (Sim.idle 4))
                Sim.zeroMemory [])))) = true /\
  Recorded.lastCall
    [Recorded.StartRead Inputs.queued 3 EventLoopContext;
     Recorded.CanRead Inputs.queued true] =
  Some (Recorded.CanRead Inputs.queued true).
Proof.
  destruct (@device_is_called_as_documented Inputs.queued Sim.checked)
    as (Hmeaning & HreadN & _ & _).
  split.
  - apply HreadN. reflexivity.
  - apply (Hmeaning
             [Recorded.StartRead Inputs.queued 3 EventLoopContext;
              Recorded.CanRead Inputs.queued true]
             (Recorded.Read Inputs.queued 72) []).
    reflexivity.
Defined.

(** Every operation keeps to the context it is called in.  The public
    functions are called from the event loop and the hooks from
    interrupt handlers.  [startRead] and [cancelRead] are the device
    calls the driver makes with either context tag: an operation makes
    them with its own, and whatever it posts to the event loop, it posts
    from its own.  The next read of the queued engine is therefore
    started from interrupt context when a hook finishes a request, and
    from the event loop by [asyncRead]. *)
Theorem operations_keep_to_their_context (U : Platform) {B : Build} :
  (forall e (s : ReadN.State (P:=Recorded.platform U)),
      exists l p,
        Recorded.calls (finalState (stepReadN e s)) =
        Recorded.calls s ++ l /\
        el_posted (el_ (finalState (stepReadN e s))) =
        el_posted (el_ s) ++ p /\
        Forall (fun c => Recorded.callContext c = None \/
                         Recorded.callContext c = Some (eventContext e)) l /\
        Forall (fun x => fst x = eventContext e) p) /\
  (forall e (s : Read1.State (P:=Recorded.platform U)),
      exists l p,
        Recorded.calls (finalState (stepRead1 e s)) =
        Recorded.calls s ++ l /\
        el_posted (el_ (finalState (stepRead1 e s))) =
        el_posted (el_ s) ++ p /\
        Forall (fun c => Recorded.callContext c = None \/
                         Recorded.callContext c = Some (eventContext e)) l /\
        Forall (fun x => fst x = eventContext e) p) /\
  (forall e (s : Write1.State (P:=Recorded.platform U)),
      exists l p,
        Recorded.calls (finalState (stepWrite1 e s)) =
        Recorded.calls s ++ l /\
        el_posted (el_ (finalState (stepWrite1 e s))) =
        el_posted (el_ s) ++ p /\
        Forall (fun c => Recorded.callContext c = None \/
                         Recorded.callContext c = Some (eventContextW e)) l /\
        Forall (fun x => fst x = eventContextW e) p).
Proof.
  split; [|split]; intros e s.
  - destruct (stepReadN_during e s) as (l & p & Hl & Hp & _ & Hc & Hx).
    exists l, p. repeat split; assumption.
  - destruct (stepRead1_during e s) as (l & p & Hl & Hp & _ & Hc & Hx).
    exists l, p. repeat split; assumption.
  - destruct (stepWrite1_during e s) as (l & p & Hl & Hp & _ & Hc & Hx).
    exists l, p. repeat split; assumption.
Qed.

(** A write hands the buffer to the device in order.  Over any sequence
    of operations of the write engine (sizes not negative), whatever
    the device answers and however the operations end: the characters
    written to the device since the write was started are those the
    buffer holds from its start up to the cursor, each once and in
    order, and memory is as it was. *)
Theorem write_hands_buffer_to_device_in_order (U : Platform) {B : Build} :
  forall events (s : Write1.State (P:=Recorded.platform U)),
    Forall sizeIsNaturalW events ->
    bufferSent s ->
    bufferSent (finalState (run stepWrite1 events s)) /\
    memory (finalState (run stepWrite1 events s)) = memory s.
Proof.
  intros events s Hsizes Hs. split.
  - apply (run_preserves stepWrite1 (ok := sizeIsNaturalW)
             (bufferSent (U:=U))); [|exact Hsizes | exact Hs].
    intros e s1. apply stepWrite1_bufferSent.
  - apply (run_preserves stepWrite1 (ok := fun _ => True)
             (fun s1 => memory s1 = memory s));
      [|apply Forall_always | reflexivity].
    intros e s1 _. apply stepWrite1_memory.
Qed.

Lemma write_hands_buffer_to_device_in_order_witness :
  Recorded.writtenSinceStart
    (Recorded.calls
       (finalState
          (run (stepWrite1 (B:=Sim.checked)) Observed.cancelledWrite
             (Observed.engine (Sim.idle 3) Observed.numbered
                Observed.noWrite)))) =
  [100; 101; 102].
Proof.
  destruct (@write_hands_buffer_to_device_in_order Inputs.queued Sim.checked
              Observed.cancelledWrite
              (Observed.engine (Sim.idle 3) Observed.numbered
                 Observed.noWrite))
    as [[_ Hsent] _].
  - repeat constructor; simpl; lia.
  - split; [unfold cursorBoundedW; simpl; lia|].
    intros Hsize. exfalso. apply Hsize. reflexivity.
  - etransitivity; [symmetry; apply Hsent; vm_compute; discriminate|].
    vm_compute. reflexivity.
Defined.

(** A read fills its buffer in arrival order.  Over any sequence of
    operations of the single-slot read engine (sizes not negative),
    whatever the device answers and however the operations end: the
    buffer holds, from its start up to the cursor, the characters read
    from the device since the read was started, each once and in the
    order they were read. *)
Theorem read_fills_buffer_in_arrival_order (U : Platform) {B : Build} :
  forall events (s : Read1.State (P:=Recorded.platform U)),
    Forall sizeIsNatural events ->
    bufferFilled s ->
    bufferFilled (finalState (run stepRead1 events s)).
Proof.
  intros events s Hsizes Hs.
  apply (run_preserves stepRead1 (ok := sizeIsNatural)
           (bufferFilled (U:=U))); [|exact Hsizes | exact Hs].
  intros e s1. apply stepRead1_bufferFilled.
Qed.

Lemma read_fills_buffer_in_arrival_order_witness :
  contents
    (memory
       (finalState
          (run (stepRead1 (B:=Sim.checked)) Observed.slotRead
             (Observed.engine (Sim.received [72; 105; 33] (Sim.idle 3))
                Observed.numbered Observed.noRead))))
    100 3 =
  [72; 105; 33].
Proof.
  destruct (@read_fills_buffer_in_arrival_order Inputs.queued Sim.checked
              Observed.slotRead
              (Observed.engine (Sim.received [72; 105; 33] (Sim.idle 3))
                 Observed.numbered Observed.noRead))
    as [_ Hfilled].
  - repeat constructor; simpl; lia.
  - split; [unfold cursorBounded; simpl; lia|].
    intros Hsize. exfalso. apply Hsize. reflexivity.
  - etransitivity; [apply Hfilled; vm_compute; discriminate|].
    vm_compute. reflexivity.
Defined.

(** ** Calls outside the preconditions *)

Section Outside.
Context {P : Platform} {B : Build}.

(** [invokeHandler] when the event loop refuses the post. *)
Lemma invokeHandler_refused {I} {HI : Info I} es c (el : EventLoop)
    (info : I) h :
  handler_ info = Some h ->
  el_room el = 0%nat ->
  invokeHandler es c (el, info) =
  if assertsEnabled then AssertFailed (el, moveHandler info)
  else Ret tt (el, moveHandler info).
Proof.
  intros Hh Hroom. rewrite invokeHandler_unfold, Hh.
  cbn [isSet negb]. rewrite andb_false_r.
  unfold enqueue. rewrite Hroom. cbn [negb]. rewrite andb_true_r.
  reflexivity.
Qed.

(** [invokeHandler] on a slot that holds no handler. *)
Lemma invokeHandler_empty {I} {HI : Info I} es c (el : EventLoop)
    (info : I) room :
  handler_ info = None ->
  el_room el = S room ->
  invokeHandler es c (el, info) =
  if assertsEnabled then AssertFailed (el, info)
  else Ret tt (posted (ctxOf c) (boundOf info es) el, moveHandler info).
Proof.
  intros Hh Hroom. rewrite invokeHandler_unfold, Hh.
  cbn [isSet negb]. rewrite andb_true_r.
  destruct assertsEnabled; [reflexivity|]. cbn [andb].
  unfold enqueue, posted. rewrite Hroom. reflexivity.
Qed.

Lemma asyncRead1_busy buf size pred func (s : Read1.State) h :
  r_handler_ (pending s) = Some h ->
  size <> 0 ->
  Read1.asyncReadUntil buf size pred func s =
  if assertsEnabled then AssertFailed s
  else
    Ret tt
      (setDevice (dev_startRead size EventLoopContext (device_ s))
         (setPending (mkReadInfo buf size func pred) s)).
Proof.
  intros Hh Hsize. apply Z.eqb_neq in Hsize. unfold Read1.asyncReadUntil.
  unfold bind at 1, gets. rewrite Hh. cbn [isSet negb].
  unfold bind at 1, GASSERT. cbn [negb]. rewrite andb_true_r.
  destruct assertsEnabled; [reflexivity|].
  unfold bind at 1, modify at 1. unfold bind at 1, modify at 1.
  unfold Read1.initRead. unfold bind at 1, modify at 1.
  rewrite Hsize. reflexivity.
Qed.

Lemma asyncWrite_busy buf size func (s : Write1.State) h :
  w_handler_ (pending s) = Some h ->
  size <> 0 ->
  Write1.asyncWrite buf size func s =
  if assertsEnabled then AssertFailed s
  else
    Ret tt
      (setDevice (dev_startWrite size (device_ s))
         (setPending
            {| w_start_ := buf; w_current_ := buf; w_bufSize_ := size;
               w_handler_ := Some func |} s)).
Proof.
  intros Hh Hsize. apply Z.eqb_neq in Hsize. unfold Write1.asyncWrite.
  unfold bind at 1, gets. rewrite Hh. cbn [isSet negb].
  unfold bind at 1, GASSERT. cbn [negb]. rewrite andb_true_r.
  destruct assertsEnabled; [reflexivity|].
  unfold bind at 1, modify at 1.
  unfold Write1.initWrite. unfold bind at 1, modify at 1.
  rewrite Hsize. reflexivity.
Qed.

End Outside.

Section ZeroPrefix.
Context {P : Platform} {B : Build}.

Lemma posted_postedAll ctx b l (el : EventLoop) :
  postedAll l (posted ctx b el) = postedAll ((ctx, b) :: l) el.
Proof.
  unfold postedAll, posted. cbn. rewrite <- app_assoc. f_equal.
  destruct (el_room el); reflexivity.
Qed.

(** [startNextRead] on a queue that starts with zero-size requests. *)
Lemma startNextRead_zeros c zs :
  forall (s : ReadN.State) rest,
    pending s = zs ++ rest ->
    Forall waitingZero zs ->
    (length zs <= el_room (el_ s))%nat ->
    ReadN.startNextRead c s =
    ReadN.startNextRead c
      (setPending rest
         (setEl (postedAll (map (zeroSizeDone c) zs) (el_ s)) s)).
Proof.
  induction zs as [|z zs IH]; intros s rest Hq Hzs Hroom.
  - cbn [map]. cbn [app] in Hq. rewrite <- Hq.
    destruct s as [d [posted room] mem q].
    unfold postedAll, setPending, setEl. cbn.
    rewrite app_nil_r, Nat.sub_0_r. reflexivity.
  - inversion Hzs as [|? ? (Hsize & Hcur & Hh) Hrest]; subst.
    destruct (r_handler_ z) as [h|] eqn:Hhz; [|contradiction].
    cbn [length] in Hroom.
    destruct (el_room (el_ s)) as [|room] eqn:Hr; [lia|].
    cbn [app] in Hq.
    rewrite (startNextRead_zero c s Hq Hsize Hhz Hr Hcur).
    rewrite (IH _ rest); [| reflexivity | exact Hrest |
                          cbn [el_ setEl setPending posted el_room];
                          rewrite Hr; cbn; lia].
    cbn [el_ setEl setPending].
    rewrite posted_postedAll. cbn [map]. unfold zeroSizeDone at 2.
    unfold completion. rewrite Hhz. reflexivity.
Qed.

End ZeroPrefix.

(** Zero-size requests at the front of the queue are completed in queue
    order before the next read is started.  When the queue starts with
    the zero-size requests [zs] (handlers stored, room in the event
    loop), [startNextRead] posts one completion for each of them, in
    queue order, with [Success] or, for a request with a predicate,
    [BufferOverflow], and zero characters; it then returns when nothing
    is left, or starts the read of the first request of size other than
    zero, which it leaves at the front. *)
Theorem zero_size_requests_complete_in_queue_order
    {P : Platform} {B : Build} :
  forall c (s : ReadN.State) zs rest,
    pending s = zs ++ rest ->
    Forall waitingZero zs ->
    (length zs <= el_room (el_ s))%nat ->
    (rest = [] ->
     ReadN.startNextRead c s =
     Ret tt
       (setPending []
          (setEl (postedAll (map (zeroSizeDone c) zs) (el_ s)) s))) /\
    (forall info tail,
        rest = info :: tail ->
        r_bufSize_ info <> 0 ->
        ReadN.startNextRead c s =
        Ret tt
          (setDevice
             (dev_startRead (r_bufSize_ info) (ctxOf c) (device_ s))
             (setPending (info :: tail)
                (setEl (postedAll (map (zeroSizeDone c) zs) (el_ s)) s)))).
Proof.
  intros c s zs rest Hq Hzs Hroom.
  rewrite (startNextRead_zeros c s rest Hq Hzs Hroom). split.
  - intros ->. apply startNextRead_nil. reflexivity.
  - intros info tail -> Hsize.
    rewrite (startNextRead_start c _ (info := info) (rest := tail));
      [reflexivity | reflexivity | exact Hsize].
Qed.

Lemma zero_size_requests_complete_in_queue_order_witness :
  Sim.postedOf
    (ReadN.startNextRead (P:=Inputs.queued) (B:=Sim.checked) true
       (Inputs.engine (Sim.idle 4)
          [Inputs.readInfo 300 0 0 (Some 1%nat) None;
           Inputs.readInfo 400 0 0 (Some 2%nat) (Some (Sim.untilChar 10));
           Inputs.readInfo 200 2 0 (Some 3%nat) None])) =
  [(InterruptContext, (Some 1%nat, Success, 0));
   (InterruptContext, (Some 2%nat, BufferOverflow, 0))] /\
  queuedHandlers
    (pending
       (finalState
          (ReadN.startNextRead (P:=Inputs.queued) (B:=Sim.checked) true
             (Inputs.engine (Sim.idle 4)
                [Inputs.readInfo 300 0 0 (Some 1%nat) None;
                 Inputs.readInfo 400 0 0 (Some 2%nat)
                   (Some (Sim.untilChar 10));
                 Inputs.readInfo 200 2 0 (Some 3%nat) None])))) =
  [3%nat].
Proof.
  destruct (@zero_size_requests_complete_in_queue_order Inputs.queued
              Sim.checked true
              (Inputs.engine (Sim.idle 4)
                 [Inputs.readInfo 300 0 0 (Some 1%nat) None;
                  Inputs.readInfo 400 0 0 (Some 2%nat)
                    (Some (Sim.untilChar 10));
                  Inputs.readInfo 200 2 0 (Some 3%nat) None])
              [Inputs.readInfo 300 0 0 (Some 1%nat) None;
               Inputs.readInfo 400 0 0 (Some 2%nat)
                 (Some (Sim.untilChar 10))]
              [Inputs.readInfo 200 2 0 (Some 3%nat) None])
    as [_ Hstart].
  - reflexivity.
  - repeat constructor; simpl; discriminate.
  - simpl. lia.
  - unfold ReadN.State in *.
    rewrite (Hstart (Inputs.readInfo 200 2 0 (Some 3%nat) None) []);
      [split; reflexivity | reflexivity | discriminate].
Defined.

(** A refused post loses the completion.  [invokeHandler] takes the
    handler out of the request before it posts; when the event loop
    refuses the post (no room), the handler is neither posted nor
    stored any more: a build that checks assertions stops there, a build
    that does not returns as if the completion had been delivered.  So
    it is for the write-complete hook. *)
Theorem refused_post_loses_the_handler {P : Platform} {B : Build} :
  (forall (I : Type) (HI : Info I) es c (el : EventLoop) (info : I) h,
      handler_ info = Some h ->
      el_room el = 0%nat ->
      invokeHandler es c (el, info) =
      (if assertsEnabled then AssertFailed (el, moveHandler info)
       else Ret tt (el, moveHandler info)) /\
      handler_ (moveHandler info) = None) /\
  (forall es (s : Write1.State) h,
      w_handler_ (pending s) = Some h ->
      el_room (el_ s) = 0%nat ->
      Write1.writeCompleteInterruptHandler es s =
      (if assertsEnabled
       then AssertFailed (setPending (moveHandler (pending s)) s)
       else Ret tt (setPending (moveHandler (pending s)) s)) /\
      handlersW (setPending (moveHandler (pending s)) s) =
      postedHandlers (el_ s)).
Proof.
  split.
  - intros I HI es c el info h Hh Hroom. split.
    + apply invokeHandler_refused with (h := h); assumption.
    + apply handler_moveHandler.
  - intros es s h Hh Hroom. split.
    + unfold Write1.writeCompleteInterruptHandler, Write1.withInfo, zoom,
        elAndPending.
      rewrite (invokeHandler_refused (HI:=WriteInfo_Info) es true (el_ s)
                 (pending s) Hh Hroom).
      destruct s as [d el mem q]. destruct assertsEnabled; reflexivity.
    + unfold handlersW. cbn. rewrite app_nil_r. reflexivity.
Qed.

Lemma refused_post_loses_the_handler_witness :
  Write1.writeCompleteInterruptHandler (P:=Inputs.queued) (B:=Sim.unchecked)
    Success
    (@Build_Support Inputs.queued _ (Sim.idle 4) (Sim.emptyLoop 0)
       Sim.zeroMemory (Inputs.writeInfo 100 4 4 (Some 1%nat))) =
  Ret tt
    (@Build_Support Inputs.queued _ (Sim.idle 4) (Sim.emptyLoop 0)
       Sim.zeroMemory (Inputs.writeInfo 100 4 4 None)).
Proof.
  destruct (@refused_post_loses_the_handler Inputs.queued Sim.unchecked)
    as [_ Hwrite].
  destruct (Hwrite Success
              (@Build_Support Inputs.queued _ (Sim.idle 4) (Sim.emptyLoop 0)
                 Sim.zeroMemory (Inputs.writeInfo 100 4 4 (Some 1%nat)))
              1%nat eq_refl eq_refl) as [Hret _].
  exact Hret.
Defined.

(** A request submitted to a single-slot engine that still holds one.
    A build that checks assertions stops at the call.  A build that does
    not puts the new request in the place of the old one and starts it
    at the device: the handler of the old request is dropped, it is
    never posted. *)
Theorem second_request_replaces_first {P : Platform} {B : Build} :
  (forall buf size pred func (s : Read1.State) h,
      r_handler_ (pending s) = Some h ->
      size <> 0 ->
      Read1.asyncReadUntil buf size pred func s =
      (if assertsEnabled then AssertFailed s
       else
         Ret tt
           (setDevice (dev_startRead size EventLoopContext (device_ s))
              (setPending (mkReadInfo buf size func pred) s))) /\
      Read1.asyncRead buf size func s =
      (if assertsEnabled then AssertFailed s
       else
         Ret tt
           (setDevice (dev_startRead size EventLoopContext (device_ s))
              (setPending (mkReadInfo buf size func None) s))) /\
      handlers1
        (setDevice (dev_startRead size EventLoopContext (device_ s))
           (setPending (mkReadInfo buf size func pred) s)) =
      postedHandlers (el_ s) ++ [func]) /\
  (forall buf size func (s : Write1.State) h,
      w_handler_ (pending s) = Some h ->
      size <> 0 ->
      Write1.asyncWrite buf size func s =
      (if assertsEnabled then AssertFailed s
       else
         Ret tt
           (setDevice (dev_startWrite size (device_ s))
              (setPending
                 {| w_start_ := buf; w_current_ := buf; w_bufSize_ := size;
                    w_handler_ := Some func |} s))) /\
      handlersW
        (setDevice (dev_startWrite size (device_ s))
           (setPending
              {| w_start_ := buf; w_current_ := buf; w_bufSize_ := size;
                 w_handler_ := Some func |} s)) =
      postedHandlers (el_ s) ++ [func]).
Proof.
  split.
  - intros buf size pred func s h Hh Hsize. split; [|split].
    + apply asyncRead1_busy with (h := h); assumption.
    + apply (asyncRead1_busy buf None func s Hh Hsize).
    + reflexivity.
  - intros buf size func s h Hh Hsize. split.
    + apply asyncWrite_busy with (h := h); assumption.
    + reflexivity.
Qed.

Lemma second_request_replaces_first_witness :
  Sim.ending
    (Write1.asyncWrite (P:=Inputs.queued) (B:=Sim.checked) 200 2 2%nat
       (Inputs.engine (Sim.writing 4 (Sim.idle 4))
          (Inputs.writeInfo 100 4 0 (Some 1%nat)))) =
  Sim.FailedAssertion /\
  handlersW
    (finalState
       (Write1.asyncWrite (P:=Inputs.queued) (B:=Sim.unchecked) 200 2 2%nat
          (Inputs.engine (Sim.writing 4 (Sim.idle 4))
             (Inputs.writeInfo 100 4 0 (Some 1%nat))))) =
  [2%nat].
Proof.
  destruct (@second_request_replaces_first Inputs.queued Sim.checked)
    as [_ Hchecked].
  destruct (@second_request_replaces_first Inputs.queued Sim.unchecked)
    as [_ Hunchecked].
  split.
  - destruct (Hchecked 200 2 2%nat
                (Inputs.engine (Sim.writing 4 (Sim.idle 4))
                   (Inputs.writeInfo 100 4 0 (Some 1%nat))) 1%nat)
      as [Hret _]; [reflexivity | discriminate |].
    rewrite Hret. reflexivity.
  - destruct (Hunchecked 200 2 2%nat
                (Inputs.engine (Sim.writing 4 (Sim.idle 4))
                   (Inputs.writeInfo 100 4 0 (Some 1%nat))) 1%nat)
      as [Hret Hhandlers]; [reflexivity | discriminate |].
    rewrite Hret. reflexivity.
Defined.

(** A completion interrupt that finds no request.
    - The read-complete hook of the single-slot engine with a status
      without error first loads the character before the cursor.  On a
      slot that holds no such character (as constructed, where the load
      is from [nullptr - 1]; or with the cursor at the start of the
      buffer or past its end) the behaviour is undefined in both builds,
      whether a handler is stored or not.
    - Where the load is not made (an error status) or is within the
      buffer (a request completed or cancelled after it read
      characters), and the slot holds no handler, the read-complete hook
      stops at the assertion of [invokeHandler] in a build that checks
      assertions; in a build that does not it posts a callable that
      holds no handler.  So does the write-complete hook, which loads
      nothing, on a slot without handler.
    - The queued engine with an empty queue stops at its own assertion,
      or goes on to use the front of the empty queue. *)
Theorem completion_without_request {P : Platform} {B : Build} :
  (forall es (s : Read1.State),
      isError es = false ->
      r_current_ (pending s) <= r_start_ (pending s) \/
      r_start_ (pending s) + r_bufSize_ (pending s) <
      r_current_ (pending s) ->
      Read1.readCompleteInterruptHandler es s = Undefined s) /\
  (forall es (s : Read1.State) room,
      r_handler_ (pending s) = None ->
      el_room (el_ s) = S room ->
      isError es = true \/
      r_start_ (pending s) < r_current_ (pending s) <=
      r_start_ (pending s) + r_bufSize_ (pending s) ->
      Read1.readCompleteInterruptHandler es s =
      if assertsEnabled then AssertFailed s
      else
        Ret tt
          (setPending (moveHandler (pending s))
             (setEl
                (posted InterruptContext
                   {| bound_handler := None;
                      bound_es := readCompleteStatus es (memory s) (pending s);
                      bound_size :=
                        to_size_t (r_current_ (pending s)
                                   - r_start_ (pending s)) |}
                   (el_ s)) s))) /\
  (forall es (s : Write1.State) room,
      w_handler_ (pending s) = None ->
      el_room (el_ s) = S room ->
      Write1.writeCompleteInterruptHandler es s =
      if assertsEnabled then AssertFailed s
      else
        Ret tt
          (setPending (moveHandler (pending s))
             (setEl
                (posted InterruptContext
                   {| bound_handler := None;
                      bound_es := es;
                      bound_size :=
                        to_size_t (w_current_ (pending s)
                                   - w_start_ (pending s)) |}
                   (el_ s)) s))) /\
  (forall es (s : ReadN.State),
      pending s = [] ->
      ReadN.readCompleteInterruptHandler es s =
      if assertsEnabled then AssertFailed s else Undefined s).
Proof.
  split; [|split; [|split]].
  - intros es s He Hout.
    unfold Read1.readCompleteInterruptHandler, bind, gets.
    rewrite (statusStands_undefined es (pending s) s He); [reflexivity|].
    unfold lastCharInBuffer. apply andb_false_iff.
    destruct Hout as [Hlo | Hhi].
    + left. apply Z.ltb_ge. exact Hlo.
    + right. apply Z.leb_gt. exact Hhi.
  - intros es s room Hh Hroom Hload.
    assert (Hin : isError es = true \/
                  lastCharInBuffer (pending s) = true).
    { destruct Hload as [He | Hin]; [left; exact He | right].
      apply lastCharInBuffer_true. exact Hin. }
    unfold Read1.readCompleteInterruptHandler, bind, gets.
    rewrite (statusStands_defined es (pending s) s Hin).
    unfold readCompleteStatus, Read1.withInfo, zoom, elAndPending.
    destruct (isError es ||
              negb (seekedCharFound
                      (memory s (r_current_ (pending s) - 1)) (pending s)));
      rewrite (invokeHandler_empty (HI:=ReadInfo_Info) _ true (el_ s)
                 (pending s) Hh Hroom);
      destruct s as [d el mem q]; cbn in Hh; destruct assertsEnabled;
      try reflexivity;
      unfold boundOf; cbn; rewrite Hh; reflexivity.
  - intros es s room Hh Hroom.
    unfold Write1.writeCompleteInterruptHandler, Write1.withInfo, zoom,
      elAndPending.
    rewrite (invokeHandler_empty (HI:=WriteInfo_Info) es true (el_ s)
               (pending s) Hh Hroom).
    destruct s as [d el mem q]; cbn in Hh; destruct assertsEnabled;
      try reflexivity.
    unfold boundOf; cbn; rewrite Hh; reflexivity.
  - intros es s Hq. unfold ReadN.readCompleteInterruptHandler.
    unfold bind at 1, gets. rewrite Hq. unfold bind at 1, GASSERT.
    cbn [ReadN.empty negb]. rewrite andb_true_r.
    destruct assertsEnabled; reflexivity.
Qed.

Lemma completion_without_request_witness :
  Sim.ending
    (Read1.readCompleteInterruptHandler (P:=Inputs.queued)
       (B:=Sim.unchecked) Success Inputs.idleSlot) =
  Sim.UsedMissingElement /\
  Sim.postedOf
    (Read1.readCompleteInterruptHandler (P:=Inputs.queued)
       (B:=Sim.unchecked) Success Inputs.doneSlot) =
  [(InterruptContext, (None, Success, 2))] /\
  Sim.ending
    (ReadN.readCompleteInterruptHandler (P:=Inputs.queued)
       (B:=Sim.checked) Success Inputs.idleQueued) = Sim.FailedAssertion.
Proof.
  destruct (@completion_without_request Inputs.queued Sim.unchecked)
    as (Hnone & Hread & _ & _).
  destruct (@completion_without_request Inputs.queued Sim.checked)
    as (_ & _ & _ & Hqueued).
  split; [|split].
  - rewrite (Hnone Success Inputs.idleSlot eq_refl); [reflexivity|].
    left. simpl. lia.
  - rewrite (Hread Success Inputs.doneSlot 7%nat eq_refl eq_refl);
      [reflexivity|].
    right. simpl. lia.
  - rewrite (Hqueued Success Inputs.idleQueued eq_refl). reflexivity.
Defined.


(** ** The buffer of the request at the front of the queue *)

Section Final.
Context {P : Platform} {B : Build}.

Lemma finalState_bind {S A C} (m : M S A) (k : A -> M S C) s :
  finalState (bind m k s) =
  match m s with
  | Ret a s' => finalState (k a s')
  | AssertFailed s' | Undefined s' | OutOfFuel s' => s'
  end.
Proof. unfold bind. destruct (m s); reflexivity. Qed.

(** What [invokeHandler] leaves of the front of the queue. *)
Lemma withFront_final es c (s : ReadN.State) info rest :
  pending s = info :: rest ->
  memory (finalState (ReadN.withFront (invokeHandler es c) s)) = memory s /\
  device_ (finalState (ReadN.withFront (invokeHandler es c) s)) = device_ s /\
  (pending (finalState (ReadN.withFront (invokeHandler es c) s)) =
   info :: rest \/
   pending (finalState (ReadN.withFront (invokeHandler es c) s)) =
   moveHandler info :: rest).
Proof.
  intros Hq. unfold ReadN.withFront. rewrite Hq. unfold zoom.
  destruct (invokeHandler_effect (HI:=ReadInfo_Info) es c (el_ s) info)
    as [Hinfo _].
  destruct (invokeHandler es c (el_ s, info)) as [u t | t | t | t];
    cbn [finalState setPending setEl memory device_ pending snd] in *;
    (repeat split; destruct Hinfo as [-> | ->];
     [left | right]; reflexivity).
Qed.

(** [cancelRead]'s pass over the queue leaves buffers and cursors. *)
Lemma forEach_abortInfo_cursors (q : list ReadInfo) (el : EventLoop) :
  map (fun i => (r_start_ i, r_current_ i, r_bufSize_ i))
    (snd (finalState (ReadN.forEach ReadN.abortInfo q el))) =
  map (fun i => (r_start_ i, r_current_ i, r_bufSize_ i)) q.
Proof.
  revert el. induction q as [|info rest IH]; intros el; [reflexivity|].
  cbn [ReadN.forEach]. rewrite abortInfo_unfold.
  destruct (assertsEnabled
            && negb (r_current_ info <? r_start_ info + r_bufSize_ info));
    [reflexivity|].
  pose proof (invokeHandler_final (HI:=ReadInfo_Info) Aborted false el info)
    as Hfinal.
  destruct (invokeHandler Aborted false (el, info))
    as [u [el1 info1] | [el1 info1] | [el1 info1] | [el1 info1]];
    cbn [finalState snd] in Hfinal;
    try (cbn [finalState snd map]; destruct Hfinal as [-> | ->];
         reflexivity).
  specialize (IH el1).
  destruct (ReadN.forEach ReadN.abortInfo rest el1)
    as [u2 [el2 q2] | [el2 q2] | [el2 q2] | [el2 q2]];
    cbn [finalState snd map] in *; rewrite IH;
    destruct Hfinal as [-> | ->]; reflexivity.
Qed.

End Final.

Section QueueFilled.
Context (U : Platform) {B : Build}.
Local Notation "'REC'" := (Recorded.platform U).

(** A step that leaves memory and the calls, and the buffer and the
    cursor of the request at the front. *)
Lemma queueFilled_frame (s s' : ReadN.State (P:=REC)) info info' rest :
  queueFilled s ->
  pending s = info :: rest ->
  pending s' = info' :: rest ->
  memory s' = memory s ->
  Recorded.calls s' = Recorded.calls s ->
  r_start_ info' = r_start_ info ->
  r_current_ info' = r_current_ info ->
  r_bufSize_ info' = r_bufSize_ info ->
  queueFilled s'.
Proof.
  unfold queueFilled, cursorBounded. intros Hs Hq Hq' Hm Hc H1 H2 H3.
  rewrite Hq in Hs. rewrite Hq', Hm, Hc, H1, H2, H3. exact Hs.
Qed.

(** A call other than [read] and [startRead]. *)
Lemma queueFilled_call (s : ReadN.State (P:=REC)) (d : @Device U) c :
  queueFilled s ->
  (forall acc, Recorded.readStep acc c = acc) ->
  queueFilled (setDevice (P:=REC) (d, Recorded.calls s ++ [c]) s).
Proof.
  unfold queueFilled. intros Hs Hstep.
  cbn [pending setDevice memory].
  destruct (pending s) as [|info rest]; [exact I|].
  destruct Hs as (Hb & Hc & Hrest).
  split; [exact Hb | split; [|exact Hrest]].
  intros Hsize. unfold Recorded.calls in *. cbn [device_ setDevice snd].
  rewrite readSinceStart_app, Hstep. apply Hc. exact Hsize.
Qed.

Lemma queueFilled_withFront es c :
  preserves (queueFilled (U:=U)) (ReadN.withFront (invokeHandler es c)).
Proof.
  intros s Hs. destruct (pending s) as [|info rest] eqn:Hq.
  - unfold ReadN.withFront. rewrite Hq. exact Hs.
  - destruct (withFront_final es c s Hq) as (Hm & Hd & Hp).
    destruct Hp as [Hp | Hp].
    + apply queueFilled_frame
        with (s := s) (info := info) (info' := info) (rest := rest);
        try assumption; try reflexivity.
      exact (f_equal snd Hd).
    + apply queueFilled_frame
        with (s := s) (info := info)
             (info' := @moveHandler REC _ ReadInfo_Info info)
             (rest := rest);
        try assumption; try reflexivity.
      exact (f_equal snd Hd).
Qed.

(** [startNextRead] on a queue of requests that received nothing. *)
Lemma startNextReadLoop_untouched fuel c :
  forall s : ReadN.State (P:=REC),
    Forall untouched (pending s) ->
    queueFilled (finalState (ReadN.startNextReadLoop fuel c s)).
Proof.
  assert (Hstay : forall s : ReadN.State (P:=REC),
             Forall untouched (pending s) ->
             match pending s with
             | [] => True
             | info :: _ => r_bufSize_ info = 0
             end ->
             queueFilled s).
  { intros s Hall Hzero. unfold queueFilled.
    destruct (pending s) as [|info rest]; [exact I|].
    inversion Hall as [|? ? [Hcur Hsize] Hrest]; subst.
    split; [unfold cursorBounded; lia | split; [|exact Hrest]].
    intros Hn. contradiction. }
  assert (Hstart : forall (s : ReadN.State (P:=REC)) info rest ctx,
             pending s = info :: rest ->
             Forall untouched (info :: rest) ->
             r_bufSize_ info <> 0 ->
             queueFilled
               (setDevice (dev_startRead (r_bufSize_ info) ctx (device_ s))
                  s)).
  { intros s info rest ctx Hq Hall Hz.
    inversion Hall as [|? ? [Hcur Hsize] Hrest]; subst.
    unfold queueFilled. cbn [pending setDevice memory]. rewrite Hq.
    split; [unfold cursorBounded; lia | split; [|exact Hrest]].
    intros _. rewrite Hcur, Z.sub_diag. unfold Recorded.calls.
    cbn [device_ setDevice dev_startRead Recorded.platform Recorded.plain
           snd].
    rewrite readSinceStart_app. reflexivity. }
  induction fuel as [|fuel IH]; intros s Hall.
  - destruct (pending s) as [|info rest] eqn:Hq.
    + rewrite (startNextReadLoop_nil _ _ _ Hq). cbn [finalState].
      apply Hstay; rewrite Hq; [constructor | exact I].
    + rewrite (startNextReadLoop_cons _ _ _ Hq).
      destruct (r_bufSize_ info =? 0) eqn:Hz.
      * apply Z.eqb_eq in Hz. cbn [finalState outOfFuel].
        apply Hstay; rewrite Hq; [exact Hall | exact Hz].
      * apply Z.eqb_neq in Hz.
        destruct c; cbn [doDevice modify finalState];
          apply Hstart with (rest := rest); assumption.
  - destruct (pending s) as [|info rest] eqn:Hq.
    + rewrite (startNextReadLoop_nil _ _ _ Hq). cbn [finalState].
      apply Hstay; rewrite Hq; [constructor | exact I].
    + rewrite (startNextReadLoop_cons _ _ _ Hq).
      destruct (r_bufSize_ info =? 0) eqn:Hz.
      * apply Z.eqb_eq in Hz. rewrite finalState_bind.
        destruct (withFront_final (zeroSizeCode info) c s Hq)
          as (Hm & Hd & Hp).
        assert (Hrest : Forall untouched rest)
          by (inversion Hall; assumption).
        assert (Hinfo : untouched info) by (inversion Hall; assumption).
        destruct (ReadN.withFront (invokeHandler (zeroSizeCode info) c) s)
          as [u s1 | s1 | s1 | s1] eqn:Hw; cbn [finalState] in *;
          try (apply Hstay;
               [destruct Hp as [Hp | Hp]; rewrite Hp; constructor;
                assumption
               |destruct Hp as [Hp | Hp]; rewrite Hp; exact Hz]).
        rewrite finalState_bind. unfold ReadN.popFront at 1.
        destruct Hp as [Hp | Hp]; rewrite Hp; apply IH;
          cbn [pending setPending]; exact Hrest.
      * apply Z.eqb_neq in Hz.
        destruct c; cbn [doDevice modify finalState];
          apply Hstart with (rest := rest); assumption.
Qed.

Lemma startNextRead_untouched c (s : ReadN.State (P:=REC)) :
  Forall untouched (pending s) ->
  queueFilled (finalState (ReadN.startNextRead c s)).
Proof.
  intros Hall. unfold ReadN.startNextRead, bind at 1, gets.
  apply startNextReadLoop_untouched. exact Hall.
Qed.

(** What is left once the request at the front is done with: it is
    popped and the next read started. *)
Lemma queueFilled_next c (s : ReadN.State (P:=REC)) info rest :
  pending s = info :: rest ->
  Forall untouched rest ->
  queueFilled (finalState ((ReadN.popFront ;; ReadN.startNextRead c) s)).
Proof.
  intros Hq Hrest. rewrite finalState_bind. unfold ReadN.popFront.
  rewrite Hq. apply startNextRead_untouched. exact Hrest.
Qed.

Lemma queueFilled_finish es c (k : M (ReadN.State (P:=REC)) unit) :
  preserves (queueFilled (U:=U)) k ->
  preserves (queueFilled (U:=U))
    (ReadN.withFront (invokeHandler es c) ;;
     ReadN.popFront ;;
     ReadN.startNextRead c ;;
     k).
Proof.
  intros Hk s Hs. rewrite finalState_bind.
  pose proof (queueFilled_withFront es c s Hs) as Hs1.
  destruct (pending s) as [|info rest] eqn:Hq.
  { unfold ReadN.withFront. rewrite Hq. exact Hs. }
  destruct (withFront_final es c s Hq) as (_ & _ & Hp).
  destruct (ReadN.withFront (invokeHandler es c) s)
    as [u s1 | s1 | s1 | s1]; cbn [finalState] in *; try exact Hs1.
  assert (Hrest : Forall untouched rest).
  { unfold queueFilled in Hs. rewrite Hq in Hs. apply Hs. }
  assert (Hnext : queueFilled
                    (finalState
                       ((ReadN.popFront ;; ReadN.startNextRead c) s1))).
  { destruct Hp as [Hp | Hp];
      [apply queueFilled_next with (info := info) (rest := rest)
      |apply queueFilled_next
         with (info := @moveHandler REC _ ReadInfo_Info info)
              (rest := rest)];
      assumption. }
  rewrite finalState_bind in *.
  destruct (ReadN.popFront s1) as [u2 s2 | s2 | s2 | s2];
    cbn [finalState] in *; try exact Hnext.
  rewrite finalState_bind.
  destruct (ReadN.startNextRead c s2) as [u3 s3 | s3 | s3 | s3];
    cbn [finalState] in *; try exact Hnext.
  apply Hk. exact Hnext.
Qed.

Lemma queueFilled_canRead (s : ReadN.State (P:=REC)) more d :
  queueFilled s ->
  dev_canRead (device_ s) = (more, d) ->
  queueFilled (setDevice d s).
Proof.
  intros Hs Hcan.
  apply (returning_inv (U:=U) dev_canRead (@Recorded.CanRead U)) in Hcan.
  destruct Hcan as (x & _ & ->).
  apply queueFilled_call; [exact Hs | reflexivity].
Qed.

Lemma queueFilled_canReadAfterPop :
  preserves (queueFilled (U:=U)) ReadN.canReadAfterPop.
Proof.
  intros s Hs. unfold ReadN.canReadAfterPop. rewrite finalState_bind.
  unfold callDevice.
  destruct (dev_canRead (device_ s)) as [more d] eqn:Hcan.
  pose proof (queueFilled_canRead s Hs Hcan) as Hs1.
  destruct more; exact Hs1.
Qed.

Lemma queueFilled_canReadInterruptHandler :
  preserves (queueFilled (U:=U)) ReadN.canReadInterruptHandler.
Proof.
  unfold ReadN.canReadInterruptHandler.
  apply preserves_bind; [apply preserves_gets|]. intros q.
  apply preserves_bind; [apply preserves_GASSERT|]. intros _.
  destruct q as [|info0 rest0].
  { apply queueFilled_canReadAfterPop. }
  apply canReadLoopN_preserves.
  - intros s more d. apply queueFilled_canRead.
  - intros s info rest d1 ch d2 Hs Hq Hroom Hcan Hread.
    apply (returning_inv (U:=U) dev_canRead (@Recorded.CanRead U)) in Hcan.
    destruct Hcan as (x & _ & ->).
    apply (returning_inv (U:=U) dev_read (@Recorded.Read U)) in Hread.
    destruct Hread as (y & _ & ->).
    unfold queueFilled in *. rewrite Hq in Hs.
    destruct Hs as (Hb & Hc & Hrest). unfold cursorBounded in Hb.
    unfold afterRead. cbn [pending setPending].
    split; [unfold cursorBounded; simpl; lia | split; [|exact Hrest]].
    intros _. unfold Recorded.calls in *.
    cbn [advanceRead r_start_ r_current_ memory setPending setMemory
           device_ setDevice snd fst] in *.
    rewrite !readSinceStart_app. cbn [Recorded.readStep].
    rewrite <- Hc by lia.
    replace (Z.to_nat (r_current_ info + 1 - r_start_ info))
      with (S (Z.to_nat (r_current_ info - r_start_ info))) by lia.
    replace (r_current_ info)
      with (r_start_ info
            + Z.of_nat (Z.to_nat (r_current_ info - r_start_ info))) at 1
      by lia.
    apply (contents_store (P:=REC)).
  - intros s cancelled d Hs Hc.
    apply (returning_inv (U:=U) (dev_cancelRead InterruptContext)
             (@Recorded.CancelRead U InterruptContext)) in Hc.
    destruct Hc as (x & _ & ->).
    apply queueFilled_call; [exact Hs | reflexivity].
  - apply (queueFilled_finish Success true).
    apply queueFilled_canReadAfterPop.
Qed.

Lemma queueFilled_readComplete es :
  preserves (queueFilled (U:=U)) (ReadN.readCompleteInterruptHandler es).
Proof.
  unfold ReadN.readCompleteInterruptHandler.
  apply preserves_bind; [apply preserves_gets|]. intros q.
  apply preserves_bind; [apply preserves_GASSERT|]. intros _.
  destruct q as [|info rest]; [apply preserves_undefined|].
  apply preserves_bind; [apply preserves_GASSERT|]. intros _.
  apply preserves_bind; [apply preserves_statusStands|]. intros stands.
  assert (Hret : forall es',
             preserves (queueFilled (U:=U))
               (ReadN.withFront (invokeHandler es' true) ;;
                ReadN.popFront ;;
                ReadN.startNextRead true)).
  { intros es' s Hs.
    pose proof (queueFilled_finish es' true (k := ret tt)
                  (preserves_ret _ tt) s Hs) as Hf.
    rewrite !finalState_bind in *.
    destruct (ReadN.withFront (invokeHandler es' true) s)
      as [u s1 | s1 | s1 | s1]; cbn [finalState] in *; try exact Hf.
    rewrite !finalState_bind in *.
    destruct (ReadN.popFront s1) as [u2 s2 | s2 | s2 | s2];
      cbn [finalState] in *; try exact Hf.
    rewrite finalState_bind in Hf.
    destruct (ReadN.startNextRead true s2) as [u3 s3 | s3 | s3 | s3];
      cbn [finalState] in *; exact Hf. }
  destruct stands; apply Hret.
Qed.

(** A step that leaves memory, the calls, and the buffers and the
    cursors of all requests. *)
Lemma queueFilled_same (s s' : ReadN.State (P:=REC)) :
  queueFilled s ->
  map (fun i => (r_start_ i, r_current_ i, r_bufSize_ i)) (pending s') =
  map (fun i => (r_start_ i, r_current_ i, r_bufSize_ i)) (pending s) ->
  memory s' = memory s ->
  Recorded.calls s' = Recorded.calls s ->
  queueFilled s'.
Proof.
  unfold queueFilled. intros Hs Hmap Hm Hc. rewrite Hm, Hc.
  destruct (pending s') as [|info' rest'], (pending s) as [|info rest];
    try discriminate Hmap; [exact I|].
  cbn [map] in Hmap. inversion Hmap as [[H1 H2 H3 Hrest]].
  destruct Hs as (Hb & Hdata & Huntouched).
  unfold cursorBounded. rewrite H1, H2, H3.
  split; [exact Hb | split; [exact Hdata|]].
  clear - Hrest Huntouched. revert rest Hrest Huntouched.
  induction rest' as [|i' rest' IH]; intros rest Hrest Huntouched;
    [constructor|].
  destruct rest as [|i rest]; [discriminate Hrest|].
  cbn [map] in Hrest. inversion Hrest as [[H1 H2 H3 Hrest']].
  inversion Huntouched as [|? ? Hi Hothers]; subst.
  constructor; [|apply (IH rest); assumption].
  unfold untouched in *. rewrite H1, H2, H3. exact Hi.
Qed.

Lemma queueFilled_cancelRead :
  preserves (queueFilled (U:=U)) ReadN.cancelRead.
Proof.
  unfold ReadN.cancelRead.
  apply preserves_bind.
  { intros s Hs. unfold callDevice.
    cbn [dev_cancelRead Recorded.platform]. unfold Recorded.returning.
    destruct (dev_cancelRead EventLoopContext (fst (device_ s))) as [a d].
    cbn [finalState]. apply queueFilled_call; [exact Hs | reflexivity]. }
  intros cancelled. apply preserves_if.
  - apply preserves_bind; [apply preserves_gets|]. intros q.
    apply preserves_bind; [apply preserves_GASSERT|]. intros _.
    apply preserves_ret.
  - apply preserves_bind.
    + intros s Hs. unfold zoom, elAndPending. cbn [fst snd].
      pose proof (forEach_abortInfo_cursors (pending s) (el_ s)) as Hsame.
      destruct (ReadN.forEach ReadN.abortInfo (pending s) (el_ s))
        as [u t | t | t | t]; cbn [finalState] in *;
        (apply queueFilled_same with (s := s);
         [exact Hs | exact Hsame | reflexivity | reflexivity]).
    + intros _. apply preserves_bind; [|intros _; apply preserves_ret].
      intros s _. exact I.
Qed.

Lemma queueFilled_asyncReadUntil buf size pred func
    (s : ReadN.State (P:=REC)) :
  0 <= size ->
  fst (dev_suspend (device_ s)) = negb (ReadN.empty (pending s)) ->
  queueFilled s ->
  queueFilled (finalState (ReadN.asyncReadUntil buf size pred func s)).
Proof.
  intros Hsize Htells Hs.
  destruct (dev_suspend (device_ s)) as [running d] eqn:Hsuspend.
  cbn [fst] in Htells.
  pose proof Hsuspend as Hd.
  apply (returning_inv (U:=U) dev_suspend (@Recorded.Suspend U)) in Hd.
  destruct Hd as (x & _ & Hd).
  assert (Hs1 : queueFilled (setDevice d s)).
  { rewrite Hd. apply queueFilled_call; [exact Hs | reflexivity]. }
  destruct (ReadN.full (pending s)) eqn:Hfull.
  { rewrite (asyncReadUntilN_full buf size pred func s Hsuspend Hfull).
    destruct assertsEnabled; exact Hs1. }
  destruct (pending s) as [|info rest] eqn:Hq.
  - cbn [ReadN.empty negb] in Htells. subst running.
    rewrite (asyncReadUntilN_idle buf size pred func s Hsuspend Hq).
    + apply startNextRead_untouched. cbn [pending setPending].
      constructor; [split; [reflexivity | exact Hsize] | constructor].
    + intros Hcap. unfold ReadN.full in Hfull. rewrite Hcap in Hfull.
      discriminate Hfull.
  - cbn [ReadN.empty negb] in Htells. subst running.
    rewrite (asyncReadUntilN_running buf size pred func s Hsuspend);
      [|rewrite Hq; exact Hfull].
    cbn [finalState]. unfold queueFilled in *. rewrite Hq in *.
    cbn [pending setPending setDevice memory app].
    destruct Hs as (Hb & Hdata & Huntouched).
    split; [exact Hb | split].
    + intros Hn. rewrite (Hdata Hn). unfold Recorded.calls.
      cbn [device_ setDevice setPending dev_resume Recorded.platform
             Recorded.plain snd].
      rewrite Hd. cbn [snd].
      rewrite !readSinceStart_app. reflexivity.
    + apply Forall_app. split; [exact Huntouched|].
      constructor; [split; [reflexivity | exact Hsize] | constructor].
Qed.

(** What [queueFilled] says of the request at the front. *)
Lemma queueFilled_front (s : ReadN.State (P:=REC)) info rest :
  queueFilled s ->
  pending s = info :: rest ->
  r_bufSize_ info <> 0 ->
  contents (memory s) (r_start_ info)
    (Z.to_nat (r_current_ info - r_start_ info)) =
  Recorded.readSinceStart (Recorded.calls s).
Proof.
  unfold queueFilled. intros Hs Hq. rewrite Hq in Hs.
  destruct Hs as (_ & Hdata & _). exact Hdata.
Qed.

Lemma stepReadN_queueFilled e (s : ReadN.State (P:=REC)) :
  sizeIsNatural e ->
  suspendTellsPending e s ->
  queueFilled s ->
  queueFilled (finalState (stepReadN e s)).
Proof.
  intros Hsize Htells Hs.
  destruct e as [buf size func | buf size pred func | | | es];
    cbn [stepReadN].
  - apply (queueFilled_asyncReadUntil buf None func s Hsize Htells Hs).
  - apply queueFilled_asyncReadUntil; assumption.
  - revert s Htells Hs. intros s _.
    apply preserves_bind; [apply queueFilled_cancelRead|].
    intros _. apply preserves_ret.
  - apply queueFilled_canReadInterruptHandler. exact Hs.
  - apply queueFilled_readComplete. exact Hs.
Qed.

End QueueFilled.

(** The queued engine fills the front buffer in arrival order.  Take a
    sequence of operations of the queued read engine (sizes not
    negative) that stays within defined behaviour: in particular the
    can-read hook never goes on reading after it completed a request by
    its predicate, where it would use the entry it popped.  Let the
    device, asked by [suspend] when a request is submitted, report a
    read in progress exactly when requests are pending.  Then the
    buffer of the request at the front holds, from its start up to the
    cursor, the characters read from the device since the last read was
    started, each once and in the order they were read, and the cursors
    of the requests behind it have not moved. *)
Theorem queued_read_fills_front_buffer (U : Platform) {B : Build} :
  forall events (s : ReadN.State (P:=Recorded.platform U)),
    Forall sizeIsNatural events ->
    suspendTellsPendingAlong events s ->
    isUndefined (run stepReadN events s) = false ->
    queueFilled s ->
    queueFilled (finalState (run stepReadN events s)).
Proof.
  intros events.
  induction events as [|e rest IH]; intros s Hsizes Htells Hdefined Hs.
  - exact Hs.
  - inversion Hsizes as [|? ? Hsize Hrest]; subst.
    destruct Htells as [Htell Htells].
    pose proof (stepReadN_queueFilled e s Hsize Htell Hs) as Hstep.
    specialize (IH (finalState (stepReadN e s)) Hrest Htells).
    cbn [run] in *. unfold bind in *.
    destruct (stepReadN e s) as [u s1 | s1 | s1 | s1];
      cbn [finalState] in *; try exact Hstep.
    apply IH; assumption.
Qed.

Lemma queued_read_fills_front_buffer_witness :
  Forall sizeIsNatural Observed.queuedReadsServed /\
  suspendTellsPendingAlong (B:=Sim.checked) Observed.queuedReadsServed
    (Observed.engine (Sim.received [72; 105; 33] (Sim.idle 3))
       Observed.numbered []) /\
  isUndefined
    (run (stepReadN (B:=Sim.checked)) Observed.queuedReadsServed
       (Observed.engine (Sim.received [72; 105; 33] (Sim.idle 3))
          Observed.numbered [])) = false /\
  queueFilled (U:=Inputs.queued)
    (finalState
       (run (stepReadN (B:=Sim.checked)) Observed.queuedReadsServed
          (Observed.engine (Sim.received [72; 105; 33] (Sim.idle 3))
             Observed.numbered []))).
Proof.
  assert (Hsizes : Forall sizeIsNatural Observed.queuedReadsServed).
  { repeat constructor; simpl; lia. }
  assert (Htells :
    suspendTellsPendingAlong (B:=Sim.checked) Observed.queuedReadsServed
      (Observed.engine (Sim.received [72; 105; 33] (Sim.idle 3))
         Observed.numbered [])).
  { cbv [Observed.queuedReadsServed Observed.queuedReads firstn
         suspendTellsPendingAlong suspendTellsPending].
    repeat split. }
  assert (Hdefined :
    isUndefined
      (run (stepReadN (B:=Sim.checked)) Observed.queuedReadsServed
         (Observed.engine (Sim.received [72; 105; 33] (Sim.idle 3))
            Observed.numbered [])) = false).
  { vm_compute. reflexivity. }
  split; [exact Hsizes | split; [exact Htells | split; [exact Hdefined|]]].
  apply (@queued_read_fills_front_buffer Inputs.queued Sim.checked
           Observed.queuedReadsServed
           (Observed.engine (Sim.received [72; 105; 33] (Sim.idle 3))
              Observed.numbered []) Hsizes Htells Hdefined).
  exact I.
Defined.


(** ** The operations that complete a request *)

Section Completing.
Context {P : Platform} {B : Build}.

Lemma writeComplete_closed es (s : Write1.State) h room :
  w_handler_ (pending s) = Some h ->
  el_room (el_ s) = S room ->
  0 <= w_current_ (pending s) - w_start_ (pending s) < 2 ^ size_t_bits ->
  Write1.writeCompleteInterruptHandler es s =
  Ret tt
    (setPending (moveHandler (pending s))
       (setEl (posted InterruptContext
                 (completion h es
                    (w_current_ (pending s) - w_start_ (pending s)))
                 (el_ s)) s)).
Proof.
  intros Hh Hroom Hrange. unfold Write1.writeCompleteInterruptHandler.
  apply (withInfoW_invokeHandler es true s Hh Hroom Hrange).
Qed.

(** [startNextRead] past the zero-size requests at the front. *)
Lemma startNextRead_past_zeros c (s : ReadN.State) zs rest :
  pending s = zs ++ rest ->
  Forall waitingZero zs ->
  (length zs <= el_room (el_ s))%nat ->
  (forall next tail, rest = next :: tail -> r_bufSize_ next <> 0) ->
  exists s1,
    ReadN.startNextRead c s = Ret tt s1 /\
    pending s1 = rest /\
    el_ s1 = postedAll (map (zeroSizeDone c) zs) (el_ s).
Proof.
  intros Hq Hzs Hroom Hrest.
  rewrite (startNextRead_zeros c s rest Hq Hzs Hroom).
  destruct rest as [|next tail].
  - eexists. split; [apply startNextRead_nil; reflexivity|].
    split; reflexivity.
  - eexists. split.
    + apply (startNextRead_start c _ (info := next) (rest := tail));
        [reflexivity | apply (Hrest next tail); reflexivity].
    + split; reflexivity.
Qed.

Lemma postedHandlers_zeros c zs (el : EventLoop) :
  postedHandlers (postedAll (map (zeroSizeDone c) zs) el) =
  postedHandlers el ++ queuedHandlers zs.
Proof.
  unfold postedAll. rewrite postedHandlers_app. f_equal.
  unfold queuedHandlers.
  induction zs as [|z zs IH]; [reflexivity|].
  cbn [map flat_map]. rewrite IH. reflexivity.
Qed.

Lemma postedHandlers_posted ctx h es n (el : EventLoop) :
  postedHandlers (posted ctx (completion h es n) el) =
  postedHandlers el ++ [h].
Proof. unfold posted. rewrite postedHandlers_app. reflexivity. Qed.

(** The read-complete hook completes the oldest request; the zero-size
    requests that follow it directly are completed with it, in queue
    order, and the others stay queued. *)
Lemma readCompleteN_oldest es (s : ReadN.State) info zs rest h room :
  pending s = info :: zs ++ rest ->
  r_handler_ info = Some h ->
  el_room (el_ s) = S room ->
  (length zs <= room)%nat ->
  r_start_ info < r_current_ info ->
  r_current_ info - r_start_ info < 2 ^ size_t_bits ->
  isError es = true \/
  r_current_ info <= r_start_ info + r_bufSize_ info ->
  Forall waitingZero zs ->
  (forall next tail, rest = next :: tail -> r_bufSize_ next <> 0) ->
  exists s1,
    ReadN.readCompleteInterruptHandler es s = Ret tt s1 /\
    postedHandlers (el_ s1) =
    postedHandlers (el_ s) ++ h :: queuedHandlers zs /\
    pending s1 = rest.
Proof.
  intros Hq Hh Hroom Hlen Hlt Hrange Hload Hzs Hrest.
  rewrite (readCompleteN_closed es s Hq Hh Hroom Hlt Hrange).
  2:{ destruct Hload as [He | Hhi]; [left; exact He | right].
      apply lastCharInBuffer_true. split; assumption. }
  match goal with
  | |- context [ReadN.startNextRead true ?s0] =>
      destruct (startNextRead_past_zeros true s0 (zs := zs) (rest := rest))
        as (s1 & Hret & Hpending & Hel)
  end.
  - reflexivity.
  - exact Hzs.
  - cbn [el_ setEl setPending posted el_room]. rewrite Hroom. exact Hlen.
  - exact Hrest.
  - exists s1. split; [exact Hret|]. split; [|exact Hpending].
    rewrite Hel. cbn [el_ setEl setPending].
    rewrite postedHandlers_zeros, postedHandlers_posted, <- app_assoc.
    reflexivity.
Qed.

End Completing.

(** ** Every handler is posted exactly once *)



(** ** Completions are posted in submission order *)

(** C7.  Take any sequence of operations of the queued read engine
    (submissions, interrupt hooks, cancels as well) in which every call
    is accepted, that is one a build that checks its assertions runs to
    its end.  Every build runs it to the same end, and the handlers
    posted to the event loop, in posting order, followed by the
    handlers still waiting in the queue, front first, are the handlers
    posted and waiting before followed by those submitted since, in
    submission order: what has been posted is at every moment a prefix
    of the submissions.  The posting is done by the read-complete hook,
    which completes the request at the front of the queue, the oldest:
    it posts its handler, then through [startNextRead] those of the
    zero-size requests that follow it directly, in queue order, and
    leaves the others queued in their order.  The same holds of the
    write engine, whose single slot holds at most one request: the
    write-complete hook posts the handler of that request. *)
Theorem completions_posted_in_submission_order {P : Platform} {B : Build} :
  (forall Bc : Build,
      @assertsEnabled Bc = true ->
      forall events (s s' : ReadN.State) u,
        run (stepReadN (B:=Bc)) events s = Ret u s' ->
        run (stepReadN (B:=B)) events s = Ret u s' /\
        postedHandlers (el_ s') ++ queuedHandlers (pending s') =
        (postedHandlers (el_ s) ++ queuedHandlers (pending s)) ++
        flat_map submittedRead events)
  /\
  (forall es (s : ReadN.State) info zs rest h room,
      pending s = info :: zs ++ rest ->
      r_handler_ info = Some h ->
      el_room (el_ s) = S room ->
      (length zs <= room)%nat ->
      r_start_ info < r_current_ info ->
      r_current_ info - r_start_ info < 2 ^ size_t_bits ->
      isError es = true \/
      r_current_ info <= r_start_ info + r_bufSize_ info ->
      Forall waitingZero zs ->
      (forall next tail, rest = next :: tail -> r_bufSize_ next <> 0) ->
      exists s1,
        ReadN.readCompleteInterruptHandler es s = Ret tt s1 /\
        postedHandlers (el_ s1) =
        postedHandlers (el_ s) ++ h :: queuedHandlers zs /\
        pending s1 = rest)
  /\
  (forall Bc : Build,
      @assertsEnabled Bc = true ->
      forall events (s s' : Write1.State) u,
        run (stepWrite1 (B:=Bc)) events s = Ret u s' ->
        run (stepWrite1 (B:=B)) events s = Ret u s' /\
        postedHandlers (el_ s') ++ stored (w_handler_ (pending s')) =
        (postedHandlers (el_ s) ++ stored (w_handler_ (pending s))) ++
        flat_map submittedWrite events)
  /\
  (forall es (s : Write1.State) h room,
      w_handler_ (pending s) = Some h ->
      el_room (el_ s) = S room ->
      0 <= w_current_ (pending s) - w_start_ (pending s) < 2 ^ size_t_bits ->
      exists s1,
        Write1.writeCompleteInterruptHandler es s = Ret tt s1 /\
        postedHandlers (el_ s1) = postedHandlers (el_ s) ++ [h] /\
        w_handler_ (pending s1) = None).
Proof.
  split; [|split; [|split]].
  - intros Bc Hchecked events s s' u Hrun. split.
    + revert Hrun. apply transfers_run. intros e.
      apply transfers_stepReadN. exact Hchecked.
    + exact (run_conserves (stepReadN (B:=Bc)) handlersN submittedRead
               (fun e s0 u0 s0' =>
                  stepReadN_conserves (B:=Bc) Hchecked e s0
                    (u:=u0) (s':=s0'))
               events s Hrun).
  - intros es s info zs rest h room.
    apply readCompleteN_oldest.
  - intros Bc Hchecked events s s' u Hrun. split.
    + revert Hrun. apply transfers_run. intros e.
      apply transfers_stepWrite1. exact Hchecked.
    + exact (run_conserves (stepWrite1 (B:=Bc)) handlersW submittedWrite
               (fun e s0 u0 s0' =>
                  stepWrite1_conserves (B:=Bc) Hchecked e s0
                    (u:=u0) (s':=s0'))
               events s Hrun).
  - intros es s h room Hh Hroom Hrange. eexists. split.
    + apply (writeComplete_closed es s Hh Hroom Hrange).
    + cbn [el_ pending setEl setPending]. split.
      * apply postedHandlers_posted.
      * reflexivity.
Qed.

Lemma completions_posted_in_submission_order_witness :
  (exists s1,
      ReadN.readCompleteInterruptHandler (P:=Inputs.queued)
        (B:=Sim.unchecked) Success Inputs.zeroSecond = Ret tt s1 /\
      postedHandlers (el_ s1) = [1%nat; 2%nat] /\
      queuedHandlers (pending s1) = [3%nat]) /\
  Sim.postedOf
    (run (stepReadN (P:=Inputs.queued) (B:=Sim.unchecked))
       Inputs.queuedReads
       (Inputs.engine (Sim.received [72; 105; 33] (Sim.idle 4)) [])) =
  [(InterruptContext, (Some 1%nat, Success, 1));
   (InterruptContext, (Some 2%nat, Success, 2));
   (InterruptContext, (Some 3%nat, BufferOverflow, 0))].
Proof.
  destruct (@completions_posted_in_submission_order Inputs.queued
              Sim.unchecked) as (Hruns & Hhook & _ & _).
  split.
  - destruct (Hhook Success Inputs.zeroSecond
                (Inputs.readInfo 100 1 1 (Some 1%nat) None)
                [Inputs.readInfo 300 0 0 (Some 2%nat)
                   (Some (Sim.untilChar 10))]
                [Inputs.readInfo 200 2 0 (Some 3%nat) None]
                1%nat 7%nat)
      as (s1 & Hret & Hposted & Hpending).
    + reflexivity.
    + reflexivity.
    + reflexivity.
    + simpl. lia.
    + simpl. lia.
    + vm_compute. reflexivity.
    + right. simpl. lia.
    + constructor; [|constructor].
      repeat split. discriminate.
    + intros next tail Heq. inversion Heq. simpl. discriminate.
    + exists s1. split; [exact Hret|]. split.
      * rewrite Hposted. reflexivity.
      * rewrite Hpending. reflexivity.
  - destruct (run (stepReadN (P:=Inputs.queued) (B:=Sim.checked))
                Inputs.queuedReads
                (Inputs.engine (Sim.received [72; 105; 33] (Sim.idle 4)) []))
      as [u s' | s' | s' | s'] eqn:Hrun;
      try (vm_compute in Hrun; discriminate Hrun).
    destruct (Hruns Sim.checked eq_refl _ _ _ _ Hrun) as [Hsame _].
    rewrite Hsame. vm_compute in Hrun. inversion Hrun. reflexivity.
Defined.

(** ** What a cancel reports *)

Section AbortedSizes.
Context {P : Platform} {B : Build}.




End AbortedSizes.



